(** * lazy-cache: a stale-while-revalidate cache for an asynchronous function

    Shallow embedding of [server/src/lib/lazy-cache.ts].

    The module wraps an asynchronous function [f] in a cache.  Two backends
    exist: [memoryCache], which keeps its records in an object owned by the
    process, and [redisCache], which keeps them in a shared key-value store
    and guards renewals with a named, leased lock.  [lazyCache] only picks
    one of the two for each call.

    JavaScript runs one turn at a time: a turn runs to its next [await]
    without interruption.  Each backend is therefore modelled as a
    transition system whose events are the turns of the program: a call of
    the wrapped function, and the completion or the failure of each awaited
    operation.  The wrapped [f], the store and the lock service are the
    environment: calling [f] starts a computation, and whether and when it
    resolves or fails is an event.  [Date.now()] is the field [now] of the
    state, moved forward by [Tick].  The step functions are executable. *)

From Stdlib Require Import ZArith Ascii String List Lia.
From stdpp Require Import base decidable option list strings pretty gmap fin_maps.

Open Scope Z_scope.

(** ** JavaScript values *)

Module JS.

(** The values of the type parameters [T] (results of [f]) and [S]
    (arguments of [f]).

    [VNum n] is the [Number] nearest to the integer [n]: [n] itself below
    2^53, the double that [n] rounds to above, [Infinity] beyond the
    largest double.  [-0] behaves as [VNum 0] in all that follows.
    [VStr s] is the string of the code units [s], all below 256.

    [VOther] is any other value (a [NaN], a fraction, a string with a
    code unit from 256 on, a function, an object, an array, a [Date]),
    given by what this file can see of it.
    The cache inspects a result of [f] through its truthiness (lines 23
    and 29) and through [JSON.stringify] followed by [JSON.parse] (lines
    54 and 74), and an argument through [JSON.stringify] (lines 14 and
    68).  So such a value is its truthiness, the text [JSON.stringify]
    writes for it as an element of an array, and the value [JSON.parse]
    reads back after it was written as a property, [None] when that is the
    value itself.  [NaN] is [VOther false "null" (Some VNull)], a function
    is [VOther true "null" (Some VUndefined)].

    A value that [JSON.stringify] throws on (a [BigInt], a cyclic object)
    is not a value of the model: as an argument it makes the call throw at
    line 14 or 68 before anything is read or written, and as a result of
    [f] it makes line 54 throw, which is the event that kills the
    renewal. *)
#[warnings="-register-all"]
Inductive value :=
| VUndefined
| VNull
| VBool (b : bool)
| VNum (n : Z)
| VStr (s : string)
| VOther (is_truthy : bool) (text : string) (back : option value).

#[global] Instance value_eq_dec : EqDecision value.
Proof.
  refine (fix go (x y : value) {struct x} : Decision (x = y) :=
    match x, y with
    | VUndefined, VUndefined | VNull, VNull => left _
    | VBool a, VBool b => cast_if (decide (a = b))
    | VNum a, VNum b => cast_if (decide (a = b))
    | VStr a, VStr b => cast_if (decide (a = b))
    | VOther t a x', VOther t' a' y' =>
        cast_if_and3 (decide (t = t')) (decide (a = a'))
          (match x', y' return Decision (x' = y') with
           | Some u, Some w => cast_if (go u w)
           | None, None => left _
           | _, _ => right _
           end)
    | _, _ => right _
    end); congruence.
Defined.

(** [ToBoolean]: [undefined], [null], [false], [0] and the empty string
    are falsy. *)
Definition truthy (v : value) : bool :=
  match v with
  | VUndefined | VNull => false
  | VBool b => b
  | VNum n => negb (n =? 0)
  | VStr s => negb (String.eqb s EmptyString)
  | VOther b _ _ => b
  end.

Definition hex_digit (n : N) : ascii :=
  if (n <? 10)%N then ascii_of_N (48 + n) else ascii_of_N (87 + n).

(** [QuoteJSONString] on one code unit. *)
Definition escape_char (c : ascii) : string :=
  let n := N_of_ascii c in
  if (n =? 34)%N then "\" +:+ String c EmptyString
  else if (n =? 92)%N then "\\"
  else if (n =? 8)%N then "\b"
  else if (n =? 9)%N then "\t"
  else if (n =? 10)%N then "\n"
  else if (n =? 12)%N then "\f"
  else if (n =? 13)%N then "\r"
  else if (n <? 32)%N then
    "\u00" +:+ String (hex_digit (n / 16)) (String (hex_digit (n mod 16)) EmptyString)
  else String c EmptyString.

Fixpoint escape (s : string) : string :=
  match s with
  | EmptyString => EmptyString
  | String c s' => escape_char c +:+ escape s'
  end.

Definition quote : string := String "034"%char EmptyString.

(** *** Numbers

    [Number::toString] on the [Number] nearest to an integer. *)

(** [Number] holds the integers below 2^53 exactly. *)
Definition safe (n : Z) : bool := Z.abs n <? 2 ^ 53.

(** The integer held by the double nearest to the integer [n > 0], ties
    going to the even significand; [None] beyond the largest double, where
    the number is [Infinity]. *)
Definition round_double (n : Z) : option Z :=
  let shift := Z.log2 n - 52 in
  if shift <=? 0 then Some n
  else
    let q := Z.shiftr n shift in
    let r := n - Z.shiftl q shift in
    let half := Z.shiftl 1 (shift - 1) in
    let q' := if (half <? r) || ((half =? r) && Z.odd q) then q + 1 else q in
    let m := Z.shiftl q' shift in
    if 2 ^ 1024 <=? m then None else Some m.

Definition digits_of (x : Z) : Z := Z.of_nat (String.length (pretty x)).

(** The pairs [(s, n)] with [s] of [k] digits such that [s * 10^(n-k)]
    is a decimal of the double [x]: it rounds to [x]. *)
Definition candidates (x k : Z) : list (Z * Z) :=
  flat_map
    (λ n, let p := 10 ^ (n - k) in
          let s0 := x / p in
          List.filter
            (λ c, (10 ^ (k - 1) <=? c.1) && (c.1 <? 10 ^ k)
                  && bool_decide (round_double (c.1 * p) = Some x))
            [(s0, n); (s0 + 1, n)])
    [digits_of x; digits_of x + 1].

(** Of two decimals the one closest to [x], the even one on a tie. *)
Definition closer (x k : Z) (a b : Z * Z) : Z * Z :=
  let da := Z.abs (a.1 * 10 ^ (a.2 - k) - x) in
  let db := Z.abs (b.1 * 10 ^ (b.2 - k) - x) in
  if db <? da then b
  else if (db =? da) && Z.odd a.1 then b
  else a.

(** The decimal of [x] with the fewest digits [k]: [(s, n, k)]. *)
Fixpoint shortest (x : Z) (ks : list Z) : Z * Z * Z :=
  match ks with
  | [] => (x, digits_of x, digits_of x)
  | k :: ks' =>
      match candidates x k with
      | [] => shortest x ks'
      | c :: cs => (fold_left (closer x k) cs c, k)
      end
  end.

Definition repeat_zero (n : Z) : string :=
  string_of_list_ascii (repeat "0"%char (Z.to_nat n)).

(** [Number::toString] for the double that holds the integer [x], at
    least 2^53: the digits followed by zeros up to 21 digits, the
    exponent form from 10^21 on. *)
Definition to_string (x : Z) : string :=
  let '(s, n, k) := shortest x (map Z.of_nat (seq 1 17)) in
  let ds := pretty s in
  if n <=? 21 then ds +:+ repeat_zero (n - k)
  else
    match ds with
    | String d rest =>
        String d (match rest with
                  | EmptyString => EmptyString
                  | _ => "." +:+ rest
                  end)
        +:+ "e+" +:+ pretty (n - 1)
    | EmptyString => EmptyString
    end.

(** [JSON.stringify] of the number: an integer below 2^53 is written with
    all its digits; [Infinity] is written [null]. *)
Definition number_text (n : Z) : string :=
  if safe n then pretty n
  else
    match round_double (Z.abs n) with
    | Some x => (if n <? 0 then "-" else "") +:+ to_string x
    | None => "null"
    end.

(** [SerializeJSONProperty] for an element of an array: [undefined] is
    written as [null]. *)
Definition stringify_element (v : value) : string :=
  match v with
  | VUndefined | VNull => "null"
  | VBool true => "true"
  | VBool false => "false"
  | VNum n => number_text n
  | VStr s => quote +:+ escape s +:+ quote
  | VOther _ t _ => t
  end.

(** [JSON.parse(JSON.stringify({ at, value })).value]: what is read back
    of a value written as a property.  An [undefined] value is left out of
    the text and read back as [undefined]; [Infinity] is written [null]. *)
Definition parsed (v : value) : value :=
  match v with
  | VNum n =>
      match round_double (Z.abs n) with
      | Some _ => v
      | None => VNull
      end
  | VOther _ _ (Some w) => w
  | _ => v
  end.

(** The values on which the serialization can be read back: [undefined],
    [null], the booleans, the strings and the integers below 2^53. *)
Definition plain (v : value) : bool :=
  match v with
  | VNum n => safe n
  | VOther _ _ _ => false
  | _ => true
  end.

Definition all_plain (l : list value) : bool := forallb plain l.

(** [JSON.stringify(args)] for the rest-parameter array [args]. *)
Definition JSON_stringify (args : list value) : string :=
  "[" +:+ String.concat "," (map stringify_element args) +:+ "]".

(** *** Reading a serialization back

    The definitions below are used to show that [JSON_stringify] can be
    read back on the plain values: they classify and decode the text it
    writes for them. *)

(** [undefined] and [null] are both written [null]. *)
Definition normalize (v : value) : value :=
  match v with
  | VUndefined => VNull
  | _ => v
  end.

Definition hex_value (c : ascii) : option N :=
  let n := N_of_ascii c in
  if ((48 <=? n) && (n <? 58))%N then Some (n - 48)%N
  else if ((97 <=? n) && (n <? 103))%N then Some (n - 87)%N
  else None.

(** Reads one escaped character off the front of the inside of a quoted
    string; fails on the closing quote. *)
Definition unescape_char (s : string) : option (ascii * string) :=
  match s with
  | String c rest =>
      if (N_of_ascii c =? 92)%N then
        match rest with
        | String x rest' =>
            let n := N_of_ascii x in
            if (n =? 34)%N then Some (x, rest')
            else if (n =? 92)%N then Some (x, rest')
            else if (n =? 98)%N then Some (ascii_of_N 8, rest')
            else if (n =? 116)%N then Some (ascii_of_N 9, rest')
            else if (n =? 110)%N then Some (ascii_of_N 10, rest')
            else if (n =? 102)%N then Some (ascii_of_N 12, rest')
            else if (n =? 114)%N then Some (ascii_of_N 13, rest')
            else
              match rest' with
              | String _ (String _ (String h (String l rest''))) =>
                  match hex_value h, hex_value l with
                  | Some a, Some b => Some (ascii_of_N (16 * a + b), rest'')
                  | _, _ => None
                  end
              | _ => None
              end
        | EmptyString => None
        end
      else if (N_of_ascii c =? 34)%N then None
      else Some (c, rest)
  | EmptyString => None
  end.

(** The characters of a written integer: the digits and the minus sign. *)
Definition is_numeric (c : ascii) : bool :=
  let n := N_of_ascii c in
  (n =? 45)%N || ((48 <=? n) && (n <? 58))%N.

Fixpoint all_numeric (s : string) : bool :=
  match s with
  | EmptyString => true
  | String c s' => is_numeric c && all_numeric s'
  end.

(** A string that does not go on with a character of a number. *)
Definition stops (r : string) : Prop :=
  match r with
  | EmptyString => True
  | String c _ => is_numeric c = false
  end.

(** A string that goes on with the next element or closes the array. *)
Definition delimits (r : string) : Prop :=
  match r with
  | String c _ => c = ","%char ∨ c = "]"%char
  | EmptyString => False
  end.

(** The five kinds of text a plain element is written as, and the kind
    the first character of a text announces. *)
Definition kind (v : value) : nat :=
  match v with
  | VUndefined | VNull => 0
  | VBool true => 1
  | VBool false => 2
  | VNum _ => 3
  | VStr _ => 4
  | VOther _ _ _ => 5
  end.

Definition head_kind (s : string) : option nat :=
  match s with
  | EmptyString => None
  | String c _ =>
      let n := N_of_ascii c in
      if (n =? 110)%N then Some 0%nat
      else if (n =? 116)%N then Some 1%nat
      else if (n =? 102)%N then Some 2%nat
      else if is_numeric c then Some 3%nat
      else if (n =? 34)%N then Some 4%nat
      else None
  end.

(** The elements of an array followed by the text [r]: the separators of
    [String.concat] written out. *)
Fixpoint items (l : list value) (r : string) : string :=
  match l with
  | [] => r
  | x :: xs =>
      stringify_element x +:+
      match xs with
      | [] => r
      | _ :: _ => "," +:+ items xs r
      end
  end.

End JS.

Import JS.

(** [isExpired], with [Date.now()] passed as [now].  With [at] undefined
    the difference [Date.now() - at] is [NaN] and the comparison with
    [timeMs] is false. *)
Definition isExpired (now : Z) (at_ : option Z) (timeMs : Z) : bool :=
  match at_ with
  | Some a => timeMs <? now - a
  | None => false
  end.

(** ** The in-process backend: [memoryCache] *)

Module Mem.

(** An element of [caches]: [{ at?: number; promise?: Promise<T>; value?: T }].
    A missing [at] or [promise] is [None]; [promise: null] is [None] as
    well, since the field is only ever tested for truthiness.  A missing
    [value] is [VUndefined]. *)
Record entry := Entry {
  e_at : option Z;
  e_promise : option nat;
  e_value : value
}.

(** The state of a promise made by [new Promise(async resolve => ...)].
    The executor never takes the [reject] parameter, so such a promise is
    pending or resolved. *)
Inductive pstate :=
| Pending
| Resolved (v : value).

(** The state of the promise returned by [f(...args)]. *)
Inductive fstate :=
| Running
| Fulfilled (v : value)
| Failed.

(** One run of the executor of line 28.  It is suspended at
    [await f(...args)] while [j_f] is [Running]; [j_at] is the [Date.now()]
    of the object literal, read before [f] is called; [j_promise] is the
    promise stored in [cached.promise].  The executor's [cached] is the
    object at [caches[j_key]]: an element of [caches] is assigned only
    when it is missing, so the object at a key is never replaced. *)
Record job := Job {
  j_key : string;
  j_args : list value;
  j_at : Z;
  j_hasOldCache : bool;
  j_f : fstate;
  j_promise : pstate
}.

Record state := State {
  caches : gmap string entry;
  jobs : list job;
  now : Z
}.

(** What the [async] arrow function returns: a plain value, or a promise
    that the caller's promise follows. *)
Inductive outcome :=
| Value (v : value)
| Promise (p : nat).

Inductive event :=
| Call (args : list value)
| FResolve (p : nat) (v : value)
| FReject (p : nat)
| Tick (d : N).

Definition init : state := State ∅ [] 0.

Section Wrapped.

Variable timeMs : Z.

(** Lines 28-37 up to the [await]: the executor runs synchronously,
    calls [f] and suspends; then [cached.promise] is assigned. *)
Definition renew (key : string) (args : list value) (cached : entry)
    (s : state) : state * outcome :=
  let p := length (jobs s) in
  let hasOldCache := truthy (e_value cached) in
  let j := Job key args (now s) hasOldCache Running
             (if hasOldCache then Resolved (e_value cached) else Pending) in
  (State (<[key := Entry (e_at cached) (Some p) (e_value cached)]> (caches s))
         (jobs s ++ [j]) (now s),
   Promise p).

(** Lines 13-38: one call of the wrapped function. *)
Definition memoryCache (args : list value) (s : state) : state * outcome :=
  let key := JSON_stringify args in
  match caches s !! key with
  | Some cached =>
      if negb (isExpired (now s) (e_at cached) timeMs) then
        (s, Value (e_value cached))
      else
        match e_promise cached with
        | Some p =>
            (s, if truthy (e_value cached) then Value (e_value cached)
                else Promise p)
        | None => renew key args cached s
        end
  | None => renew key args (Entry None None VUndefined) s
  end.

(** Lines 31-36 after the [await]: [Object.assign] overwrites the three
    fields of [cached], then the promise is resolved unless it was
    resolved at the start. *)
Definition f_resolved (p : nat) (v : value) (s : state) : state :=
  match jobs s !! p with
  | Some j =>
      match j_f j with
      | Running =>
          State (<[j_key j := Entry (Some (j_at j)) None v]> (caches s))
                (<[p := Job (j_key j) (j_args j) (j_at j) (j_hasOldCache j)
                          (Fulfilled v)
                          (if j_hasOldCache j then j_promise j
                           else Resolved v)]> (jobs s))
                (now s)
      | _ => s
      end
  | None => s
  end.

(** [await f(...args)] throws: the executor's own promise rejects and
    nothing after the [await] runs. *)
Definition f_rejected (p : nat) (s : state) : state :=
  match jobs s !! p with
  | Some j =>
      match j_f j with
      | Running =>
          State (caches s)
                (<[p := Job (j_key j) (j_args j) (j_at j) (j_hasOldCache j)
                          Failed (j_promise j)]> (jobs s))
                (now s)
      | _ => s
      end
  | None => s
  end.

Definition step (s : state) (e : event) : state * option outcome :=
  match e with
  | Call args => let '(s', o) := memoryCache args s in (s', Some o)
  | FResolve p v => (f_resolved p v s, None)
  | FReject p => (f_rejected p s, None)
  | Tick d => (State (caches s) (jobs s) (now s + Z.of_N d), None)
  end.

Fixpoint run (s : state) (es : list event) : state * list outcome :=
  match es with
  | [] => (s, [])
  | e :: es' =>
      let '(s', o) := step s e in
      let '(s'', os) := run s' es' in
      (s'', match o with Some x => x :: os | None => os end)
  end.

End Wrapped.

(** The value a caller's promise has resolved to, if it has. *)
Definition settled (s : state) (o : outcome) : option value :=
  match o with
  | Value v => Some v
  | Promise p =>
      match jobs s !! p with
      | Some j => match j_promise j with Resolved v => Some v | Pending => None end
      | None => None
      end
  end.

(** The executors for [key] that are suspended at [await f(...args)]. *)
Definition running_for (key : string) (j : job) : bool :=
  match j_f j with
  | Running => bool_decide (j_key j = key)
  | _ => false
  end.

Definition in_flight (s : state) (key : string) : list job :=
  List.filter (running_for key) (jobs s).

(** The states reached from [s]. *)
Definition reachable_from (timeMs : Z) (s s' : state) : Prop :=
  ∃ es, s' = (run timeMs s es).1.

(** Every suspended executor is the one that the [promise] field of the
    entry at its key names. *)
Definition marked (s : state) : Prop :=
  ∀ p j, jobs s !! p = Some j → j_f j = Running →
    ∃ c, caches s !! j_key j = Some c ∧ e_promise c = Some p.

(** The entry at [key] is [c], and its [promise] field names executor [p],
    which is [j]. *)
Definition held_by (s : state) (key : string) (c : entry) (p : nat) (j : job) : Prop :=
  caches s !! key = Some c ∧ e_promise c = Some p ∧
  jobs s !! p = Some j ∧ j_key j = key.

(** From index [n] on, no executor was run for [key]: [f] was not called
    for [key] since the state that had [n] executors. *)
Definition no_new_job (s : state) (key : string) (n : nat) : Prop :=
  ∀ q j, jobs s !! q = Some j → (n ≤ q)%nat → j_key j ≠ key.

(** The call runs the executor of line 28: it calls [f]. *)
Definition starts_computation (timeMs : Z) (args : list value) (s : state) : Prop :=
  length (jobs (memoryCache timeMs args s).1) = S (length (jobs s)).

(** Every executor and every entry is filed under the serialization of
    the arguments of a call. *)
Definition keyed (s : state) : Prop :=
  (∀ p j, jobs s !! p = Some j → j_key j = JSON_stringify (j_args j))
  ∧ (∀ k c, caches s !! k = Some c → ∃ args, k = JSON_stringify args).

End Mem.

(** ** The shared backend: [redisCache] and [renewRedisCache] *)

Module Red.

(** Modelled from the spec: the key-value store behind [redis], which is
    not part of this file.  [get] answers with what the last [set] for the
    key wrote, or with nothing.  An entry is kept as the parsed content of
    its text: [JSON.parse] of what line 54 wrote, [{ at, value }], so
    [rec_value] is [JS.parsed] of the value that was written. *)
Record record := Record_ {
  rec_at : Z;
  rec_value : value
}.

(** Modelled from the spec: the lock service behind [redlock], which is
    not part of this file.  A lock is a named, leased token: it is owned by
    its holder until it is released or until its lease has run out. *)
Record lock := Lock {
  l_holder : nat;
  l_expires : Z
}.

(** Modelled from the spec: a lock can be granted when nobody owns it or
    the owner's lease has run out. *)
Definition lock_free (now : Z) (locks : gmap string lock) (name : string) : bool :=
  match locks !! name with
  | Some l => l_expires l <=? now
  | None => true
  end.

(** Modelled from the spec: [acquire(name, leaseMs)]. *)
Definition acquire (now lease : Z) (name : string) (holder : nat)
    (locks : gmap string lock) : gmap string lock :=
  <[name := Lock holder (now + lease)]> locks.

(** Modelled from the spec: [Lock.release()], which frees the lock only
    if the one releasing still owns it. *)
Definition release (name : string) (holder : nat)
    (locks : gmap string lock) : gmap string lock :=
  match locks !! name with
  | Some l => if decide (l_holder l = holder) then delete name locks else locks
  | None => locks
  end.

(** Where one run of the executor of [renewRedisCache] (lines 47-58) is
    suspended: at [await redlock.lock], at [await f] (with the time the
    lease it was granted runs out), at [await redis.set] (with the text
    being written), or not at all: it has resolved its promise, or one of
    its awaits threw. *)
Inductive rphase :=
| Locking
| Computing (expires : Z)
| Writing (expires : Z) (at_ : Z) (v : value)
| Finished (v : value)
| Died.

Record renewal := Renewal {
  r_key : string;
  r_args : list value;
  r_phase : rphase
}.

(** Where one call of the function returned by [redisCache] stands: at
    [await redis.get], inside the promise of line 80 awaiting a renewal,
    returned from line 77, or rejected because [redis.get] threw. *)
Inductive cphase :=
| Getting
| Awaiting (r : nat)
| Returned (v : value)
| Rejected.

Record caller := Caller {
  c_key : string;
  c_args : list value;
  c_phase : cphase
}.

(** What a renewal did, in the order it happened. *)
Inductive action :=
| Acquired (r : nat)
| Invoked (r : nat)
| Wrote (r : nat)
| Released (r : nat).

Record state := State {
  store : gmap string record;
  locks : gmap string lock;
  callers : list caller;
  renewals : list renewal;
  now : Z;
  log : list action
}.

Inductive event :=
| Call (args : list value)
| GetReply (c : nat)
| GetError (c : nat)
| LockGranted (r : nat)
| LockError (r : nat)
| FResolve (r : nat) (v : value)
| FReject (r : nat)
| SetReply (r : nat)
| SetError (r : nat)
| Tick (d : N).

Definition init : state := State ∅ ∅ [] [] 0 [].

(** [1000 * 60 * 3 /*3 minutes*/] *)
Definition lease : Z := 1000 * 60 * 3.

Definition lock_name (key : string) : string := key +:+ "-lock".

Definition set_caller (c : nat) (ph : cphase) (s : state) : state :=
  match callers s !! c with
  | Some x =>
      State (store s) (locks s)
            (<[c := Caller (c_key x) (c_args x) ph]> (callers s))
            (renewals s) (now s) (log s)
  | None => s
  end.

Definition set_renewal (r : nat) (ph : rphase) (s : state) : state :=
  match renewals s !! r with
  | Some x =>
      State (store s) (locks s) (callers s)
            (<[r := Renewal (r_key x) (r_args x) ph]> (renewals s))
            (now s) (log s)
  | None => s
  end.

(** [renewRedisCache(key, f, timeMs)(...args)] up to its first [await]:
    a new executor, suspended at [redlock.lock]. *)
Definition renewRedisCache (key : string) (args : list value) (s : state) : state :=
  State (store s) (locks s) (callers s)
        (renewals s ++ [Renewal key args Locking]) (now s) (log s).

Section Wrapped.

Variable cacheKey : string.
Variable timeMs : Z.

(** Lines 68-69: the key is computed and [redis.get] is awaited. *)
Definition redisCache (args : list value) (s : state) : state :=
  State (store s) (locks s)
        (callers s ++ [Caller (cacheKey +:+ JSON_stringify args) args Getting])
        (renewals s) (now s) (log s).

(** Lines 73-82, once [redis.get] has answered with the store's content. *)
Definition get_reply (c : nat) (s : state) : state :=
  match callers s !! c with
  | Some (Caller key args Getting) =>
      match store s !! key with
      | Some cached =>
          let s' := if isExpired (now s) (Some (rec_at cached)) timeMs
                    then renewRedisCache key args s else s in
          set_caller c (Returned (rec_value cached)) s'
      | None =>
          set_caller c (Awaiting (length (renewals s))) (renewRedisCache key args s)
      end
  | _ => s
  end.

Definition get_error (c : nat) (s : state) : state :=
  match callers s !! c with
  | Some (Caller _ _ Getting) => set_caller c Rejected s
  | _ => s
  end.

End Wrapped.

(** Lines 48-53: the lock is granted and [f] is called. *)
Definition lock_granted (r : nat) (s : state) : state :=
  match renewals s !! r with
  | Some (Renewal key args Locking) =>
      if lock_free (now s) (locks s) (lock_name key) then
        State (store s)
              (acquire (now s) lease (lock_name key) r (locks s))
              (callers s)
              (<[r := Renewal key args (Computing (now s + lease))]> (renewals s))
              (now s)
              (log s ++ [Acquired r; Invoked r])
      else s
  | _ => s
  end.

(** Line 54: [f] has resolved; the text to write is built, with
    [at: Date.now()], and [redis.set] is awaited. *)
Definition f_resolved (r : nat) (v : value) (s : state) : state :=
  match renewals s !! r with
  | Some (Renewal _ _ (Computing e)) => set_renewal r (Writing e (now s) v) s
  | _ => s
  end.

(** Lines 54-57: the store has taken the write; the lock is released and
    the promise resolved with the value of [f] as it is, while the store
    holds what can be read back of its text. *)
Definition set_reply (r : nat) (s : state) : state :=
  match renewals s !! r with
  | Some (Renewal key args (Writing e a v)) =>
      State (<[key := Record_ a (parsed v)]> (store s))
            (release (lock_name key) r (locks s))
            (callers s)
            (<[r := Renewal key args (Finished v)]> (renewals s))
            (now s)
            (log s ++ [Wrote r; Released r])
  | _ => s
  end.

(** An [await] of the executor throws: the executor's own promise
    rejects, nothing after the [await] runs, and the promise of line 47
    stays pending.  A lock already granted is not released. *)
Definition lock_error (r : nat) (s : state) : state :=
  match renewals s !! r with
  | Some (Renewal _ _ Locking) => set_renewal r Died s
  | _ => s
  end.

Definition f_rejected (r : nat) (s : state) : state :=
  match renewals s !! r with
  | Some (Renewal _ _ (Computing _)) => set_renewal r Died s
  | _ => s
  end.

Definition set_error (r : nat) (s : state) : state :=
  match renewals s !! r with
  | Some (Renewal _ _ (Writing _ _ _)) => set_renewal r Died s
  | _ => s
  end.

Definition step (cacheKey : string) (timeMs : Z) (s : state) (e : event) : state :=
  match e with
  | Call args => redisCache cacheKey args s
  | GetReply c => get_reply timeMs c s
  | GetError c => get_error c s
  | LockGranted r => lock_granted r s
  | LockError r => lock_error r s
  | FResolve r v => f_resolved r v s
  | FReject r => f_rejected r s
  | SetReply r => set_reply r s
  | SetError r => set_error r s
  | Tick d =>
      State (store s) (locks s) (callers s) (renewals s) (now s + Z.of_N d) (log s)
  end.

Definition run (cacheKey : string) (timeMs : Z) (s : state) (es : list event) : state :=
  fold_left (step cacheKey timeMs) es s.

(** How the promise returned to a caller has settled, if it has. *)
Inductive settlement :=
| Resolves (v : value)
| Rejects.

Definition settled (s : state) (c : nat) : option settlement :=
  match callers s !! c with
  | Some (Caller _ _ (Returned v)) => Some (Resolves v)
  | Some (Caller _ _ Rejected) => Some Rejects
  | Some (Caller _ _ (Awaiting r)) =>
      match renewals s !! r with
      | Some (Renewal _ _ (Finished v)) => Some (Resolves v)
      | _ => None
      end
  | _ => None
  end.

(** A renewal is in its critical section between the grant of the lock
    and the answer to its write. *)
Definition critical (x : renewal) : option Z :=
  match r_phase x with
  | Computing e | Writing e _ _ => Some e
  | _ => None
  end.

(** The states reached from [s]. *)
Definition reachable_from (cacheKey : string) (timeMs : Z) (s s' : state) : Prop :=
  ∃ es, s' = run cacheKey timeMs s es.

(** The lock discipline: a renewal in its critical section whose lease
    has not run out is the holder of the lock of its key. *)
Definition leased (s : state) : Prop :=
  ∀ r x e, renewals s !! r = Some x → critical x = Some e → now s < e →
    locks s !! lock_name (r_key x) = Some (Lock r e).

Definition renewal_of (a : action) : nat :=
  match a with
  | Acquired r | Invoked r | Wrote r | Released r => r
  end.

(** What renewal [r] did, in order. *)
Definition actions_of (r : nat) (l : list action) : list action :=
  List.filter (λ a, Nat.eqb (renewal_of a) r) l.

(** What a renewal in a given phase has done so far. *)
Definition done_in (r : nat) (ph : option rphase) (l : list action) : Prop :=
  match ph with
  | None | Some Locking => l = []
  | Some (Computing _) | Some (Writing _ _ _) => l = [Acquired r; Invoked r]
  | Some (Finished _) => l = [Acquired r; Invoked r; Wrote r; Released r]
  | Some Died => l = [] ∨ l = [Acquired r; Invoked r]
  end.

Definition ordered (s : state) : Prop :=
  ∀ r, done_in r (r_phase <$> renewals s !! r) (actions_of r (log s)).

(** The phases in which the executor is suspended no more. *)
Definition terminal (ph : rphase) : Prop :=
  match ph with
  | Finished _ | Died => True
  | _ => False
  end.

(** Event [e] is an await of renewal [r] throwing, in the phase [ph]
    that awaits it: lock acquisition, the computation, or the store write
    fails. *)
Definition failure_of (r : nat) (ph : rphase) (e : event) : Prop :=
  match e, ph with
  | LockError r', Locking => r' = r
  | FReject r', Computing _ => r' = r
  | SetError r', Writing _ _ _ => r' = r
  | _, _ => False
  end.

(** Every caller, renewal, record and lock is filed under the namespace
    followed by the serialization of the arguments of a call. *)
Definition keyed (cacheKey : string) (s : state) : Prop :=
  (∀ c y, callers s !! c = Some y →
     c_key y = cacheKey +:+ JSON_stringify (c_args y))
  ∧ (∀ r x, renewals s !! r = Some x →
     r_key x = cacheKey +:+ JSON_stringify (r_args x))
  ∧ (∀ k cached, store s !! k = Some cached →
     ∃ args, k = cacheKey +:+ JSON_stringify args)
  ∧ (∀ n l, locks s !! n = Some l →
     ∃ args, n = lock_name (cacheKey +:+ JSON_stringify args)).

End Red.

(** ** Further predicates on the states of the in-process backend *)

Module MemInv.
Import Mem.

(** [f] has resolved in this executor. *)
Definition fulfilled (j : job) : bool :=
  match j_f j with
  | Fulfilled _ => true
  | _ => false
  end.

(** An executor whose [f] has not resolved, whether it is running or has
    failed, is named by the [promise] field of the entry at its key. *)
Definition marker_kept (s : state) : Prop :=
  ∀ p j, jobs s !! p = Some j → fulfilled j = false →
    ∃ c, caches s !! j_key j = Some c ∧ e_promise c = Some p.

(** The [at] of an entry is not before the start of any computation for
    its key that has resolved. *)
Definition latest (s : state) : Prop :=
  ∀ p j, jobs s !! p = Some j → fulfilled j = true →
    ∃ c a, caches s !! j_key j = Some c ∧ e_at c = Some a ∧ j_at j ≤ a.

(** A computation for a key is started only when the earlier ones for
    the key have resolved. *)
Definition sequential (s : state) : Prop :=
  ∀ p q jp jq, jobs s !! p = Some jp → jobs s !! q = Some jq →
    (p < q)%nat → j_key jp = j_key jq → fulfilled jp = true.

(** Two computations for one key are started more than [timeMs] apart. *)
Definition spaced (timeMs : Z) (s : state) : Prop :=
  ∀ p q jp jq, jobs s !! p = Some jp → jobs s !! q = Some jq →
    (p < q)%nat → j_key jp = j_key jq → timeMs < j_at jq - j_at jp.

(** Computations are listed in the order they were started, none of them
    in the future. *)
Definition clocked (s : state) : Prop :=
  (∀ p j, jobs s !! p = Some j → j_at j ≤ now s)
  ∧ (∀ p q jp jq, jobs s !! p = Some jp → jobs s !! q = Some jq →
       (p ≤ q)%nat → j_at jp ≤ j_at jq).

Definition paced (timeMs : Z) (s : state) : Prop :=
  marker_kept s ∧ latest s ∧ sequential s ∧ spaced timeMs s ∧ clocked s.

(** Where the values come from: an entry holds nothing yet, or the result
    and the start time of a computation for its key; a resolved promise
    holds the result of a computation for its executor's key; and the
    [promise] field of an entry names an executor for the entry's key. *)
Definition sourced (s : state) : Prop :=
  (∀ k c, caches s !! k = Some c →
     (e_at c = None ∧ e_value c = VUndefined)
     ∨ ∃ p j, jobs s !! p = Some j ∧ j_key j = k ∧
              e_at c = Some (j_at j) ∧ j_f j = Fulfilled (e_value c))
  ∧ (∀ p j v, jobs s !! p = Some j → j_promise j = Resolved v →
     ∃ p' j', jobs s !! p' = Some j' ∧ j_key j' = j_key j ∧
              j_f j' = Fulfilled v)
  ∧ (∀ k c p, caches s !! k = Some c → e_promise c = Some p →
     ∃ j, jobs s !! p = Some j ∧ j_key j = k).

(** The executor named by the [promise] field of an entry was started on
    the value the entry still has: it resolved its promise at once when
    that value is truthy, and its promise is pending when it is not. *)
Definition awaited (s : state) : Prop :=
  ∀ k c p, caches s !! k = Some c → e_promise c = Some p →
    ∃ j, jobs s !! p = Some j ∧ j_key j = k
         ∧ j_promise j =
             (if truthy (e_value c) then Resolved (e_value c) else Pending).

(** The key an event is about: the key of the call's arguments, or the
    key of the executor whose [f] settles. *)
Definition key_of_event (s : state) (e : event) : option string :=
  match e with
  | Call args => Some (JSON_stringify args)
  | FResolve p _ | FReject p => j_key <$> jobs s !! p
  | Tick _ => None
  end.

(** No event of the run is about [key]. *)
Fixpoint avoids (timeMs : Z) (key : string) (s : state) (es : list event) : Prop :=
  match es with
  | [] => True
  | e :: es' =>
      key_of_event s e ≠ Some key ∧ avoids timeMs key (step timeMs s e).1 es'
  end.

End MemInv.

(** ** Further predicates on the states of the shared backend *)

Module RedInv.
Import Red.

(** The phases an executor of [renewRedisCache] goes through: each
    [await] either returns, which takes it to the next one, or throws. *)
Definition moves (ph ph' : rphase) : Prop :=
  match ph, ph' with
  | Locking, Computing _ => True
  | Computing e, Writing e' _ _ => e' = e
  | Writing _ _ v, Finished v' => v' = v
  | (Locking | Computing _ | Writing _ _ _), Died => True
  | _, _ => False
  end.

(** A caller inside the promise of line 80 awaits a renewal made for its
    own key and arguments, and no two callers await the same renewal. *)
Definition wired (s : state) : Prop :=
  (∀ c y r, callers s !! c = Some y → c_phase y = Awaiting r →
     ∃ x, renewals s !! r = Some x ∧ r_key x = c_key y ∧ r_args x = c_args y)
  ∧ (∀ c c' y y' r, callers s !! c = Some y → callers s !! c' = Some y' →
       c_phase y = Awaiting r → c_phase y' = Awaiting r → c = c').

(** Where the values come from: a record of the store, and the value a
    caller returned from line 77, are what is read back of the value a
    renewal for the key has finished with. *)
Definition sourced (s : state) : Prop :=
  (∀ k cached, store s !! k = Some cached →
     ∃ r x w, renewals s !! r = Some x ∧ r_key x = k
              ∧ r_phase x = Finished w ∧ rec_value cached = parsed w)
  ∧ (∀ c y v, callers s !! c = Some y → c_phase y = Returned v →
     ∃ r x w, renewals s !! r = Some x ∧ r_key x = c_key y
              ∧ r_phase x = Finished w ∧ v = parsed w).

(** The lock of [key] was left behind by renewal [r], which died holding
    it under a lease that runs until [e]. *)
Definition abandoned (key : string) (r : nat) (e : Z) (s : state) : Prop :=
  locks s !! lock_name key = Some (Lock r e)
  ∧ ∃ x, renewals s !! r = Some x ∧ r_phase x = Died.

(** Renewal [r] is a renewal of [key] that has called [f]. *)
Definition invoked (key : string) (r : nat) (s : state) : Prop :=
  In (Invoked r) (log s) ∧ ∃ x, renewals s !! r = Some x ∧ r_key x = key.

(** The calls of [f] for [key] made since [s0] were made by renewals of
    other keys. *)
Definition no_new_invocation (key : string) (s0 s : state) : Prop :=
  ∀ r, In (Invoked r) (log s) →
    In (Invoked r) (log s0)
    ∨ ∃ x, renewals s !! r = Some x ∧ r_key x ≠ key.


End RedInv.

(** ** The exported function: [lazyCache] *)

Module Lazy.

(** Where one call of the function returned by [lazyCache] stands: at
    [await useRedis]; passed to the in-process cache, which handed back
    [o]; passed to the shared cache as its caller [c]; or rejected because
    the await threw. *)
Inductive phase :=
| Deciding
| InMemory (o : Mem.outcome)
| InRedis (c : nat)
| Threw.

Record call := Call_ {
  a_args : list value;
  a_phase : phase
}.

(** Line 91 makes one in-process cache, [memCache], for all the calls of
    the returned function.  [redisCache(cacheKey, f, timeMs)] is made anew
    by each call (line 93), but it keeps nothing of its own: what it knows
    is in the store.  Both read one clock. *)
Record state := State {
  mem : Mem.state;
  red : Red.state;
  calls : list call
}.

(** The turns of the event loop: a call; [await useRedis] of call [i]
    giving a value or throwing ([None]); [f] settling in an executor of
    the in-process cache; an event of the shared cache other than a call
    or the passing of time; time passing. *)
Inductive event :=
| Call (args : list value)
| Resume (i : nat) (useRedis : option value)
| MemResolve (p : nat) (v : value)
| MemReject (p : nat)
| Redis (e : Red.event)
| Tick (d : N).

Definition init : state := State Mem.init Red.init [].

Section Wrapped.

Variable cacheKey : string.
Variable timeMs : Z.

(** Lines 92-93 up to [await useRedis]. *)
Definition lazyCache (args : list value) (s : state) : state :=
  State (mem s) (red s) (calls s ++ [Call_ args Deciding]).

(** Line 93 after the await: the truthiness of the value picks the
    backend, which is called with the arguments of the call. *)
Definition resume (i : nat) (useRedis : option value) (s : state) : state :=
  match calls s !! i with
  | Some (Call_ args Deciding) =>
      match useRedis with
      | Some u =>
          if truthy u then
            State (mem s) (Red.redisCache cacheKey args (red s))
                  (<[i := Call_ args (InRedis (length (Red.callers (red s))))]>
                     (calls s))
          else
            let '(m, o) := Mem.memoryCache timeMs args (mem s) in
            State m (red s) (<[i := Call_ args (InMemory o)]> (calls s))
      | None => State (mem s) (red s) (<[i := Call_ args Threw]> (calls s))
      end
  | _ => s
  end.

Definition step (s : state) (e : event) : state :=
  match e with
  | Call args => lazyCache args s
  | Resume i u => resume i u s
  | MemResolve p v => State (Mem.f_resolved p v (mem s)) (red s) (calls s)
  | MemReject p => State (Mem.f_rejected p (mem s)) (red s) (calls s)
  | Redis e' =>
      match e' with
      | Red.Call _ | Red.Tick _ => s
      | _ => State (mem s) (Red.step cacheKey timeMs (red s) e') (calls s)
      end
  | Tick d =>
      State (Mem.step timeMs (mem s) (Mem.Tick d)).1
            (Red.step cacheKey timeMs (red s) (Red.Tick d)) (calls s)
  end.

Definition run (s : state) (es : list event) : state :=
  fold_left step es s.

End Wrapped.

(** How the promise returned by the wrapped function has settled, if it
    has: it follows what the backend handed back. *)
Definition settled (s : state) (i : nat) : option Red.settlement :=
  match calls s !! i with
  | Some (Call_ _ (InMemory o)) =>
      match Mem.settled (mem s) o with
      | Some v => Some (Red.Resolves v)
      | None => None
      end
  | Some (Call_ _ (InRedis c)) => Red.settled (red s) c
  | Some (Call_ _ Threw) => Some Red.Rejects
  | _ => None
  end.

(** The backend that the event picks, if it picks one. *)
Definition selects (e : event) : option bool :=
  match e with
  | Resume _ (Some u) => Some (truthy u)
  | _ => None
  end.

(** What a call passed to a backend was handed back is filed under the
    key of its arguments. *)
Definition answers (cacheKey : string) (m : Mem.state) (r : Red.state)
    (a : call) : Prop :=
  match a_phase a with
  | InMemory (Mem.Value v) =>
      v = VUndefined
      ∨ ∃ p j, Mem.jobs m !! p = Some j
               ∧ Mem.j_key j = JSON_stringify (a_args a)
               ∧ Mem.j_f j = Mem.Fulfilled v
  | InMemory (Mem.Promise p) =>
      ∃ j, Mem.jobs m !! p = Some j
           ∧ Mem.j_key j = JSON_stringify (a_args a)
  | InRedis c =>
      ∃ y, Red.callers r !! c = Some y
           ∧ Red.c_key y = cacheKey +:+ JSON_stringify (a_args a)
  | _ => True
  end.

Definition routed (cacheKey : string) (s : state) : Prop :=
  ∀ i a, calls s !! i = Some a → answers cacheKey (mem s) (red s) a.

(** The invariants of the two backends. *)
Definition backed (cacheKey : string) (s : state) : Prop :=
  Mem.keyed (mem s) ∧ MemInv.sourced (mem s)
  ∧ Red.keyed cacheKey (red s) ∧ Red.ordered (red s)
  ∧ RedInv.wired (red s) ∧ RedInv.sourced (red s).

(** A backend that was never called. *)
Definition red_idle (r : Red.state) : Prop :=
  Red.callers r = [] ∧ Red.renewals r = [] ∧ Red.store r = ∅
  ∧ Red.locks r = ∅ ∧ Red.log r = [].

Definition mem_idle (m : Mem.state) : Prop :=
  Mem.jobs m = [] ∧ Mem.caches m = ∅.

End Lazy.

Example scenario_A :
  let '(s, os) :=
    Mem.run 1000 Mem.init
      [Mem.Call [VStr "x"]; Mem.FResolve 0 (VNum 1); Mem.Tick 100;
       Mem.Call [VStr "x"]; Mem.Tick 1000; Mem.Call [VStr "x"];
       Mem.FResolve 1 (VNum 2); Mem.Tick 100; Mem.Call [VStr "x"]] in
  map (Mem.settled s) os = [Some (VNum 1); Some (VNum 1); Some (VNum 1); Some (VNum 2)]
  ∧ length (Mem.jobs s) = 2%nat.
Proof. vm_compute. done. Qed.

Example scenario_C :
  let s := Red.run "stats" 1000 Red.init
      [Red.Call [VNum 7]; Red.GetReply 0; Red.LockGranted 0;
       Red.Tick 5; Red.FResolve 0 (VStr "v"); Red.SetReply 0] in
  Red.settled s 0 = Some (Red.Resolves (VStr "v"))
  ∧ Red.log s = [Red.Acquired 0; Red.Invoked 0; Red.Wrote 0; Red.Released 0]
  ∧ Red.store s !! "stats[7]" = Some (Red.Record_ 5 (VStr "v"))
  ∧ Red.locks s = ∅.
Proof. vm_compute. done. Qed.

(** ** Facts about [JSON.stringify] *)

Module JSONFacts.

(** Each escaped character can be read back, whatever follows it. *)
Lemma unescape_escape c t : unescape_char (escape_char c +:+ t) = Some (c, t).
Proof. destruct c as [[] [] [] [] [] [] [] []]; reflexivity. Qed.

Lemma string_app_assoc (a b c : string) : (a +:+ b) +:+ c = a +:+ (b +:+ c).
Proof. induction a as [| x a IH]; [done |]. exact (f_equal (String x) IH). Qed.

Lemma escape_delimited s s' r r' :
  escape s +:+ quote +:+ r = escape s' +:+ quote +:+ r' → s = s' ∧ r = r'.
Proof.
  revert s'. induction s as [| c s IH]; intros [| c' s'] H.
  - by injection H.
  - exfalso. cbn [escape] in H. rewrite string_app_assoc in H.
    apply (f_equal unescape_char) in H. rewrite unescape_escape in H. done.
  - exfalso. cbn [escape] in H. rewrite string_app_assoc in H.
    apply (f_equal unescape_char) in H. rewrite unescape_escape in H. done.
  - cbn [escape] in H. rewrite !string_app_assoc in H.
    apply (f_equal unescape_char) in H. rewrite !unescape_escape in H.
    injection H as -> H. by destruct (IH s' H) as [-> ->].
Qed.

Lemma all_numeric_app s t :
  all_numeric (s +:+ t) = all_numeric s && all_numeric t.
Proof.
  induction s as [| c s IH]; [done |].
  change (is_numeric c && all_numeric (s +:+ t) =
          is_numeric c && all_numeric s && all_numeric t).
  rewrite IH. by destruct (is_numeric c).
Qed.

Lemma pretty_N_char_numeric x : is_numeric (pretty_N_char x) = true.
Proof. unfold pretty_N_char. by repeat case_match. Qed.

Lemma pretty_N_go_numeric x s :
  ∃ t, pretty_N_go x s = t +:+ s ∧ all_numeric t = true ∧
       ((0 < x)%N → t ≠ EmptyString).
Proof.
  revert s. induction (N.lt_wf_0 x) as [x _ IH]; intros s.
  assert (x = 0 ∨ 0 < x)%N as [-> | Hpos] by lia.
  - exists EmptyString. rewrite pretty_N_go_0. split_and!; [done | done | lia].
  - rewrite pretty_N_go_step by done.
    destruct (IH (x `div` 10)%N (N.div_lt x 10 Hpos eq_refl)
                (String (pretty_N_char (x `mod` 10)) s)) as (t & -> & Ht & _).
    exists (t +:+ String (pretty_N_char (x `mod` 10)) EmptyString).
    split_and!.
    + by rewrite string_app_assoc.
    + rewrite all_numeric_app, Ht. simpl.
      by rewrite pretty_N_char_numeric.
    + intros _. by destruct t.
Qed.

Lemma pretty_N_numeric (x : N) :
  all_numeric (pretty x) = true ∧ pretty x ≠ EmptyString.
Proof.
  unfold pretty, pretty_N. case_decide as Hx; [done |].
  destruct (pretty_N_go_numeric x EmptyString) as (t & Ht & Hnum & Hne).
  assert (t +:+ EmptyString = t) as Hnil.
  { clear. induction t as [| c t IH]; [done |]. exact (f_equal (String c) IH). }
  rewrite Ht, Hnil. split; [done |]. apply Hne. lia.
Qed.

Lemma pretty_Z_numeric (z : Z) :
  all_numeric (pretty z) = true ∧ pretty z ≠ EmptyString.
Proof.
  destruct z as [| p | p]; [done | apply (pretty_N_numeric (Npos p)) |].
  destruct (pretty_N_numeric (Npos p)) as [Hnum _].
  unfold pretty, pretty_Z. split; [| done].
  change (all_numeric (pretty (N.pos p)) = true). done.
Qed.

Lemma numeric_delimited s1 s2 r1 r2 :
  all_numeric s1 = true → all_numeric s2 = true → stops r1 → stops r2 →
  s1 +:+ r1 = s2 +:+ r2 → s1 = s2 ∧ r1 = r2.
Proof.
  revert s2. induction s1 as [| c s1 IH]; intros [| c' s2] H1 H2 Hr1 Hr2 H.
  - done.
  - exfalso. change (r1 = String c' (s2 +:+ r2)) in H. subst r1.
    simpl in Hr1, H2. by rewrite Hr1 in H2.
  - exfalso. change (String c (s1 +:+ r1) = r2) in H. subst r2.
    simpl in Hr2, H1. by rewrite Hr2 in H1.
  - change (String c (s1 +:+ r1) = String c' (s2 +:+ r2)) in H.
    injection H as -> H. simpl in H1, H2.
    apply andb_prop in H1 as [_ H1]. apply andb_prop in H2 as [_ H2].
    by destruct (IH s2 H1 H2 Hr1 Hr2 H) as [-> ->].
Qed.

Lemma head_kind_numeric c s :
  is_numeric c = true → head_kind (String c s) = Some 3%nat.
Proof. destruct c as [[] [] [] [] [] [] [] []]; done. Qed.

Lemma number_text_safe n : safe n = true → number_text n = pretty n.
Proof. intros H. unfold number_text. by rewrite H. Qed.

(** On the plain values reading back undoes writing. *)
Lemma parsed_plain v : plain v = true → parsed v = v.
Proof.
  destruct v as [| | b | n | s | b t w]; try done.
  simpl. intros Hn. unfold safe in Hn. apply Z.ltb_lt in Hn.
  unfold round_double.
  assert (Z.log2 (Z.abs n) - 52 ≤ 0) as Hs.
  { destruct (decide (Z.abs n = 0)) as [-> | Hne]; [done |].
    assert (Z.log2 (Z.abs n) < 53); [| lia].
    apply Z.log2_lt_pow2; lia. }
  by rewrite (proj2 (Z.leb_le _ _) Hs).
Qed.

Lemma head_kind_element v r :
  plain v = true →
  head_kind (stringify_element v +:+ r) = Some (kind v).
Proof.
  destruct v as [| | [] | n | s | b t w]; try done.
  simpl. intros Hn. rewrite (number_text_safe n Hn).
  destruct (pretty_Z_numeric n) as [Hnum Hne].
  destruct (pretty n) as [| c t]; [done |].
  simpl in Hnum. apply andb_prop in Hnum as [Hc _].
  by apply head_kind_numeric.
Qed.

Lemma delimits_stops r : delimits r → stops r.
Proof. destruct r as [| c t]; [done |]. by intros [-> | ->]. Qed.

Lemma delimits_head_kind r : delimits r → head_kind r = None.
Proof. destruct r as [| c t]; [done |]. by intros [-> | ->]. Qed.

Lemma element_delimited a b r r' :
  plain a = true → plain b = true →
  delimits r → delimits r' →
  stringify_element a +:+ r = stringify_element b +:+ r' →
  normalize a = normalize b ∧ r = r'.
Proof.
  intros Ha Hb Hr Hr' H.
  assert (kind a = kind b) as Hk.
  { apply (f_equal head_kind) in H. rewrite !head_kind_element in H by done.
    by injection H. }
  destruct a as [| | [] | n | s | ? ? ?], b as [| | [] | m | s' | ? ? ?];
    try discriminate Hk; try discriminate Ha; simpl in H.
  1-6: by apply (inj (String.append _)) in H.
  - simpl in Ha, Hb. rewrite (number_text_safe n Ha), (number_text_safe m Hb) in H.
    destruct (pretty_Z_numeric n) as [Hn _].
    destruct (pretty_Z_numeric m) as [Hm _].
    destruct (numeric_delimited _ _ _ _ Hn Hm
                (delimits_stops r Hr) (delimits_stops r' Hr') H) as [Heq ->].
    by apply (inj pretty) in Heq as ->.
  - rewrite !string_app_assoc in H. apply (inj (String.append _)) in H.
    by destruct (escape_delimited _ _ _ _ H) as [-> ->].
Qed.

Lemma concat_items l r :
  String.concat "," (map stringify_element l) +:+ r = items l r.
Proof.
  induction l as [| x xs IH]; [done |].
  destruct xs as [| y ys]; [done |].
  change (String.concat "," (map stringify_element (x :: y :: ys)))
    with (stringify_element x +:+ "," +:+
          String.concat "," (map stringify_element (y :: ys))).
  rewrite !string_app_assoc, IH. done.
Qed.

Lemma items_delimited l l' t t' :
  all_plain l = true → all_plain l' = true →
  items l (String "]" t) = items l' (String "]" t') →
  map normalize l = map normalize l' ∧ t = t'.
Proof.
  revert l'. induction l as [| x xs IH]; intros [| y ys] Hl Hl' H.
  - by injection H.
  - exfalso. simpl in H, Hl'. apply andb_prop in Hl' as [Hy _].
    apply (f_equal head_kind) in H.
    by rewrite head_kind_element in H.
  - exfalso. simpl in H, Hl. apply andb_prop in Hl as [Hx _].
    apply (f_equal head_kind) in H.
    by rewrite head_kind_element in H.
  - simpl in Hl, Hl'. apply andb_prop in Hl as [Hx Hxs].
    apply andb_prop in Hl' as [Hy Hys].
    simpl in H. apply element_delimited in H as [Hxy H]; [| done | done | |].
    + destruct xs as [| z zs], ys as [| w ws]; try discriminate H.
      * injection H as ->. simpl. by rewrite Hxy.
      * injection H as H. destruct (IH (w :: ws) Hxs Hys H) as [Hl ->].
        split; [| done]. simpl in *. by rewrite Hxy, Hl.
    + destruct xs; simpl; auto.
    + destruct ys; simpl; auto.
Qed.

Lemma stringify_element_normalize v :
  stringify_element (normalize v) = stringify_element v.
Proof. by destruct v. Qed.

Lemma JSON_stringify_normalize l :
  JSON_stringify (map normalize l) = JSON_stringify l.
Proof.
  unfold JSON_stringify. rewrite List.map_map.
  by rewrite (List.map_ext _ _ stringify_element_normalize).
Qed.

(** Two lists of plain arguments have the same serialization exactly
    when they are equal up to [undefined] written for [null]. *)
Lemma JSON_stringify_inj l l' :
  all_plain l = true → all_plain l' = true →
  JSON_stringify l = JSON_stringify l' ↔ map normalize l = map normalize l'.
Proof.
  intros Hl Hl'. split.
  - unfold JSON_stringify. intros H. apply (inj (String.append _)) in H.
    rewrite !concat_items in H. by apply items_delimited in H as [? _].
  - intros H. by rewrite <- (JSON_stringify_normalize l), H, JSON_stringify_normalize.
Qed.

End JSONFacts.

(** ** Facts about the in-process backend *)

Module MemFacts.
Import Mem.

Section Facts.

Variable timeMs : Z.

Implicit Types (s : state) (e : event) (c : entry) (j : job) (p : nat).

Lemma init_marked : marked init.
Proof. intros p j H. simpl in H. by rewrite lookup_nil in H. Qed.

Lemma renew_marked key args c s :
  marked s →
  (∀ c', caches s !! key = Some c' → e_promise c' = None) →
  marked (renew key args c s).1.
Proof.
  intros Hm Hfree p j Hp Hrun. simpl in *.
  apply lookup_app_Some in Hp as [Hp | [Hge Hp]].
  - destruct (Hm p j Hp Hrun) as (c' & Hc' & Hpc').
    destruct (decide (key = j_key j)) as [-> | Hne].
    + rewrite (Hfree c' Hc') in Hpc'. discriminate.
    + exists c'. by rewrite lookup_insert_ne.
  - apply list_lookup_singleton_Some in Hp as [Hz <-]. simpl.
    rewrite lookup_insert_eq. eexists; split; [done |]. simpl.
    f_equal. lia.
Qed.

Lemma call_marked args s : marked s → marked (memoryCache timeMs args s).1.
Proof.
  intros Hm. unfold memoryCache.
  destruct (caches s !! JSON_stringify args) as [c |] eqn:Hc.
  - destruct (negb (isExpired (now s) (e_at c) timeMs)); [done |].
    destruct (e_promise c) as [q |] eqn:Hq; [done |].
    apply renew_marked; [done |]. intros c' Hc'. congruence.
  - apply renew_marked; [done |]. intros c' Hc'. congruence.
Qed.

Lemma f_resolved_marked q v s : marked s → marked (f_resolved q v s).
Proof.
  intros Hm. unfold f_resolved.
  destruct (jobs s !! q) as [jq |] eqn:Hjq; [| done].
  destruct (j_f jq) eqn:Hf; try done.
  intros p j Hp Hrun. simpl in *.
  destruct (decide (p = q)) as [-> | Hne].
  - rewrite list_lookup_insert_eq in Hp by (by eapply lookup_lt_Some).
    by simplify_eq.
  - rewrite list_lookup_insert_ne in Hp by done.
    destruct (Hm p j Hp Hrun) as (c' & Hc' & Hpc').
    destruct (decide (j_key jq = j_key j)) as [Hk | Hk].
    + destruct (Hm q jq Hjq Hf) as (c'' & Hc'' & Hpc'').
      rewrite Hk in Hc''. congruence.
    + exists c'. by rewrite lookup_insert_ne.
Qed.

Lemma f_rejected_marked q s : marked s → marked (f_rejected q s).
Proof.
  intros Hm. unfold f_rejected.
  destruct (jobs s !! q) as [jq |] eqn:Hjq; [| done].
  destruct (j_f jq) eqn:Hf; try done.
  intros p j Hp Hrun. simpl in *.
  destruct (decide (p = q)) as [-> | Hne].
  - rewrite list_lookup_insert_eq in Hp by (by eapply lookup_lt_Some).
    by simplify_eq.
  - rewrite list_lookup_insert_ne in Hp by done. by apply Hm.
Qed.

Lemma step_marked s e : marked s → marked (step timeMs s e).1.
Proof.
  intros Hm. destruct e as [args | q v | q | d]; simpl.
  - pose proof (call_marked args s Hm). by destruct (memoryCache timeMs args s).
  - by apply f_resolved_marked.
  - by apply f_rejected_marked.
  - done.
Qed.

Lemma step_call s args : (step timeMs s (Call args)).1 = (memoryCache timeMs args s).1.
Proof. simpl. by destruct (memoryCache timeMs args s). Qed.

Lemma run_cons s e es :
  run timeMs s (e :: es) =
  let '(s', o) := step timeMs s e in
  let '(s'', os) := run timeMs s' es in
  (s'', match o with Some x => x :: os | None => os end).
Proof. done. Qed.

Lemma run_cons_state s e es :
  (run timeMs s (e :: es)).1 = (run timeMs (step timeMs s e).1 es).1.
Proof.
  rewrite run_cons. destruct (step timeMs s e) as [s' o]. simpl.
  by destruct (run timeMs s' es).
Qed.

Lemma run_app_state s es1 es2 :
  (run timeMs s (es1 ++ es2)).1 = (run timeMs (run timeMs s es1).1 es2).1.
Proof.
  revert s. induction es1 as [| e es1 IH]; intros s; [done |].
  rewrite <- app_comm_cons, !run_cons_state. apply IH.
Qed.

Lemma run_marked s es : marked s → marked (run timeMs s es).1.
Proof.
  revert s. induction es as [| e es IH]; intros s Hm; [done |].
  rewrite run_cons_state. apply IH. by apply step_marked.
Qed.

(** A state reached from the initial one is marked. *)
Lemma reachable_marked s : reachable_from timeMs init s → marked s.
Proof. intros [es ->]. apply run_marked, init_marked. Qed.

(** *** An entry whose [promise] field is set *)

(** While [cached.promise] is set, a call for the key starts nothing: it
    returns the stored value, or the promise when that value is falsy and
    the entry has expired. *)
Lemma held_call s key c p j args :
  held_by s key c p j → JSON_stringify args = key →
  memoryCache timeMs args s =
    (s, if negb (isExpired (now s) (e_at c) timeMs) then Value (e_value c)
        else if truthy (e_value c) then Value (e_value c) else Promise p).
Proof.
  intros (Hc & Hp & _ & _) <-. unfold memoryCache. rewrite Hc, Hp.
  by destruct (negb (isExpired (now s) (e_at c) timeMs)).
Qed.

Lemma call_other_key s key args :
  JSON_stringify args ≠ key →
  caches (memoryCache timeMs args s).1 !! key = caches s !! key.
Proof.
  intros Hne. unfold memoryCache.
  destruct (caches s !! JSON_stringify args) as [c |] eqn:Hc.
  - destruct (negb (isExpired (now s) (e_at c) timeMs)); [done |].
    destruct (e_promise c); [done |]. simpl. by rewrite lookup_insert_ne.
  - simpl. by rewrite lookup_insert_ne.
Qed.

(** A call leaves the executors it found as they were, and adds at most
    one, for its own key. *)
Lemma call_jobs s args :
  jobs (memoryCache timeMs args s).1 = jobs s ∨
  ∃ j, jobs (memoryCache timeMs args s).1 = jobs s ++ [j] ∧
       j_key j = JSON_stringify args ∧ j_args j = args ∧ j_f j = Running.
Proof.
  unfold memoryCache.
  destruct (caches s !! JSON_stringify args) as [c |] eqn:Hc.
  - destruct (negb (isExpired (now s) (e_at c) timeMs)); [by left |].
    destruct (e_promise c); [by left |]. right. by eexists.
  - right. by eexists.
Qed.

Lemma call_lookup_job s args p j :
  jobs s !! p = Some j → jobs (memoryCache timeMs args s).1 !! p = Some j.
Proof.
  intros Hp. destruct (call_jobs s args) as [-> | (j' & -> & _)]; [done |].
  by apply lookup_app_l_Some.
Qed.

(** The entry and its executor stay as they are under every event but the
    settling of that executor's own [f]. *)
Lemma held_step s key c p j e :
  marked s → held_by s key c p j →
  held_by (step timeMs s e).1 key c p j ∨
  (j_f j = Running ∧ ((∃ v, e = FResolve p v) ∨ e = FReject p)).
Proof.
  intros Hm Hh. pose proof Hh as (Hc & Hp & Hj & Hk).
  destruct e as [args | q v | q | d]; simpl.
  - left. destruct (decide (JSON_stringify args = key)) as [Heq | Hne].
    + by rewrite (held_call s key c p j args Hh Heq).
    + pose proof (call_other_key s key args Hne) as Hck.
      pose proof (call_lookup_job s args p j Hj) as Hcj.
      destruct (memoryCache timeMs args s) as [s' o]. simpl in *.
      split_and!; congruence.
  - unfold f_resolved.
    destruct (jobs s !! q) as [jq |] eqn:Hjq; [| by left].
    destruct (j_f jq) eqn:Hf; try by left.
    destruct (decide (q = p)) as [-> | Hne].
    + right. simplify_eq. eauto.
    + left. destruct (Hm q jq Hjq Hf) as (c' & Hc' & Hpc').
      assert (j_key jq ≠ key) by (intros Heq; rewrite Heq in Hc'; congruence).
      split_and!; simpl; try done.
      * by rewrite lookup_insert_ne.
      * by rewrite list_lookup_insert_ne.
  - unfold f_rejected.
    destruct (jobs s !! q) as [jq |] eqn:Hjq; [| by left].
    destruct (j_f jq) eqn:Hf; try by left.
    destruct (decide (q = p)) as [-> | Hne].
    + right. simplify_eq. eauto.
    + left. split_and!; simpl; try done.
      by rewrite list_lookup_insert_ne.
  - by left.
Qed.

(** An executor whose [f] has settled is never touched again. *)
Lemma settled_job_step s e p j :
  jobs s !! p = Some j → j_f j ≠ Running →
  jobs (step timeMs s e).1 !! p = Some j.
Proof.
  intros Hj Hf. destruct e as [args | q v | q | d]; simpl.
  - pose proof (call_lookup_job s args p j Hj).
    by destruct (memoryCache timeMs args s).
  - unfold f_resolved.
    destruct (jobs s !! q) as [jq |] eqn:Hjq; [| done].
    destruct (j_f jq) eqn:Hfq; try done. simpl.
    rewrite list_lookup_insert_ne; [done |]. intros ->. congruence.
  - unfold f_rejected.
    destruct (jobs s !! q) as [jq |] eqn:Hjq; [| done].
    destruct (j_f jq) eqn:Hfq; try done. simpl.
    rewrite list_lookup_insert_ne; [done |]. intros ->. congruence.
  - done.
Qed.

Lemma settled_job_run s es p j :
  jobs s !! p = Some j → j_f j ≠ Running →
  jobs (run timeMs s es).1 !! p = Some j.
Proof.
  revert s. induction es as [| e es IH]; intros s Hj Hf; [done |].
  rewrite run_cons_state. apply IH; [| done]. by apply settled_job_step.
Qed.

(** Settling [f] changes the executor as lines 31-36 say. *)
Lemma settle_job_step s e p j :
  jobs s !! p = Some j → j_f j = Running →
  ((∃ v, e = FResolve p v) ∨ e = FReject p) →
  ∃ j', jobs (step timeMs s e).1 !! p = Some j' ∧ j_f j' ≠ Running.
Proof.
  intros Hj Hf [[v ->] | ->]; simpl.
  - unfold f_resolved. rewrite Hj, Hf. simpl.
    rewrite list_lookup_insert_eq by (by eapply lookup_lt_Some).
    by eexists.
  - unfold f_rejected. rewrite Hj, Hf. simpl.
    rewrite list_lookup_insert_eq by (by eapply lookup_lt_Some).
    by eexists.
Qed.

(** While the field is set, [f] is not called for the key. *)
Lemma held_no_new_job_step s key c p j e n :
  held_by s key c p j → no_new_job s key n →
  no_new_job (step timeMs s e).1 key n.
Proof.
  intros Hh Hn q jq Hq Hle. destruct e as [args | q' v | q' | d];
    [rewrite step_call in Hq | simpl in Hq ..].
  - destruct (decide (JSON_stringify args = key)) as [Heq | Hne].
    + rewrite (held_call s key c p j args Hh Heq) in Hq. by eapply Hn.
    + destruct (call_jobs s args) as [Hsame | (j' & Happ & Hk' & _)].
      * rewrite Hsame in Hq. by eapply Hn.
      * rewrite Happ in Hq.
        apply lookup_app_Some in Hq as [Hq | [_ Hq]]; [by eapply Hn |].
        apply list_lookup_singleton_Some in Hq as [_ <-]. congruence.
  - unfold f_resolved in Hq.
    destruct (jobs s !! q') as [jq' |] eqn:Hjq; [| by eapply Hn].
    destruct (j_f jq') eqn:Hfq; try by eapply Hn. simpl in Hq.
    destruct (decide (q = q')) as [-> | Hne].
    + rewrite list_lookup_insert_eq in Hq by (by eapply lookup_lt_Some).
      simplify_eq. simpl. by eapply Hn.
    + rewrite list_lookup_insert_ne in Hq by done. by eapply Hn.
  - unfold f_rejected in Hq.
    destruct (jobs s !! q') as [jq' |] eqn:Hjq; [| by eapply Hn].
    destruct (j_f jq') eqn:Hfq; try by eapply Hn. simpl in Hq.
    destruct (decide (q = q')) as [-> | Hne].
    + rewrite list_lookup_insert_eq in Hq by (by eapply lookup_lt_Some).
      simplify_eq. simpl. by eapply Hn.
    + rewrite list_lookup_insert_ne in Hq by done. by eapply Hn.
  - by eapply Hn.
Qed.

(** If the executor is still suspended after a run, the entry and the
    executor are as they were before it, and [f] was not called for the
    key during the run. *)
Lemma held_run_running s key c p j es n :
  marked s → held_by s key c p j → no_new_job s key n →
  (∃ j', jobs (run timeMs s es).1 !! p = Some j' ∧ j_f j' = Running) →
  held_by (run timeMs s es).1 key c p j ∧ no_new_job (run timeMs s es).1 key n.
Proof.
  revert s. induction es as [| e es IH]; intros s Hm Hh Hn Hrun; [done |].
  rewrite run_cons_state in *.
  destruct (held_step s key c p j e Hm Hh) as [Hh' | [Hf He]].
  - apply IH; [by apply step_marked | done | | done].
    by eapply held_no_new_job_step.
  - exfalso. destruct Hh as (_ & _ & Hj & _).
    destruct (settle_job_step s e p j Hj Hf He) as (j' & Hj' & Hf').
    destruct Hrun as (j'' & Hj'' & Hf'').
    rewrite (settled_job_run _ es p j' Hj' Hf') in Hj''. congruence.
Qed.

(** Once the executor's [f] has settled without clearing the field, the
    entry stays as it is and [f] is not called for the key again. *)
Lemma held_run_settled s key c p j es n :
  marked s → held_by s key c p j → j_f j ≠ Running →
  no_new_job s key n →
  held_by (run timeMs s es).1 key c p j ∧ no_new_job (run timeMs s es).1 key n.
Proof.
  revert s. induction es as [| e es IH]; intros s Hm Hh Hf Hn; [done |].
  rewrite run_cons_state.
  destruct (held_step s key c p j e Hm Hh) as [Hh' | [Hf' _]]; [| done].
  apply IH; [by apply step_marked | done | done |].
  by eapply held_no_new_job_step.
Qed.

(** *** Starting a computation *)

(** Lines 28-37 on an entry whose [promise] field is not set. *)
Lemma renew_held key args c s :
  let p := length (jobs s) in
  let j := Job key args (now s) (truthy (e_value c)) Running
             (if truthy (e_value c) then Resolved (e_value c) else Pending) in
  held_by (renew key args c s).1 key
          (Entry (e_at c) (Some p) (e_value c)) p j
  ∧ no_new_job (renew key args c s).1 key (S p)
  ∧ (renew key args c s).2 = Promise p.
Proof.
  intros p j. split_and!; [split_and! | |]; simpl; try done.
  - by rewrite lookup_insert_eq.
  - by apply list_lookup_middle.
  - intros q jq Hq Hle. apply lookup_lt_Some in Hq. simpl in Hq.
    rewrite length_app in Hq. simpl in Hq. subst p. lia.
Qed.

(** [await f(...args)] throws in a suspended executor: the entry keeps
    its [promise] field. *)
Lemma f_rejected_held s key c p j n :
  held_by s key c p j → j_f j = Running → no_new_job s key n →
  held_by (f_rejected p s) key c p
          (Job (j_key j) (j_args j) (j_at j) (j_hasOldCache j) Failed (j_promise j))
  ∧ no_new_job (f_rejected p s) key n.
Proof.
  intros (Hc & Hp & Hj & Hk) Hf Hn. unfold f_rejected. rewrite Hj, Hf.
  split; [split_and!; simpl; try done |].
  - apply list_lookup_insert_eq. by eapply lookup_lt_Some.
  - intros q jq Hq Hle. simpl in Hq.
    destruct (decide (q = p)) as [-> | Hne].
    + rewrite list_lookup_insert_eq in Hq by (by eapply lookup_lt_Some).
      simplify_eq. simpl. by eapply Hn.
    + rewrite list_lookup_insert_ne in Hq by done. by eapply Hn.
Qed.

(** The whole course of a computation that fails: the call that starts
    it on an entry [c] with no [promise] (or on no entry), any events while
    [f] runs, the failure, and any events after it. *)
Lemma failed_computation s0 args c es1 es2 :
  let key := JSON_stringify args in
  let p := length (jobs s0) in
  let s1 := (run timeMs (renew key args c s0).1 es1).1 in
  let s3 := (run timeMs (f_rejected p s1) es2).1 in
  marked s0 →
  (∀ c', caches s0 !! key = Some c' → e_promise c' = None) →
  (∃ j, jobs s1 !! p = Some j ∧ j_f j = Running) →
  held_by s3 key (Entry (e_at c) (Some p) (e_value c)) p
    (Job key args (now s0) (truthy (e_value c)) Failed
       (if truthy (e_value c) then Resolved (e_value c) else Pending))
  ∧ no_new_job s3 key (S p).
Proof.
  intros key p s1 s3 Hm Hfree Hrun.
  destruct (renew_held key args c s0) as (Hh & Hn & _).
  pose proof (renew_marked key args c s0 Hm Hfree) as Hm1.
  destruct (held_run_running _ _ _ _ _ es1 _ Hm1 Hh Hn Hrun) as [Hh1 Hn1].
  destruct (f_rejected_held _ _ _ _ _ _ Hh1 eq_refl Hn1) as [Hh2 Hn2].
  simpl in Hh2.
  apply (held_run_settled _ _ _ _ _ es2 _); try done.
  apply f_rejected_marked. by apply run_marked.
Qed.

(** *** Calls on a cold key and on a stale entry *)

Lemma call_cold s args :
  caches s !! JSON_stringify args = None →
  memoryCache timeMs args s = renew (JSON_stringify args) args (Entry None None VUndefined) s.
Proof. intros H. unfold memoryCache. by rewrite H. Qed.

Lemma call_stale s args c a :
  caches s !! JSON_stringify args = Some c →
  e_at c = Some a → e_promise c = None → timeMs < now s - a →
  memoryCache timeMs args s = renew (JSON_stringify args) args c s.
Proof.
  intros Hc Ha Hp Hlt. unfold memoryCache. rewrite Hc, Ha, Hp. simpl.
  by rewrite (proj2 (Z.ltb_lt _ _) Hlt).
Qed.

Lemma call_fresh s args c a :
  caches s !! JSON_stringify args = Some c →
  e_at c = Some a → now s - a ≤ timeMs →
  memoryCache timeMs args s = (s, Value (e_value c)).
Proof.
  intros Hc Ha Hle. unfold memoryCache. rewrite Hc, Ha. simpl.
  by rewrite (proj2 (Z.ltb_ge _ _) Hle).
Qed.

(** While the first computation for a key is in flight the entry has no
    [at]: it does not count as expired, and a call returns its [value],
    which is [undefined]. *)
Lemma call_cold_in_flight s args p j :
  held_by s (JSON_stringify args) (Entry None (Some p) VUndefined) p j →
  memoryCache timeMs args s = (s, Value VUndefined).
Proof. intros Hh. by rewrite (held_call s _ _ p j args Hh eq_refl). Qed.

Lemma run_calls_cold_in_flight s args p j n :
  held_by s (JSON_stringify args) (Entry None (Some p) VUndefined) p j →
  run timeMs s (replicate n (Call args)) = (s, replicate n (Value VUndefined)).
Proof.
  intros Hh. induction n as [| n IH]; [done |]. simpl.
  rewrite (call_cold_in_flight s args p j Hh). simpl. by rewrite IH.
Qed.

Lemma run_app s es1 es2 :
  run timeMs s (es1 ++ es2) =
  let '(s1, os1) := run timeMs s es1 in
  let '(s2, os2) := run timeMs s1 es2 in
  (s2, os1 ++ os2).
Proof.
  revert s. induction es1 as [| e es1 IH]; intros s.
  - simpl. by destruct (run timeMs s es2).
  - rewrite <- app_comm_cons, !run_cons.
    destruct (step timeMs s e) as [s' o]. rewrite IH.
    destruct (run timeMs s' es1) as [s1 os1].
    destruct (run timeMs s1 es2) as [s2 os2]. by destruct o.
Qed.

(** *** At most one computation in flight for a key *)

Lemma filter_none {A} (f : A → bool) (l : list A) :
  (∀ (i : nat) a, l !! i = Some a → f a = false) → List.filter f l = [].
Proof.
  induction l as [| x l IH]; intros Hnone; [done |]. simpl.
  rewrite (Hnone 0%nat x eq_refl). apply IH.
  intros i a Hi. by apply (Hnone (S i)).
Qed.

Lemma filter_at_most_one {A} (f : A → bool) (l : list A) :
  (∀ (i k : nat) a b, l !! i = Some a → l !! k = Some b →
     f a = true → f b = true → i = k) →
  (length (List.filter f l) ≤ 1)%nat.
Proof.
  induction l as [| x l IH]; intros Huniq; [simpl; lia |]. simpl.
  destruct (f x) eqn:Hx.
  - rewrite filter_none; [simpl; lia |]. intros i y Hi.
    destruct (f y) eqn:Hfy; [| done].
    by specialize (Huniq 0%nat (S i) x y eq_refl Hi Hx Hfy).
  - apply IH. intros i k a b Hi Hk Ha Hb.
    by specialize (Huniq (S i) (S k) a b Hi Hk Ha Hb) as [= ->].
Qed.

Lemma running_for_spec key j :
  running_for key j = true ↔ j_key j = key ∧ j_f j = Running.
Proof.
  unfold running_for. destruct (j_f j).
  - rewrite bool_decide_eq_true. tauto.
  - split; [done | by intros [_ ?]].
  - split; [done | by intros [_ ?]].
Qed.

Lemma marked_in_flight s key :
  marked s → (length (in_flight s key) ≤ 1)%nat.
Proof.
  intros Hm. apply filter_at_most_one. intros i k a b Hi Hk Ha Hb.
  apply running_for_spec in Ha as [Hka Hfa].
  apply running_for_spec in Hb as [Hkb Hfb].
  destruct (Hm i a Hi Hfa) as (c & Hc & Hpc).
  destruct (Hm k b Hk Hfb) as (c' & Hc' & Hpc').
  rewrite Hka in Hc. rewrite Hkb in Hc'. congruence.
Qed.

Lemma marked_in_flight_call s args :
  marked s → in_flight s (JSON_stringify args) ≠ [] →
  ∃ o, memoryCache timeMs args s = (s, o).
Proof.
  intros Hm Hne.
  destruct (in_flight s (JSON_stringify args)) as [| j l] eqn:Hfl; [done |].
  assert (In j (in_flight s (JSON_stringify args))) as Hin
    by (rewrite Hfl; by left).
  apply List.filter_In in Hin as [Hin Hrun].
  apply running_for_spec in Hrun as [Hk Hf].
  apply list_elem_of_In, list_elem_of_lookup in Hin as [p Hp].
  destruct (Hm p j Hp Hf) as (c & Hc & Hpc).
  eexists. apply (held_call s (JSON_stringify args) c p j args); [| done].
  rewrite Hk in Hc. by split_and!.
Qed.

(** *** Keys *)

Lemma step_keyed s e : keyed s → keyed (step timeMs s e).1.
Proof.
  intros [Hj Hc]. destruct e as [args | q v | q | d];
    [rewrite step_call | simpl ..].
  - split.
    + intros p j Hp.
      destruct (call_jobs s args) as [Hsame | (j' & Happ & Hk & Ha & _)].
      * rewrite Hsame in Hp. by eapply Hj.
      * rewrite Happ in Hp.
        apply lookup_app_Some in Hp as [Hp | [_ Hp]]; [by eapply Hj |].
        apply list_lookup_singleton_Some in Hp as [_ <-]. congruence.
    + intros k c Hk.
      destruct (decide (JSON_stringify args = k)) as [<- | Hne]; [by eexists |].
      rewrite (call_other_key s k args Hne) in Hk. by eapply Hc.
  - unfold f_resolved.
    destruct (jobs s !! q) as [jq |] eqn:Hjq; [| done].
    destruct (j_f jq) eqn:Hf; try done. split; simpl.
    + intros p j Hp. destruct (decide (p = q)) as [-> | Hne].
      * rewrite list_lookup_insert_eq in Hp by (by eapply lookup_lt_Some).
        simplify_eq. simpl. by eapply Hj.
      * rewrite list_lookup_insert_ne in Hp by done. by eapply Hj.
    + intros k c Hk. destruct (decide (j_key jq = k)) as [<- | Hne].
      * exists (j_args jq). by eapply Hj.
      * rewrite lookup_insert_ne in Hk by done. by eapply Hc.
  - unfold f_rejected.
    destruct (jobs s !! q) as [jq |] eqn:Hjq; [| done].
    destruct (j_f jq) eqn:Hf; try done. split; simpl; [| done].
    intros p j Hp. destruct (decide (p = q)) as [-> | Hne].
    + rewrite list_lookup_insert_eq in Hp by (by eapply lookup_lt_Some).
      simplify_eq. simpl. by eapply Hj.
    + rewrite list_lookup_insert_ne in Hp by done. by eapply Hj.
  - done.
Qed.

Lemma run_keyed s es : keyed s → keyed (run timeMs s es).1.
Proof.
  revert s. induction es as [| e es IH]; intros s Hk; [done |].
  rewrite run_cons_state. apply IH. by apply step_keyed.
Qed.

Lemma init_keyed : keyed init.
Proof. split; intros ? ? H; simpl in H; by rewrite ?lookup_nil in H. Qed.

End Facts.

End MemFacts.

(** ** Facts about the shared backend *)

Module RedFacts.
Import Red.

Section Facts.

(** A step on a renewal or on a caller acts only in the phase that awaits
    its event; in every other case the state is left as it is. *)
Ltac on_renewal r H :=
  destruct (renewals _ !! r) as [[key args ph] |] eqn:H; [| done];
  destruct ph; try done.

Ltac on_caller c H :=
  destruct (callers _ !! c) as [[key args ph] |] eqn:H; [| done];
  destruct ph; try done.


Variable cacheKey : string.
Variable timeMs : Z.

Implicit Types (s : state) (x : renewal) (r c : nat).

Lemma red_run_cons s e es :
  run cacheKey timeMs s (e :: es) = run cacheKey timeMs (step cacheKey timeMs s e) es.
Proof. done. Qed.

Lemma red_run_app s es1 es2 :
  run cacheKey timeMs s (es1 ++ es2) =
  run cacheKey timeMs (run cacheKey timeMs s es1) es2.
Proof. apply fold_left_app. Qed.

(** An invariant of the steps holds in every state reached. *)
Lemma run_invariant (P : state → Prop) :
  (∀ s e, P s → P (step cacheKey timeMs s e)) →
  ∀ es s, P s → P (run cacheKey timeMs s es).
Proof.
  intros Hstep es. induction es as [| e es IH]; intros s Hs; [done |].
  rewrite red_run_cons. by apply IH, Hstep.
Qed.

(** *** What each step does to the renewals *)

Lemma set_caller_fields c ph s :
  store (set_caller c ph s) = store s ∧ locks (set_caller c ph s) = locks s ∧
  renewals (set_caller c ph s) = renewals s ∧ now (set_caller c ph s) = now s ∧
  log (set_caller c ph s) = log s.
Proof. unfold set_caller. by destruct (callers s !! c). Qed.

Lemma set_renewal_fields r ph s :
  store (set_renewal r ph s) = store s ∧ locks (set_renewal r ph s) = locks s ∧
  callers (set_renewal r ph s) = callers s ∧ now (set_renewal r ph s) = now s ∧
  log (set_renewal r ph s) = log s.
Proof. unfold set_renewal. by destruct (renewals s !! r). Qed.

Lemma set_renewal_lookup r ph s x :
  renewals s !! r = Some x →
  renewals (set_renewal r ph s) = <[r := Renewal (r_key x) (r_args x) ph]> (renewals s).
Proof. intros H. unfold set_renewal. by rewrite H. Qed.

(** *** The lock discipline *)

Lemma leased_ext s s' :
  renewals s' = renewals s → locks s' = locks s → now s' = now s →
  leased s → leased s'.
Proof. intros Hr Hl Hn H r x e. rewrite Hr, Hl, Hn. apply H. Qed.

Lemma leased_set_caller c ph s : leased s → leased (set_caller c ph s).
Proof.
  destruct (set_caller_fields c ph s) as (_ & ? & ? & ? & _).
  by apply leased_ext.
Qed.

Lemma leased_renewRedisCache key args s : leased s → leased (renewRedisCache key args s).
Proof.
  intros H r x e Hr Hc Hlt. simpl in *.
  apply lookup_app_Some in Hr as [Hr | [_ Hr]]; [by eapply H |].
  apply list_lookup_singleton_Some in Hr as [_ <-]. discriminate.
Qed.

(** A renewal that leaves its critical section without touching the
    locks. *)
Lemma leased_set_renewal r ph s :
  leased s →
  (∀ x e, renewals s !! r = Some x →
     critical (Renewal (r_key x) (r_args x) ph) = Some e → critical x = Some e) →
  leased (set_renewal r ph s).
Proof.
  intros H Hph r' x' e Hr' Hc Hlt.
  destruct (set_renewal_fields r ph s) as (_ & Hl & _ & Hn & _).
  rewrite Hl. rewrite Hn in Hlt.
  destruct (renewals s !! r) as [x |] eqn:Hr.
  - rewrite (set_renewal_lookup r ph s x Hr) in Hr'.
    destruct (decide (r' = r)) as [-> | Hne].
    + rewrite list_lookup_insert_eq in Hr' by (by eapply lookup_lt_Some).
      simplify_eq. simpl. apply (H r x e Hr); [| done]. by apply Hph.
    + rewrite list_lookup_insert_ne in Hr' by done. by eapply H.
  - unfold set_renewal in Hr'. rewrite Hr in Hr'. by eapply H.
Qed.

Lemma leased_lock_granted r s : leased s → leased (lock_granted r s).
Proof.
  intros H. unfold lock_granted.
  on_renewal r Hr.
  destruct (lock_free (now s) (locks s) (lock_name key)) eqn:Hfree; [| done].
  intros r' x' e Hr' Hc Hlt. simpl in *. unfold acquire.
  destruct (decide (r' = r)) as [-> | Hne].
  - rewrite list_lookup_insert_eq in Hr' by (by eapply lookup_lt_Some).
    injection Hr' as <-. injection Hc as <-. simpl.
    by rewrite lookup_insert_eq.
  - rewrite list_lookup_insert_ne in Hr' by done.
    pose proof (H r' x' e Hr' Hc Hlt) as Hheld.
    destruct (decide (lock_name key = lock_name (r_key x'))) as [Heq | Hk].
    + exfalso. unfold lock_free in Hfree. rewrite Heq, Hheld in Hfree.
      simpl in Hfree. lia.
    + by rewrite lookup_insert_ne.
Qed.

Lemma leased_set_reply r s : leased s → leased (set_reply r s).
Proof.
  intros H. unfold set_reply.
  on_renewal r Hr.
  intros r' x' e Hr' Hc Hlt. simpl in *.
  destruct (decide (r' = r)) as [-> | Hne].
  - rewrite list_lookup_insert_eq in Hr' by (by eapply lookup_lt_Some).
    by simplify_eq.
  - rewrite list_lookup_insert_ne in Hr' by done.
    pose proof (H r' x' e Hr' Hc Hlt) as Hheld. unfold release.
    destruct (decide (lock_name key = lock_name (r_key x'))) as [Heq | Hk].
    + rewrite Heq, Hheld. simpl. by rewrite decide_False.
    + destruct (locks s !! lock_name key) as [l |]; [| done].
      destruct (decide (l_holder l = r)); [| done].
      by rewrite lookup_delete_ne.
Qed.

Lemma step_leased s e : leased s → leased (step cacheKey timeMs s e).
Proof.
  intros H. destruct e as [args | c | c | r | r | r v | r | r | r | d]; simpl.
  - by apply (leased_ext s).
  - unfold get_reply.
    on_caller c Hlook.
    destruct (store s !! key) as [cached |].
    + apply leased_set_caller.
      destruct (isExpired _ _ _); [by apply leased_renewRedisCache | done].
    + by apply leased_set_caller, leased_renewRedisCache.
  - unfold get_error.
    on_caller c Hlook. by apply leased_set_caller.
  - by apply leased_lock_granted.
  - unfold lock_error.
    on_renewal r Hlook. by apply leased_set_renewal.
  - unfold f_resolved.
    on_renewal r Hr. apply leased_set_renewal; [done |].
    intros x e Hx. by simplify_eq.
  - unfold f_rejected.
    on_renewal r Hlook. by apply leased_set_renewal.
  - by apply leased_set_reply.
  - unfold set_error.
    on_renewal r Hlook. by apply leased_set_renewal.
  - intros r x e Hr Hc Hlt. simpl in *. apply (H r x e Hr Hc). lia.
Qed.

Lemma init_leased : leased init.
Proof. intros r x e Hr. simpl in Hr. by rewrite lookup_nil in Hr. Qed.

Lemma reachable_leased s : reachable_from cacheKey timeMs init s → leased s.
Proof.
  intros [es ->]. apply run_invariant; [apply step_leased | apply init_leased].
Qed.

(** Two renewals of one key are in their critical sections together only
    if the lease of one of them has run out. *)
Lemma leased_exclusive s r1 r2 x1 x2 e1 e2 :
  leased s →
  renewals s !! r1 = Some x1 → renewals s !! r2 = Some x2 →
  r_key x1 = r_key x2 →
  critical x1 = Some e1 → critical x2 = Some e2 →
  now s < e1 → now s < e2 → r1 = r2.
Proof.
  intros H Hr1 Hr2 Hk Hc1 Hc2 Hlt1 Hlt2.
  pose proof (H r1 x1 e1 Hr1 Hc1 Hlt1) as H1.
  pose proof (H r2 x2 e2 Hr2 Hc2 Hlt2) as H2.
  rewrite Hk in H1. congruence.
Qed.

(** *** The order of a renewal's actions *)

Lemma actions_of_app r l1 l2 :
  actions_of r (l1 ++ l2) = actions_of r l1 ++ actions_of r l2.
Proof. apply List.filter_app. Qed.

Lemma ordered_ext s s' :
  renewals s' = renewals s → log s' = log s → ordered s → ordered s'.
Proof. intros Hr Hl H r. rewrite Hr, Hl. apply H. Qed.

Lemma ordered_set_caller c ph s : ordered s → ordered (set_caller c ph s).
Proof.
  destruct (set_caller_fields c ph s) as (_ & _ & ? & _ & ?).
  by apply ordered_ext.
Qed.

Lemma ordered_renewRedisCache key args s : ordered s → ordered (renewRedisCache key args s).
Proof.
  intros H r. specialize (H r). simpl.
  destruct (decide (r < length (renewals s))%nat) as [Hlt | Hge].
  - by rewrite lookup_app_l.
  - rewrite lookup_ge_None_2 in H by lia. simpl in H.
    destruct (decide (r = length (renewals s))) as [-> | Hne].
    + by rewrite list_lookup_middle.
    + rewrite lookup_ge_None_2; [done |]. rewrite length_app. simpl. lia.
Qed.

(** A change of phase that goes with no action. *)
Lemma ordered_set_renewal r ph s :
  ordered s →
  (∀ x l, renewals s !! r = Some x →
     done_in r (Some (r_phase x)) l → done_in r (Some ph) l) →
  ordered (set_renewal r ph s).
Proof.
  intros H Hph r'.
  destruct (set_renewal_fields r ph s) as (_ & _ & _ & _ & Hl). rewrite Hl.
  specialize (H r').
  destruct (renewals s !! r) as [x |] eqn:Hr.
  - rewrite (set_renewal_lookup r ph s x Hr).
    destruct (decide (r' = r)) as [-> | Hne].
    + rewrite list_lookup_insert_eq by (by eapply lookup_lt_Some). simpl.
      rewrite Hr in H. by eapply Hph.
    + by rewrite list_lookup_insert_ne.
  - unfold set_renewal. by rewrite Hr.
Qed.

Lemma actions_of_own r acts :
  Forall (λ a, renewal_of a = r) acts → actions_of r acts = acts.
Proof.
  unfold actions_of. induction 1 as [| a acts' Ha _ IH]; [done |]. simpl.
  by rewrite IH, Ha, Nat.eqb_refl.
Qed.

Lemma actions_of_other r r' acts :
  r' ≠ r → Forall (λ a, renewal_of a = r) acts → actions_of r' acts = [].
Proof.
  unfold actions_of. induction 2 as [| a acts' Ha _ IH]; [done |]. simpl.
  rewrite IH. destruct (Nat.eqb_spec (renewal_of a) r'); [congruence | done].
Qed.

(** A change of phase of [r] that goes with the actions [acts] of [r]. *)
Lemma ordered_act r key args ph acts (s s' : state) :
  ordered s →
  renewals s' = <[r := Renewal key args ph]> (renewals s) →
  log s' = log s ++ acts →
  Forall (λ a, renewal_of a = r) acts →
  (r < length (renewals s))%nat →
  done_in r (Some ph) (actions_of r (log s) ++ acts) →
  ordered s'.
Proof.
  intros H Hr Hl Hacts Hlt Hdone r'. rewrite Hr, Hl, actions_of_app.
  destruct (decide (r' = r)) as [-> | Hne].
  - rewrite list_lookup_insert_eq by done.
    by rewrite (actions_of_own r acts Hacts).
  - rewrite list_lookup_insert_ne by done.
    rewrite (actions_of_other r r' acts Hne Hacts).
    rewrite app_nil_r. apply H.
Qed.

Lemma step_ordered s e : ordered s → ordered (step cacheKey timeMs s e).
Proof.
  intros H. destruct e as [args | c | c | r | r | r v | r | r | r | d]; simpl.
  - by apply (ordered_ext s).
  - unfold get_reply.
    on_caller c Hlook.
    destruct (store s !! key) as [cached |].
    + apply ordered_set_caller.
      destruct (isExpired _ _ _); [by apply ordered_renewRedisCache | done].
    + by apply ordered_set_caller, ordered_renewRedisCache.
  - unfold get_error.
    on_caller c Hlook. by apply ordered_set_caller.
  - unfold lock_granted.
    on_renewal r Hr.
    destruct (lock_free _ _ _); [| done].
    eapply (ordered_act r); [done | done | done | | |].
    + by repeat constructor.
    + by eapply lookup_lt_Some.
    + specialize (H r). rewrite Hr in H. simpl in H. by rewrite H.
  - unfold lock_error.
    on_renewal r Hr. apply ordered_set_renewal; [done |].
    intros x l Hx. simplify_eq. simpl. by left.
  - unfold f_resolved.
    on_renewal r Hr. apply ordered_set_renewal; [done |].
    intros x l Hx. by simplify_eq.
  - unfold f_rejected.
    on_renewal r Hr. apply ordered_set_renewal; [done |].
    intros x l Hx. simplify_eq. simpl. by right.
  - unfold set_reply.
    on_renewal r Hr.
    eapply (ordered_act r); [done | done | done | | |].
    + by repeat constructor.
    + by eapply lookup_lt_Some.
    + specialize (H r). rewrite Hr in H. simpl in H. by rewrite H.
  - unfold set_error.
    on_renewal r Hr. apply ordered_set_renewal; [done |].
    intros x l Hx. simplify_eq. simpl. by right.
  - by apply (ordered_ext s).
Qed.

Lemma init_ordered : ordered init.
Proof. intros r. done. Qed.

Lemma reachable_ordered s : reachable_from cacheKey timeMs init s → ordered s.
Proof.
  intros [es ->]. apply run_invariant; [apply step_ordered | apply init_ordered].
Qed.

(** *** Callers and renewals that are past their last await *)

Lemma get_reply_renewals c s :
  renewals (get_reply timeMs c s) = renewals s ∨
  ∃ key args, renewals (get_reply timeMs c s) = renewals s ++ [Renewal key args Locking].
Proof.
  unfold get_reply.
  destruct (callers s !! c) as [[key args ph] |]; [| by left].
  destruct ph; try by left.
  destruct (store s !! key) as [cached |].
  - destruct (set_caller_fields c (Returned (rec_value cached))
      (if isExpired (now s) (Some (rec_at cached)) timeMs
       then renewRedisCache key args s else s)) as (_ & _ & -> & _).
    destruct (isExpired _ _ _); [right; by eexists _, _ | by left].
  - destruct (set_caller_fields c (Awaiting (length (renewals s)))
      (renewRedisCache key args s)) as (_ & _ & -> & _).
    right. by eexists _, _.
Qed.

(** A renewal that has finished or died is never touched again. *)
Lemma terminal_renewal_step s e r x :
  renewals s !! r = Some x → terminal (r_phase x) →
  renewals (step cacheKey timeMs s e) !! r = Some x.
Proof.
  intros Hr Hph.
  assert (∀ r' ph, renewals (set_renewal r' ph s) !! r = Some x ∨
            ∃ x', renewals s !! r' = Some x' ∧ r' = r) as Hset.
  { intros r' ph. unfold set_renewal.
    destruct (renewals s !! r') as [x' |] eqn:Hr'; [| by left]. simpl.
    destruct (decide (r' = r)) as [-> | Hne]; [right; by eexists |].
    left. by rewrite list_lookup_insert_ne. }
  destruct e as [args | c | c | r' | r' | r' v | r' | r' | r' | d]; simpl; try done.
  - destruct (get_reply_renewals c s) as [-> | (key & args & ->)]; [done |].
    by apply lookup_app_l_Some.
  - unfold get_error.
    on_caller c Hlook.
    by destruct (set_caller_fields c Rejected s) as (_ & _ & -> & _).
  - unfold lock_granted.
    on_renewal r' Hr'. destruct (lock_free _ _ _); [| done]. simpl.
    rewrite list_lookup_insert_ne; [done |]. intros ->. by simplify_eq.
  - unfold lock_error.
    on_renewal r' Hr'.
    destruct (Hset r' Died) as [? | (x' & ? & ->)]; [done | by simplify_eq].
  - unfold f_resolved.
    on_renewal r' Hr'.
    destruct (Hset r' (Writing expires (now s) v)) as [? | (x' & ? & ->)];
      [done | by simplify_eq].
  - unfold f_rejected.
    on_renewal r' Hr'.
    destruct (Hset r' Died) as [? | (x' & ? & ->)]; [done | by simplify_eq].
  - unfold set_reply.
    on_renewal r' Hr'. simpl.
    rewrite list_lookup_insert_ne; [done |]. intros ->. by simplify_eq.
  - unfold set_error.
    on_renewal r' Hr'.
    destruct (Hset r' Died) as [? | (x' & ? & ->)]; [done | by simplify_eq].
Qed.

(** A caller that is past [await redis.get] is never touched again. *)
Lemma past_get_step s e c y :
  callers s !! c = Some y → c_phase y ≠ Getting →
  callers (step cacheKey timeMs s e) !! c = Some y.
Proof.
  intros Hc Hph.
  assert (∀ r ph, callers (set_renewal r ph s) = callers s) as Hset.
  { intros r ph. by destruct (set_renewal_fields r ph s) as (_ & _ & -> & _). }
  assert (∀ c' ph s', callers s' = callers s →
            (∃ y', callers s !! c' = Some y' ∧ c_phase y' = Getting) →
            callers (set_caller c' ph s') !! c = Some y) as Hcall.
  { intros c' ph s' Hs' (y' & Hy' & Hg). unfold set_caller. rewrite Hs', Hy'.
    simpl. rewrite list_lookup_insert_ne; [done |].
    intros ->. congruence. }
  destruct e as [args | c' | c' | r | r | r v | r | r | r | d]; simpl; try done.
  - by apply lookup_app_l_Some.
  - unfold get_reply.
    on_caller c' Hc'.
    destruct (store s !! key) as [cached |].
    + apply Hcall; [by destruct (isExpired _ _ _) | by eexists].
    + apply Hcall; [done | by eexists].
  - unfold get_error.
    on_caller c' Hc'. apply Hcall; [done | by eexists].
  - unfold lock_granted.
    on_renewal r Hlook. by destruct (lock_free _ _ _).
  - unfold lock_error.
    on_renewal r Hlook. by rewrite Hset.
  - unfold f_resolved.
    on_renewal r Hlook. by rewrite Hset.
  - unfold f_rejected.
    on_renewal r Hlook. by rewrite Hset.
  - unfold set_reply.
    destruct (renewals s !! r) as [[key args ph] |]; [| done].
    by destruct ph.
  - unfold set_error.
    on_renewal r Hlook. by rewrite Hset.
Qed.

Lemma terminal_renewal_run s es r x :
  renewals s !! r = Some x → terminal (r_phase x) →
  renewals (run cacheKey timeMs s es) !! r = Some x.
Proof.
  intros Hr Hph.
  apply (run_invariant (λ s, renewals s !! r = Some x)); [| done].
  intros s' e Hs'. by apply terminal_renewal_step.
Qed.

Lemma past_get_run s es c y :
  callers s !! c = Some y → c_phase y ≠ Getting →
  callers (run cacheKey timeMs s es) !! c = Some y.
Proof.
  intros Hc Hph.
  apply (run_invariant (λ s, callers s !! c = Some y)); [| done].
  intros s' e Hs'. by apply past_get_step.
Qed.

(** A caller that returned from line 77 has its value for good. *)
Lemma returned_run s es c key args v :
  callers s !! c = Some (Caller key args (Returned v)) →
  settled (run cacheKey timeMs s es) c = Some (Resolves v).
Proof.
  intros Hc. unfold settled. by rewrite (past_get_run s es c _ Hc).
Qed.

(** A caller that awaits a renewal that died is never settled. *)
Lemma awaiting_died_run s es c key args r x :
  callers s !! c = Some (Caller key args (Awaiting r)) →
  renewals s !! r = Some x → r_phase x = Died →
  settled (run cacheKey timeMs s es) c = None.
Proof.
  intros Hc Hr Hph. unfold settled.
  rewrite (past_get_run s es c _ Hc) by done.
  rewrite (terminal_renewal_run s es r x Hr) by (by rewrite Hph).
  destruct x as [k a ph]. simpl in Hph. by subst.
Qed.

(** *** What [redis.get]'s answer leads to *)

Lemma get_reply_fresh s c key args cached :
  callers s !! c = Some (Caller key args Getting) →
  store s !! key = Some cached →
  now s - rec_at cached ≤ timeMs →
  get_reply timeMs c s =
    State (store s) (locks s)
          (<[c := Caller key args (Returned (rec_value cached))]> (callers s))
          (renewals s) (now s) (log s).
Proof.
  intros Hc Hs Hle. unfold get_reply, isExpired. rewrite Hc, Hs.
  rewrite (proj2 (Z.ltb_ge _ _) Hle). unfold set_caller. by rewrite Hc.
Qed.

Lemma get_reply_stale s c key args cached :
  callers s !! c = Some (Caller key args Getting) →
  store s !! key = Some cached →
  timeMs < now s - rec_at cached →
  get_reply timeMs c s =
    State (store s) (locks s)
          (<[c := Caller key args (Returned (rec_value cached))]> (callers s))
          (renewals s ++ [Renewal key args Locking]) (now s) (log s).
Proof.
  intros Hc Hs Hlt. unfold get_reply, isExpired. rewrite Hc, Hs.
  rewrite (proj2 (Z.ltb_lt _ _) Hlt). unfold set_caller. simpl. by rewrite Hc.
Qed.

Lemma get_reply_cold s c key args :
  callers s !! c = Some (Caller key args Getting) →
  store s !! key = None →
  get_reply timeMs c s =
    State (store s) (locks s)
          (<[c := Caller key args (Awaiting (length (renewals s)))]> (callers s))
          (renewals s ++ [Renewal key args Locking]) (now s) (log s).
Proof.
  intros Hc Hs. unfold get_reply. rewrite Hc, Hs.
  unfold set_caller. simpl. by rewrite Hc.
Qed.

(** The caller made by a call. *)
Lemma call_caller s args :
  callers (redisCache cacheKey args s) !! length (callers s) =
    Some (Caller (cacheKey +:+ JSON_stringify args) args Getting).
Proof. simpl. by apply list_lookup_middle. Qed.

(** A failing await kills the renewal. *)
Lemma failure_step s e r x :
  renewals s !! r = Some x → failure_of r (r_phase x) e →
  renewals (step cacheKey timeMs s e) !! r =
    Some (Renewal (r_key x) (r_args x) Died).
Proof.
  intros Hr Hf. destruct x as [key args ph].
  destruct e, ph; simpl in Hf; try done; subst; simpl;
    [unfold lock_error | unfold f_rejected | unfold set_error];
    rewrite Hr; unfold set_renewal; rewrite Hr; simpl;
    apply list_lookup_insert_eq; by eapply lookup_lt_Some.
Qed.

(** *** Keys *)

Lemma keyed_set_caller c ph s : keyed cacheKey s → keyed cacheKey (set_caller c ph s).
Proof.
  intros (Hc & Hr & Hs & Hl).
  destruct (set_caller_fields c ph s) as (Es & El & Er & _).
  split_and!; rewrite ?Es, ?El, ?Er; try done.
  intros c' y Hy. unfold set_caller in Hy.
  destruct (callers s !! c) as [z |] eqn:Hz; [| by eapply Hc]. simpl in Hy.
  destruct (decide (c' = c)) as [-> | Hne].
  - rewrite list_lookup_insert_eq in Hy by (by eapply lookup_lt_Some).
    simplify_eq. simpl. by eapply Hc.
  - rewrite list_lookup_insert_ne in Hy by done. by eapply Hc.
Qed.

Lemma keyed_set_renewal r ph s : keyed cacheKey s → keyed cacheKey (set_renewal r ph s).
Proof.
  intros (Hc & Hr & Hs & Hl).
  destruct (set_renewal_fields r ph s) as (Es & El & Ec & _).
  split_and!; rewrite ?Es, ?El, ?Ec; try done.
  intros r' x Hx. unfold set_renewal in Hx.
  destruct (renewals s !! r) as [z |] eqn:Hz; [| by eapply Hr]. simpl in Hx.
  destruct (decide (r' = r)) as [-> | Hne].
  - rewrite list_lookup_insert_eq in Hx by (by eapply lookup_lt_Some).
    simplify_eq. simpl. by eapply Hr.
  - rewrite list_lookup_insert_ne in Hx by done. by eapply Hr.
Qed.

Lemma keyed_renewRedisCache args s :
  keyed cacheKey s →
  keyed cacheKey (renewRedisCache (cacheKey +:+ JSON_stringify args) args s).
Proof.
  intros (Hc & Hr & Hs & Hl). split_and!; try done.
  intros r x Hx. simpl in Hx.
  apply lookup_app_Some in Hx as [Hx | [_ Hx]]; [by eapply Hr |].
  by apply list_lookup_singleton_Some in Hx as [_ <-].
Qed.

Lemma red_step_keyed s e : keyed cacheKey s → keyed cacheKey (step cacheKey timeMs s e).
Proof.
  intros Hk. pose proof Hk as (Hc & Hr & Hs & Hl).
  destruct e as [args | c | c | r | r | r v | r | r | r | d]; simpl.
  - split_and!; try done. intros c y Hy. simpl in Hy.
    apply lookup_app_Some in Hy as [Hy | [_ Hy]]; [by eapply Hc |].
    by apply list_lookup_singleton_Some in Hy as [_ <-].
  - unfold get_reply.
    on_caller c Hy. pose proof (Hc c _ Hy) as Hkey. simpl in Hkey.
    subst key.
    destruct (store s !! _) as [cached |].
    + apply keyed_set_caller.
      destruct (isExpired _ _ _); [by apply keyed_renewRedisCache | done].
    + by apply keyed_set_caller, keyed_renewRedisCache.
  - unfold get_error.
    on_caller c Hlook. by apply keyed_set_caller.
  - unfold lock_granted.
    on_renewal r Hx. destruct (lock_free _ _ _); [| done].
    pose proof (Hr r _ Hx) as Hkey. simpl in Hkey.
    split_and!; simpl; try done.
    + intros r' x' Hx'. destruct (decide (r' = r)) as [-> | Hne].
      * rewrite list_lookup_insert_eq in Hx' by (by eapply lookup_lt_Some).
        by simplify_eq.
      * rewrite list_lookup_insert_ne in Hx' by done. by eapply Hr.
    + intros n l Hn. unfold acquire in Hn.
      destruct (decide (lock_name key = n)) as [<- | Hne].
      * exists args. by rewrite Hkey.
      * rewrite lookup_insert_ne in Hn by done. by eapply Hl.
  - unfold lock_error.
    on_renewal r Hlook. by apply keyed_set_renewal.
  - unfold f_resolved.
    on_renewal r Hlook. by apply keyed_set_renewal.
  - unfold f_rejected.
    on_renewal r Hlook. by apply keyed_set_renewal.
  - unfold set_reply.
    on_renewal r Hx.
    pose proof (Hr r _ Hx) as Hkey. simpl in Hkey.
    split_and!; simpl; try done.
    + intros r' x' Hx'. destruct (decide (r' = r)) as [-> | Hne].
      * rewrite list_lookup_insert_eq in Hx' by (by eapply lookup_lt_Some).
        by simplify_eq.
      * rewrite list_lookup_insert_ne in Hx' by done. by eapply Hr.
    + intros k cached Hk'. destruct (decide (key = k)) as [<- | Hne].
      * by exists args.
      * rewrite lookup_insert_ne in Hk' by done. by eapply Hs.
    + intros n l Hn. unfold release in Hn.
      destruct (locks s !! lock_name key) as [l' |]; [| by eapply Hl].
      destruct (decide (l_holder l' = r)); [| by eapply Hl].
      apply lookup_delete_Some in Hn as [_ Hn]. by eapply Hl.
  - unfold set_error.
    on_renewal r Hlook. by apply keyed_set_renewal.
  - done.
Qed.

Lemma red_init_keyed : keyed cacheKey init.
Proof. split_and!; intros ? ? H; simpl in H; by rewrite ?lookup_nil in H. Qed.

Lemma reachable_keyed s : reachable_from cacheKey timeMs init s → keyed cacheKey s.
Proof.
  intros [es ->]. apply run_invariant; [apply red_step_keyed | apply red_init_keyed].
Qed.

End Facts.

End RedFacts.

(** ** The properties of the specification *)

(** C1, as the code has it.  On a key with no entry, [S n] calls made
    before the computation settles call [f] once, but only the first
    caller gets the promise of the computed value: the entry made by the
    first call has no [at], is not expired, and each later call returns its
    [value], [undefined]. *)
Theorem cold_start_callers timeMs (s0 : Mem.state) args n v :
  let key := JSON_stringify args in
  let p := length (Mem.jobs s0) in
  Mem.caches s0 !! key = None →
  let '(s, os) :=
    Mem.run timeMs s0 (replicate (S n) (Mem.Call args) ++ [Mem.FResolve p v]) in
  os = Mem.Promise p :: replicate n (Mem.Value VUndefined)
  ∧ Mem.jobs s =
      Mem.jobs s0 ++
      [Mem.Job key args (Mem.now s0) false (Mem.Fulfilled v) (Mem.Resolved v)]
  ∧ Mem.caches s !! key = Some (Mem.Entry (Some (Mem.now s0)) None v)
  ∧ map (Mem.settled s) os = Some v :: replicate n (Some VUndefined).
Proof.
  intros key p Hcold. rewrite MemFacts.run_app. simpl replicate.
  rewrite MemFacts.run_cons. simpl Mem.step.
  rewrite (MemFacts.call_cold timeMs s0 args Hcold). fold key.
  destruct (MemFacts.renew_held key args (Mem.Entry None None VUndefined) s0)
    as (Hh & _ & Ho).
  destruct (Mem.renew key args (Mem.Entry None None VUndefined) s0)
    as [s1 o] eqn:Hrenew.
  simpl in Hh, Ho. subst o. fold p in Hh.
  rewrite (MemFacts.run_calls_cold_in_flight timeMs s1 args _ _ n Hh).
  destruct Hh as (Hc & _ & Hj & _).
  injection Hrenew as Hs1. fold p in Hs1.
  simpl. unfold Mem.f_resolved. rewrite Hj. simpl.
  assert (Mem.jobs s1 = Mem.jobs s0 ++
    [Mem.Job key args (Mem.now s0) false Mem.Running Mem.Pending]) as Hjobs
    by (by rewrite <- Hs1).
  assert (Mem.now s1 = Mem.now s0) as Hnow by (by rewrite <- Hs1).
  rewrite Hjobs.
  assert (<[p := Mem.Job key args (Mem.now s0) false (Mem.Fulfilled v) (Mem.Resolved v)]>
            (Mem.jobs s0 ++ [Mem.Job key args (Mem.now s0) false Mem.Running Mem.Pending])
          = Mem.jobs s0 ++ [Mem.Job key args (Mem.now s0) false (Mem.Fulfilled v) (Mem.Resolved v)])
    as Hins.
  { subst p. rewrite insert_app_r_alt by lia. by rewrite Nat.sub_diag. }
  rewrite Hins, app_nil_r. split_and!; try done.
  - by rewrite lookup_insert_eq.
  - simpl. fold p. rewrite list_lookup_middle by done. simpl. f_equal.
    clear. induction n as [| n IH]; [done |]. simpl. by rewrite IH.
Qed.

Lemma cold_start_callers_witness :
  let '(s, os) :=
    Mem.run 1000 Mem.init
      (replicate 5 (Mem.Call [VNum 7]) ++ [Mem.FResolve 0 (VStr "stats")]) in
  os = Mem.Promise 0 :: replicate 4 (Mem.Value VUndefined)
  ∧ Mem.jobs s =
      [Mem.Job "[7]" [VNum 7] 0 false (Mem.Fulfilled (VStr "stats"))
         (Mem.Resolved (VStr "stats"))]
  ∧ Mem.caches s !! "[7]" = Some (Mem.Entry (Some 0) None (VStr "stats"))
  ∧ map (Mem.settled s) os = Some (VStr "stats") :: replicate 4 (Some VUndefined).
Proof.
  apply (cold_start_callers 1000 Mem.init [VNum 7] 4 (VStr "stats")).
  reflexivity.
Defined.

(** The same under any interleaving: in every state reached while the
    first computation for a key is running, a call for the key returns
    [undefined] and starts nothing. *)
Lemma cold_in_flight_call_undefined timeMs es0 args es1 :
  let key := JSON_stringify args in
  let s0 := (Mem.run timeMs Mem.init es0).1 in
  let p := length (Mem.jobs s0) in
  let s1 := (Mem.run timeMs (Mem.memoryCache timeMs args s0).1 es1).1 in
  Mem.caches s0 !! key = None →
  (∃ j, Mem.jobs s1 !! p = Some j ∧ Mem.j_f j = Mem.Running) →
  Mem.memoryCache timeMs args s1 = (s1, Mem.Value VUndefined)
  ∧ Mem.no_new_job s1 key (S p).
Proof.
  intros key s0 p s1 Hcold Hrun.
  assert (Mem.marked s0) as Hm
    by apply MemFacts.run_marked, MemFacts.init_marked.
  subst s1. rewrite (MemFacts.call_cold timeMs s0 args Hcold) in *.
  destruct (MemFacts.renew_held key args (Mem.Entry None None VUndefined) s0)
    as (Hh & Hn & _).
  destruct (MemFacts.held_run_running timeMs _ _ _ _ _ es1 _
              (MemFacts.renew_marked key args _ s0 Hm
                 ltac:(intros c'; fold key; by rewrite Hcold))
              Hh Hn Hrun) as [Hh1 Hn1].
  split; [| done]. by eapply MemFacts.call_cold_in_flight.
Qed.

(** The course of a first computation that fails, as C4 and C5 use it. *)
Lemma first_computation_fails timeMs es0 args es1 es2 :
  let key := JSON_stringify args in
  let s0 := (Mem.run timeMs Mem.init es0).1 in
  let p := length (Mem.jobs s0) in
  let s1 := (Mem.run timeMs (Mem.memoryCache timeMs args s0).1 es1).1 in
  let s3 := (Mem.run timeMs (Mem.f_rejected p s1) es2).1 in
  Mem.caches s0 !! key = None →
  (∃ j, Mem.jobs s1 !! p = Some j ∧ Mem.j_f j = Mem.Running) →
  (Mem.memoryCache timeMs args s0).2 = Mem.Promise p
  ∧ Mem.held_by s3 key (Mem.Entry None (Some p) VUndefined) p
      (Mem.Job key args (Mem.now s0) false Mem.Failed Mem.Pending)
  ∧ Mem.no_new_job s3 key (S p).
Proof.
  intros key s0 p s1 s3 Hcold Hrun.
  assert (Mem.marked s0) as Hm
    by apply MemFacts.run_marked, MemFacts.init_marked.
  split; [by rewrite (MemFacts.call_cold timeMs s0 args Hcold) |].
  subst s3 s1. rewrite (MemFacts.call_cold timeMs s0 args Hcold) in *.
  apply (MemFacts.failed_computation timeMs s0 args
           (Mem.Entry None None VUndefined) es1 es2 Hm); [| done].
  intros c'. fold key. by rewrite Hcold.
Qed.

(** C5.  If the first computation for a key fails, the entry made by the
    first call keeps its [promise] and gets no [at] and no [value]; the
    promise returned to the first caller stays pending; and in every later
    state a call for the key returns [undefined] at once, changes nothing,
    and [f] is not called for the key again. *)
Theorem cold_failure_poisons_key timeMs es0 args es1 es2 :
  let key := JSON_stringify args in
  let s0 := (Mem.run timeMs Mem.init es0).1 in
  let p := length (Mem.jobs s0) in
  let s1 := (Mem.run timeMs (Mem.memoryCache timeMs args s0).1 es1).1 in
  let s3 := (Mem.run timeMs (Mem.f_rejected p s1) es2).1 in
  Mem.caches s0 !! key = None →
  (∃ j, Mem.jobs s1 !! p = Some j ∧ Mem.j_f j = Mem.Running) →
  (Mem.memoryCache timeMs args s0).2 = Mem.Promise p
  ∧ Mem.caches s3 !! key = Some (Mem.Entry None (Some p) VUndefined)
  ∧ Mem.settled s3 (Mem.Promise p) = None
  ∧ Mem.memoryCache timeMs args s3 = (s3, Mem.Value VUndefined)
  ∧ Mem.no_new_job s3 key (S p).
Proof.
  intros key s0 p s1 s3 Hcold Hrun.
  destruct (first_computation_fails timeMs es0 args es1 es2 Hcold Hrun)
    as (Ho & Hh & Hn).
  fold key s0 p s1 s3 in Hh, Hn. clearbody s3. split_and!; try done.
  - by destruct Hh.
  - destruct Hh as (_ & _ & Hj & _). unfold Mem.settled. by rewrite Hj.
  - by rewrite (MemFacts.held_call timeMs _ _ _ _ _ args Hh eq_refl).
Qed.

Lemma cold_failure_poisons_key_witness :
  let s3 :=
    (Mem.run 1000 Mem.init
       [Mem.Call [VNum 7]; Mem.Call [VNum 7]; Mem.FReject 0;
        Mem.Tick 5000; Mem.Call [VNum 7]; Mem.Call [VNum 8]]).1 in
  (Mem.memoryCache 1000 [VNum 7] Mem.init).2 = Mem.Promise 0
  ∧ Mem.caches s3 !! "[7]" = Some (Mem.Entry None (Some 0%nat) VUndefined)
  ∧ Mem.settled s3 (Mem.Promise 0) = None
  ∧ Mem.memoryCache 1000 [VNum 7] s3 = (s3, Mem.Value VUndefined)
  ∧ Mem.no_new_job s3 "[7]" 1.
Proof.
  apply (cold_failure_poisons_key 1000 [] [VNum 7] [Mem.Call [VNum 7]]
           [Mem.Tick 5000; Mem.Call [VNum 7]; Mem.Call [VNum 8]]).
  - reflexivity.
  - eexists. split; reflexivity.
Defined.

(** C2, as the code has it.  A stale record whose value is falsy is not
    served: [hasOldCache] is false, the promise returned to the caller is
    pending for as long as the renewal's [f] is running, and it is resolved
    when the renewal has completed, with the new value.
    (A truthy value is served at once: [stale_truthy_value_served]; so is
    every value in the shared backend: [stale_record_served].) *)
Theorem stale_falsy_value_waits timeMs es0 args a v es1 v' :
  let key := JSON_stringify args in
  let s0 := (Mem.run timeMs Mem.init es0).1 in
  let p := length (Mem.jobs s0) in
  let o := (Mem.memoryCache timeMs args s0).2 in
  let s1 := (Mem.run timeMs (Mem.memoryCache timeMs args s0).1 es1).1 in
  Mem.caches s0 !! key = Some (Mem.Entry (Some a) None v) →
  timeMs < Mem.now s0 - a →
  truthy v = false →
  (∃ j, Mem.jobs s1 !! p = Some j ∧ Mem.j_f j = Mem.Running) →
  o = Mem.Promise p
  ∧ Mem.settled s1 o = None
  ∧ Mem.settled (Mem.f_resolved p v' s1) o = Some v'.
Proof.
  intros key s0 p o s1 Hc Hlt Hv Hrun.
  assert (Mem.marked s0) as Hm
    by apply MemFacts.run_marked, MemFacts.init_marked.
  assert (o = Mem.Promise p) as Ho.
  { subst o.
    by rewrite (MemFacts.call_stale timeMs s0 args _ a Hc eq_refl eq_refl Hlt). }
  assert (Mem.jobs s1 !! p =
            Some (Mem.Job key args (Mem.now s0) false Mem.Running Mem.Pending))
    as Hj.
  { subst s1.
    rewrite (MemFacts.call_stale timeMs s0 args _ a Hc eq_refl eq_refl Hlt) in *.
    destruct (MemFacts.renew_held key args (Mem.Entry (Some a) None v) s0)
      as (Hh & Hn & _).
    cbn [Mem.e_at Mem.e_value] in Hh. rewrite Hv in Hh.
    destruct (MemFacts.held_run_running timeMs _ _ _ _ _ es1 _
                (MemFacts.renew_marked key args _ s0 Hm
                   ltac:(intros c'; fold key; rewrite Hc; by intros [= <-]))
                Hh Hn Hrun) as [(_ & _ & Hj & _) _].
    done. }
  rewrite Ho. clearbody s1 o. split_and!; [done | |].
  - unfold Mem.settled. by rewrite Hj.
  - unfold Mem.settled, Mem.f_resolved. rewrite Hj. simpl.
    rewrite list_lookup_insert_eq; [done |]. by eapply lookup_lt_Some.
Qed.

Lemma stale_falsy_value_waits_witness :
  let s0 :=
    (Mem.run 1000 Mem.init
       [Mem.Call [VNum 7]; Mem.FResolve 0 (VNum 0); Mem.Tick 1001]).1 in
  let o := (Mem.memoryCache 1000 [VNum 7] s0).2 in
  let s1 :=
    (Mem.run 1000 (Mem.memoryCache 1000 [VNum 7] s0).1
       [Mem.Tick 60000; Mem.Call [VNum 7]]).1 in
  o = Mem.Promise 1
  ∧ Mem.settled s1 o = None
  ∧ Mem.settled (Mem.f_resolved 1 (VNum 5) s1) o = Some (VNum 5).
Proof.
  apply (stale_falsy_value_waits 1000
           [Mem.Call [VNum 7]; Mem.FResolve 0 (VNum 0); Mem.Tick 1001]
           [VNum 7] 0 (VNum 0) [Mem.Tick 60000; Mem.Call [VNum 7]] (VNum 5)).
  - reflexivity.
  - reflexivity.
  - reflexivity.
  - eexists. split; reflexivity.
Defined.

(** The same call on a truthy value: the promise returned is already
    resolved with the stale value, and the renewal has been started. *)
Lemma stale_truthy_value_served timeMs (s0 : Mem.state) args a v :
  let key := JSON_stringify args in
  let p := length (Mem.jobs s0) in
  let s1 := (Mem.memoryCache timeMs args s0).1 in
  let o := (Mem.memoryCache timeMs args s0).2 in
  Mem.caches s0 !! key = Some (Mem.Entry (Some a) None v) →
  timeMs < Mem.now s0 - a →
  truthy v = true →
  o = Mem.Promise p
  ∧ Mem.settled s1 o = Some v
  ∧ Mem.jobs s1 =
      Mem.jobs s0 ++
      [Mem.Job key args (Mem.now s0) true Mem.Running (Mem.Resolved v)].
Proof.
  intros key p s1 o Hc Hlt Hv. subst s1 o.
  rewrite (MemFacts.call_stale timeMs s0 args _ a Hc eq_refl eq_refl Hlt).
  simpl. rewrite Hv. fold p. split_and!; try done.
  subst p. by rewrite list_lookup_middle.
Qed.

(** In the shared backend a stale record is served whatever its value,
    and the renewal is started but not awaited. *)
Lemma stale_record_served cacheKey timeMs (s : Red.state) args cached :
  let key := cacheKey +:+ JSON_stringify args in
  let c := length (Red.callers s) in
  let s' := Red.run cacheKey timeMs s [Red.Call args; Red.GetReply c] in
  Red.store s !! key = Some cached →
  timeMs < Red.now s - Red.rec_at cached →
  Red.settled s' c = Some (Red.Resolves (Red.rec_value cached))
  ∧ Red.renewals s' = Red.renewals s ++ [Red.Renewal key args Red.Locking]
  ∧ Red.store s' = Red.store s ∧ Red.locks s' = Red.locks s
  ∧ Red.log s' = Red.log s.
Proof.
  intros key c s' Hs Hlt. subst s'. simpl.
  rewrite (RedFacts.get_reply_stale timeMs _ c key args cached);
    [| apply RedFacts.call_caller | done | done].
  unfold Red.settled. simpl.
  rewrite list_lookup_insert_eq; [done |].
  rewrite length_app. simpl. subst c. lia.
Qed.

(** C3, amended.  If the renewal of a stale record with a truthy value
    fails, the record keeps its [at] and its [value], and every later call
    for the key returns that value and changes nothing; the entry's
    [promise] is never cleared, so no later call starts a renewal: [f] is
    not called for the key again. *)
Theorem failed_renewal_keeps_record timeMs es0 args a v es1 es2 :
  let key := JSON_stringify args in
  let s0 := (Mem.run timeMs Mem.init es0).1 in
  let p := length (Mem.jobs s0) in
  let s1 := (Mem.run timeMs (Mem.memoryCache timeMs args s0).1 es1).1 in
  let s3 := (Mem.run timeMs (Mem.f_rejected p s1) es2).1 in
  Mem.caches s0 !! key = Some (Mem.Entry (Some a) None v) →
  timeMs < Mem.now s0 - a →
  truthy v = true →
  (∃ j, Mem.jobs s1 !! p = Some j ∧ Mem.j_f j = Mem.Running) →
  Mem.caches s3 !! key = Some (Mem.Entry (Some a) (Some p) v)
  ∧ Mem.memoryCache timeMs args s3 = (s3, Mem.Value v)
  ∧ ¬ Mem.starts_computation timeMs args s3
  ∧ Mem.no_new_job s3 key (S p).
Proof.
  intros key s0 p s1 s3 Hc Hlt Hv Hrun.
  assert (Mem.marked s0) as Hm
    by apply MemFacts.run_marked, MemFacts.init_marked.
  assert (Mem.held_by s3 key (Mem.Entry (Some a) (Some p) v) p
            (Mem.Job key args (Mem.now s0) true Mem.Failed (Mem.Resolved v))
          ∧ Mem.no_new_job s3 key (S p)) as [Hh Hn].
  { subst s3 s1.
    rewrite (MemFacts.call_stale timeMs s0 args _ a Hc eq_refl eq_refl Hlt) in *.
    pose proof (MemFacts.failed_computation timeMs s0 args
             (Mem.Entry (Some a) None v) es1 es2 Hm) as H.
    cbn [Mem.e_at Mem.e_value] in H. rewrite Hv in H. apply H; [| done].
    intros c'. fold key. rewrite Hc. by intros [= <-]. }
  clearbody s3.
  assert (Mem.memoryCache timeMs args s3 = (s3, Mem.Value v)) as Hcall.
  { rewrite (MemFacts.held_call timeMs _ _ _ _ _ args Hh eq_refl). simpl.
    rewrite Hv. by destruct (negb _). }
  split_and!; try done.
  - by destruct Hh.
  - unfold Mem.starts_computation. rewrite Hcall. simpl. lia.
Qed.

Lemma failed_renewal_keeps_record_witness :
  let s3 :=
    (Mem.run 1000 Mem.init
       [Mem.Call [VNum 7]; Mem.FResolve 0 (VStr "v1"); Mem.Tick 1001;
        Mem.Call [VNum 7]; Mem.FReject 1; Mem.Tick 1001; Mem.Call [VNum 7]]).1 in
  Mem.caches s3 !! "[7]" = Some (Mem.Entry (Some 0) (Some 1%nat) (VStr "v1"))
  ∧ Mem.memoryCache 1000 [VNum 7] s3 = (s3, Mem.Value (VStr "v1"))
  ∧ ¬ Mem.starts_computation 1000 [VNum 7] s3
  ∧ Mem.no_new_job s3 "[7]" 2.
Proof.
  apply (failed_renewal_keeps_record 1000
           [Mem.Call [VNum 7]; Mem.FResolve 0 (VStr "v1"); Mem.Tick 1001]
           [VNum 7] 0 (VStr "v1") []
           [Mem.Tick 1001; Mem.Call [VNum 7]]).
  - reflexivity.
  - reflexivity.
  - reflexivity.
  - eexists. split; reflexivity.
Defined.

(** C3 as stated fails: after a failed renewal the record is stale, and
    the next call, made more than [timeMs] later, starts no renewal. *)
Lemma failed_renewal_no_retry :
  let s :=
    (Mem.run 1000 Mem.init
       [Mem.Call [VNum 7]; Mem.FResolve 0 (VStr "v1"); Mem.Tick 1001;
        Mem.Call [VNum 7]; Mem.FReject 1; Mem.Tick 1001]).1 in
  Mem.caches s !! "[7]" = Some (Mem.Entry (Some 0) (Some 1%nat) (VStr "v1"))
  ∧ isExpired (Mem.now s) (Some 0) 1000 = true
  ∧ ¬ Mem.starts_computation 1000 [VNum 7] s.
Proof.
  split_and!; [reflexivity | reflexivity |].
  intros H. vm_compute in H. discriminate.
Qed.

(** C4, amended.  On a key with no record, a failure of the computation
    (in the shared backend also of lock acquisition or of the store write)
    is not surfaced: the promise returned to the caller stays pending in
    every later state.  In the shared backend only a failure of the first
    store read rejects the caller's promise. *)
Theorem cold_failure_never_settles cacheKey timeMs :
  (∀ es0 args es1 es2,
     let s0 := (Mem.run timeMs Mem.init es0).1 in
     let p := length (Mem.jobs s0) in
     let o := (Mem.memoryCache timeMs args s0).2 in
     let s1 := (Mem.run timeMs (Mem.memoryCache timeMs args s0).1 es1).1 in
     Mem.caches s0 !! JSON_stringify args = None →
     (∃ j, Mem.jobs s1 !! p = Some j ∧ Mem.j_f j = Mem.Running) →
     Mem.settled (Mem.run timeMs (Mem.f_rejected p s1) es2).1 o = None)
  ∧ (∀ (s : Red.state) c key args es1 x e es2,
     let r := length (Red.renewals s) in
     let s1 := Red.run cacheKey timeMs (Red.get_reply timeMs c s) es1 in
     Red.callers s !! c = Some (Red.Caller key args Red.Getting) →
     Red.store s !! key = None →
     Red.renewals s1 !! r = Some x →
     Red.failure_of r (Red.r_phase x) e →
     Red.settled
       (Red.run cacheKey timeMs (Red.step cacheKey timeMs s1 e) es2) c = None)
  ∧ (∀ (s : Red.state) c key args,
     Red.callers s !! c = Some (Red.Caller key args Red.Getting) →
     Red.settled (Red.get_error c s) c = Some Red.Rejects).
Proof.
  split_and!.
  - intros es0 args es1 es2 s0 p o s1 Hcold Hrun.
    destruct (first_computation_fails timeMs es0 args es1 es2 Hcold Hrun)
      as (Ho & Hh & _).
    fold s0 p s1 in Ho, Hh. fold o in Ho. rewrite Ho.
    destruct Hh as (_ & _ & Hj & _). unfold Mem.settled. by rewrite Hj.
  - intros s c key args es1 x e es2 r s1 Hc Hs Hr Hf.
    assert (Red.callers s1 !! c =
              Some (Red.Caller key args (Red.Awaiting r))) as Hc1.
    { subst s1. apply RedFacts.past_get_run; [| done].
      rewrite (RedFacts.get_reply_cold timeMs s c key args Hc Hs). simpl.
      apply list_lookup_insert_eq. by eapply lookup_lt_Some. }
    eapply RedFacts.awaiting_died_run.
    + by apply RedFacts.past_get_step.
    + by apply RedFacts.failure_step.
    + done.
  - intros s c key args Hc. unfold Red.get_error, Red.settled, Red.set_caller.
    rewrite Hc. simpl.
    rewrite list_lookup_insert_eq; [done |]. by eapply lookup_lt_Some.
Qed.

Lemma cold_failure_never_settles_witness :
  Mem.settled
    (Mem.run 1000 Mem.init
       [Mem.Call [VNum 7]; Mem.FReject 0; Mem.Tick 10; Mem.Call [VNum 7]]).1
    (Mem.Promise 0) = None
  ∧ Red.settled
      (Red.run "ns" 1000 Red.init
         [Red.Call [VNum 7]; Red.GetReply 0; Red.LockGranted 0;
          Red.FReject 0; Red.Tick 10]) 0 = None
  ∧ Red.settled
      (Red.run "ns" 1000 Red.init [Red.Call [VNum 7]; Red.GetError 0]) 0
    = Some Red.Rejects.
Proof.
  destruct (cold_failure_never_settles "ns" 1000) as (Hm & Hr & Hg).
  split_and!.
  - apply (Hm [] [VNum 7] [] [Mem.Tick 10; Mem.Call [VNum 7]]).
    + reflexivity.
    + eexists. split; reflexivity.
  - apply (Hr (Red.redisCache "ns" [VNum 7] Red.init) 0%nat "ns[7]" [VNum 7]
              [Red.LockGranted 0]
              (Red.Renewal "ns[7]" [VNum 7] (Red.Computing Red.lease))
              (Red.FReject 0) [Red.Tick 10]).
    + reflexivity.
    + reflexivity.
    + reflexivity.
    + reflexivity.
  - apply (Hg (Red.redisCache "ns" [VNum 7] Red.init) 0%nat "ns[7]" [VNum 7]).
    reflexivity.
Defined.

(** C4 as stated fails: the computation of a cold load has failed (in the
    shared backend: lock acquisition, the computation or the store write),
    and the caller's promise is not rejected; it is not settled at all. *)
Lemma cold_failure_not_rejected :
  (let '(s, os) := Mem.run 1000 Mem.init [Mem.Call [VNum 7]; Mem.FReject 0] in
   Mem.j_f <$> Mem.jobs s !! 0%nat = Some Mem.Failed
   ∧ map (Mem.settled s) os = [None])
  ∧ Red.settled
      (Red.run "ns" 1000 Red.init
         [Red.Call [VNum 7]; Red.GetReply 0; Red.LockError 0]) 0 = None
  ∧ Red.settled
      (Red.run "ns" 1000 Red.init
         [Red.Call [VNum 7]; Red.GetReply 0; Red.LockGranted 0;
          Red.FReject 0]) 0 = None
  ∧ Red.settled
      (Red.run "ns" 1000 Red.init
         [Red.Call [VNum 7]; Red.GetReply 0; Red.LockGranted 0;
          Red.FResolve 0 (VStr "v"); Red.SetError 0]) 0 = None.
Proof. split_and!; try reflexivity. vm_compute. by split. Qed.

(** C6.  A call that finds a fresh record returns the stored value and
    changes nothing.  In the in-process backend the state after the call
    is the state before it: no executor is run.  In the shared backend,
    when the answer of [redis.get] carries a fresh record, the store, the
    locks, the renewals and the log of lock, [f] and write actions are as
    before, and the caller's promise is resolved with the stored value. *)
Theorem fresh_hit_frame cacheKey timeMs args :
  (∀ (s : Mem.state) c a,
     Mem.caches s !! JSON_stringify args = Some c →
     Mem.e_at c = Some a →
     Mem.now s - a ≤ timeMs →
     Mem.memoryCache timeMs args s = (s, Mem.Value (Mem.e_value c)))
  ∧ (∀ (s : Red.state) es cached,
     let key := cacheKey +:+ JSON_stringify args in
     let c := length (Red.callers s) in
     let s1 := Red.run cacheKey timeMs (Red.redisCache cacheKey args s) es in
     let s' := Red.get_reply timeMs c s1 in
     Red.callers s1 !! c = Some (Red.Caller key args Red.Getting) →
     Red.store s1 !! key = Some cached →
     Red.now s1 - Red.rec_at cached ≤ timeMs →
     Red.settled s' c = Some (Red.Resolves (Red.rec_value cached))
     ∧ Red.store s' = Red.store s1 ∧ Red.locks s' = Red.locks s1
     ∧ Red.renewals s' = Red.renewals s1 ∧ Red.log s' = Red.log s1).
Proof.
  split.
  - intros s c a Hc Ha Hle. by eapply MemFacts.call_fresh.
  - intros s es cached key c s1 s' Hc Hs Hle. subst s'.
    rewrite (RedFacts.get_reply_fresh timeMs s1 c key args cached Hc Hs Hle).
    unfold Red.settled. simpl.
    rewrite list_lookup_insert_eq; [done |]. by eapply lookup_lt_Some.
Qed.

Lemma fresh_hit_frame_witness :
  (let s :=
     (Mem.run 1000 Mem.init
        [Mem.Call [VNum 7]; Mem.FResolve 0 (VStr "v"); Mem.Tick 1000]).1 in
   Mem.memoryCache 1000 [VNum 7] s = (s, Mem.Value (VStr "v")))
  ∧ (let s :=
       Red.run "ns" 1000 Red.init
         [Red.Call [VNum 7]; Red.GetReply 0; Red.LockGranted 0;
          Red.FResolve 0 (VStr "v"); Red.SetReply 0; Red.Tick 1000] in
     let s1 := Red.run "ns" 1000 s [Red.Call [VNum 7]] in
     let s' := Red.get_reply 1000 1 s1 in
     Red.settled s' 1 = Some (Red.Resolves (VStr "v"))
     ∧ Red.store s' = Red.store s1 ∧ Red.locks s' = Red.locks s1
     ∧ Red.renewals s' = Red.renewals s1 ∧ Red.log s' = Red.log s1).
Proof.
  destruct (fresh_hit_frame "ns" 1000 [VNum 7]) as [Hm Hr]. split.
  - apply (Hm _ (Mem.Entry (Some 0) None (VStr "v")) 0).
    + reflexivity.
    + reflexivity.
    + vm_compute. discriminate.
  - apply (Hr (Red.run "ns" 1000 Red.init
         [Red.Call [VNum 7]; Red.GetReply 0; Red.LockGranted 0;
          Red.FResolve 0 (VStr "v"); Red.SetReply 0; Red.Tick 1000])
         [] (Red.Record_ 0 (VStr "v"))).
    + reflexivity.
    + reflexivity.
    + vm_compute. discriminate.
Defined.

(** C8.  When the answer of [redis.get] carries a stale record, the call
    starts a renewal and returns the stale value; whatever happens
    afterwards, the failure of the renewal's lock acquisition, computation
    or store write included, the caller's promise is resolved with that
    value. *)
Theorem background_renewal_failure_swallowed cacheKey timeMs
    (s : Red.state) args es1 cached es2 :
  let key := cacheKey +:+ JSON_stringify args in
  let c := length (Red.callers s) in
  let s1 := Red.run cacheKey timeMs (Red.redisCache cacheKey args s) es1 in
  let r := length (Red.renewals s1) in
  let s' := Red.get_reply timeMs c s1 in
  Red.callers s1 !! c = Some (Red.Caller key args Red.Getting) →
  Red.store s1 !! key = Some cached →
  timeMs < Red.now s1 - Red.rec_at cached →
  Red.renewals s' !! r = Some (Red.Renewal key args Red.Locking)
  ∧ Red.settled (Red.run cacheKey timeMs s' es2) c =
      Some (Red.Resolves (Red.rec_value cached)).
Proof.
  intros key c s1 r s' Hc Hs Hlt. subst s'.
  rewrite (RedFacts.get_reply_stale timeMs s1 c key args cached Hc Hs Hlt).
  split.
  - simpl. by apply list_lookup_middle.
  - eapply RedFacts.returned_run. simpl.
    apply list_lookup_insert_eq. by eapply lookup_lt_Some.
Qed.

Lemma background_renewal_failure_swallowed_witness :
  let s :=
    Red.run "ns" 1000 Red.init
      [Red.Call [VNum 7]; Red.GetReply 0; Red.LockGranted 0;
       Red.FResolve 0 (VStr "v"); Red.SetReply 0; Red.Tick 1001] in
  let s' := Red.get_reply 1000 1 (Red.run "ns" 1000 s [Red.Call [VNum 7]]) in
  Red.renewals s' !! 1%nat = Some (Red.Renewal "ns[7]" [VNum 7] Red.Locking)
  ∧ Red.settled
      (Red.run "ns" 1000 s' [Red.LockGranted 1; Red.FReject 1; Red.Tick 5]) 1
    = Some (Red.Resolves (VStr "v")).
Proof.
  apply (background_renewal_failure_swallowed "ns" 1000
           (Red.run "ns" 1000 Red.init
              [Red.Call [VNum 7]; Red.GetReply 0; Red.LockGranted 0;
               Red.FResolve 0 (VStr "v"); Red.SetReply 0; Red.Tick 1001])
           [VNum 7] [] (Red.Record_ 0 (VStr "v"))
           [Red.LockGranted 1; Red.FReject 1; Red.Tick 5]).
  - reflexivity.
  - reflexivity.
  - reflexivity.
Defined.

(** C7, amended.  In the in-process backend at most one computation is
    in flight for a key, and while one is, a call for the key starts no
    other.  The shared backend keeps no record of the computations in
    flight; there [f] is called with the lock of the key held, so two
    computations for one key are in flight together only when the lease of
    one of them has run out. *)
Theorem one_computation_in_flight cacheKey timeMs :
  (∀ es key,
     (length (Mem.in_flight (Mem.run timeMs Mem.init es).1 key) ≤ 1)%nat)
  ∧ (∀ es args,
     let s := (Mem.run timeMs Mem.init es).1 in
     Mem.in_flight s (JSON_stringify args) ≠ [] →
     ¬ Mem.starts_computation timeMs args s)
  ∧ (∀ es r1 r2 x1 x2 e1 e2,
     let s := Red.run cacheKey timeMs Red.init es in
     Red.renewals s !! r1 = Some x1 → Red.renewals s !! r2 = Some x2 →
     Red.r_key x1 = Red.r_key x2 →
     Red.r_phase x1 = Red.Computing e1 → Red.r_phase x2 = Red.Computing e2 →
     Red.now s < e1 → Red.now s < e2 →
     r1 = r2).
Proof.
  split_and!.
  - intros es key. apply MemFacts.marked_in_flight.
    apply MemFacts.run_marked, MemFacts.init_marked.
  - intros es args s Hfl. unfold Mem.starts_computation.
    destruct (MemFacts.marked_in_flight_call timeMs s args) as [o Ho];
      [apply MemFacts.run_marked, MemFacts.init_marked | done |].
    rewrite Ho. simpl. lia.
  - intros es r1 r2 x1 x2 e1 e2 s Hr1 Hr2 Hk Hp1 Hp2 Hlt1 Hlt2.
    apply (RedFacts.leased_exclusive s r1 r2 x1 x2 e1 e2); try done.
    + apply (RedFacts.reachable_leased cacheKey timeMs). by exists es.
    + unfold Red.critical. by rewrite Hp1.
    + unfold Red.critical. by rewrite Hp2.
Qed.

Lemma one_computation_in_flight_witness :
  (let s := (Mem.run 1000 Mem.init [Mem.Call [VNum 7]; Mem.Call [VNum 7]]).1 in
   (length (Mem.in_flight s "[7]") ≤ 1)%nat
   ∧ ¬ Mem.starts_computation 1000 [VNum 7] s)
  ∧ (let s :=
       Red.run "ns" 1000 Red.init
         [Red.Call [VNum 7]; Red.GetReply 0; Red.LockGranted 0;
          Red.Call [VNum 7]; Red.GetReply 1; Red.LockGranted 1] in
     Red.renewals s !! 0%nat =
       Some (Red.Renewal "ns[7]" [VNum 7] (Red.Computing Red.lease))
     ∧ 0%nat = 0%nat).
Proof.
  destruct (one_computation_in_flight "ns" 1000) as (H1 & H2 & H3).
  cbv zeta. split_and!.
  - apply (H1 [Mem.Call [VNum 7]; Mem.Call [VNum 7]] "[7]").
  - apply (H2 [Mem.Call [VNum 7]; Mem.Call [VNum 7]] [VNum 7]).
    vm_compute. discriminate.
  - reflexivity.
  - apply (H3 [Red.Call [VNum 7]; Red.GetReply 0; Red.LockGranted 0;
               Red.Call [VNum 7]; Red.GetReply 1; Red.LockGranted 1]
              0%nat 0%nat
              (Red.Renewal "ns[7]" [VNum 7] (Red.Computing Red.lease))
              (Red.Renewal "ns[7]" [VNum 7] (Red.Computing Red.lease))
              Red.lease Red.lease);
      reflexivity.
Defined.

(** C7 as stated fails in the shared backend: the first computation for
    the key is still running when its lease runs out, a second call for
    the key finds no record, its renewal is granted the lock and calls [f]:
    two computations for one key are in flight. *)
Lemma two_computations_after_lease :
  let s :=
    Red.run "ns" 1000 Red.init
      [Red.Call [VNum 7]; Red.GetReply 0; Red.LockGranted 0;
       Red.Tick 180000;
       Red.Call [VNum 7]; Red.GetReply 1; Red.LockGranted 1] in
  Red.renewals s =
    [Red.Renewal "ns[7]" [VNum 7] (Red.Computing 180000);
     Red.Renewal "ns[7]" [VNum 7] (Red.Computing 360000)]
  ∧ Red.log s =
    [Red.Acquired 0; Red.Invoked 0; Red.Acquired 1; Red.Invoked 1].
Proof. split; reflexivity. Qed.

(** C10, amended.  Every renewal does its actions in the order of lines
    48-56: it acquires the lock, calls [f], writes the record and releases
    the lock, or stops on the way.  A renewal in its critical section whose
    lease has not run out holds the lock of its key, so two renewals of one
    key are in their critical sections together, and their writes can
    interleave, only when the lease of one of them has run out. *)
Theorem renewals_exclusive_within_lease cacheKey timeMs es :
  let s := Red.run cacheKey timeMs Red.init es in
  (∀ r,
     Red.actions_of r (Red.log s) = []
     ∨ Red.actions_of r (Red.log s) = [Red.Acquired r; Red.Invoked r]
     ∨ Red.actions_of r (Red.log s) =
         [Red.Acquired r; Red.Invoked r; Red.Wrote r; Red.Released r])
  ∧ (∀ r x e,
     Red.renewals s !! r = Some x → Red.critical x = Some e →
     Red.now s < e →
     Red.locks s !! Red.lock_name (Red.r_key x) = Some (Red.Lock r e))
  ∧ (∀ r1 r2 x1 x2 e1 e2,
     Red.renewals s !! r1 = Some x1 → Red.renewals s !! r2 = Some x2 →
     Red.r_key x1 = Red.r_key x2 →
     Red.critical x1 = Some e1 → Red.critical x2 = Some e2 →
     Red.now s < e1 → Red.now s < e2 →
     r1 = r2).
Proof.
  intros s.
  assert (Red.leased s) as Hl
    by (apply (RedFacts.reachable_leased cacheKey timeMs); by exists es).
  assert (Red.ordered s) as Ho
    by (apply (RedFacts.reachable_ordered cacheKey timeMs); by exists es).
  split_and!.
  - intros r. specialize (Ho r). unfold Red.done_in in Ho.
    destruct (Red.renewals s !! r) as [[key args ph] |]; simpl in Ho;
      [destruct ph |]; tauto.
  - apply Hl.
  - intros r1 r2 x1 x2 e1 e2. by apply RedFacts.leased_exclusive.
Qed.

Lemma renewals_exclusive_within_lease_witness :
  let s :=
    Red.run "ns" 1000 Red.init
      [Red.Call [VNum 7]; Red.GetReply 0; Red.LockGranted 0;
       Red.Call [VNum 7]; Red.GetReply 1; Red.LockGranted 1;
       Red.FResolve 0 (VStr "v")] in
  Red.locks s !! "ns[7]-lock" = Some (Red.Lock 0 Red.lease)
  ∧ Red.actions_of 1 (Red.log s) = [].
Proof.
  destruct (renewals_exclusive_within_lease "ns" 1000
      [Red.Call [VNum 7]; Red.GetReply 0; Red.LockGranted 0;
       Red.Call [VNum 7]; Red.GetReply 1; Red.LockGranted 1;
       Red.FResolve 0 (VStr "v")]) as (_ & H & _).
  split.
  - apply (H 0%nat (Red.Renewal "ns[7]" [VNum 7]
                      (Red.Writing Red.lease 0 (VStr "v"))) Red.lease);
      reflexivity.
  - reflexivity.
Defined.

(** C10 as stated fails: the lease of renewal 0 runs out while its
    computation is running; renewal 1 is granted the lock and writes and
    releases inside the critical section of renewal 0, whose late write
    then replaces the newer record. *)
Lemma writes_interleave_after_lease :
  let s :=
    Red.run "ns" 1000 Red.init
      [Red.Call [VNum 7]; Red.GetReply 0; Red.LockGranted 0;
       Red.Tick 180000;
       Red.Call [VNum 7]; Red.GetReply 1; Red.LockGranted 1;
       Red.Tick 10; Red.FResolve 1 (VStr "new"); Red.SetReply 1;
       Red.FResolve 0 (VStr "old"); Red.SetReply 0] in
  Red.log s =
    [Red.Acquired 0; Red.Invoked 0;
     Red.Acquired 1; Red.Invoked 1; Red.Wrote 1; Red.Released 1;
     Red.Wrote 0; Red.Released 0]
  ∧ Red.store s !! "ns[7]" = Some (Red.Record_ 180010 (VStr "old")).
Proof. split; reflexivity. Qed.

(** C9.  The key of a call.  In the shared backend a call files its
    caller under the namespace followed by [JSON.stringify] of its
    arguments, reads the store at that key, and the renewal it starts is
    filed under that key, takes the lock named after it and writes the
    record there.  In the in-process backend a call reads the entry at
    [JSON.stringify] of its arguments, files the entry and the executor it
    starts there, and leaves the entries of the other keys alone.  In
    every state reached, every caller, renewal, record, lock, executor and
    entry is filed under such a key.  The key is a function of the texts
    of the arguments in their order: arguments with the same texts get the
    same key, and on the plain values (no number beyond 2^53, no value
    written as another value's text) two argument lists get one key
    exactly when they are equal element by element, in order, up to
    [undefined] being written as [null].  Beyond the plain values
    different arguments share keys: whatever is written [null], as [NaN]
    or a function is, shares the key of [null]. *)
Theorem cache_key_derivation cacheKey timeMs :
  (∀ (s : Red.state) args,
     let key := cacheKey +:+ JSON_stringify args in
     let c := length (Red.callers s) in
     let r := length (Red.renewals s) in
     let s1 := Red.redisCache cacheKey args s in
     let s2 := Red.get_reply timeMs c s1 in
     Red.callers s1 !! c = Some (Red.Caller key args Red.Getting)
     ∧ (∀ cached, Red.store s !! key = Some cached →
          Red.settled s2 c = Some (Red.Resolves (Red.rec_value cached)))
     ∧ (Red.store s !! key = None →
          Red.renewals s2 !! r = Some (Red.Renewal key args Red.Locking)
          ∧ Red.callers s2 !! c =
              Some (Red.Caller key args (Red.Awaiting r))))
  ∧ (∀ (s : Red.state) r key args,
     Red.renewals s !! r = Some (Red.Renewal key args Red.Locking) →
     Red.lock_free (Red.now s) (Red.locks s) (key +:+ "-lock") = true →
     Red.locks (Red.lock_granted r s) !! (key +:+ "-lock")
     = Some (Red.Lock r (Red.now s + Red.lease)))
  ∧ (∀ (s : Red.state) r key args e a v,
     Red.renewals s !! r = Some (Red.Renewal key args (Red.Writing e a v)) →
     Red.store (Red.set_reply r s) !! key = Some (Red.Record_ a (parsed v)))
  ∧ (∀ (s : Mem.state) args,
     let key := JSON_stringify args in
     let p := length (Mem.jobs s) in
     let s1 := (Mem.memoryCache timeMs args s).1 in
     (Mem.caches s !! key = None →
        Mem.caches s1 !! key = Some (Mem.Entry None (Some p) VUndefined)
        ∧ Mem.jobs s1 !! p =
            Some (Mem.Job key args (Mem.now s) false Mem.Running Mem.Pending))
     ∧ (∀ c a, Mem.caches s !! key = Some c → Mem.e_at c = Some a →
          Mem.now s - a ≤ timeMs →
          Mem.memoryCache timeMs args s = (s, Mem.Value (Mem.e_value c)))
     ∧ (∀ k, k ≠ key → Mem.caches s1 !! k = Mem.caches s !! k))
  ∧ (∀ es,
     let s := Red.run cacheKey timeMs Red.init es in
     (∀ c y, Red.callers s !! c = Some y →
        Red.c_key y = cacheKey +:+ JSON_stringify (Red.c_args y))
     ∧ (∀ r x, Red.renewals s !! r = Some x →
        Red.r_key x = cacheKey +:+ JSON_stringify (Red.r_args x))
     ∧ (∀ k cached, Red.store s !! k = Some cached →
        ∃ args, k = cacheKey +:+ JSON_stringify args)
     ∧ (∀ n l, Red.locks s !! n = Some l →
        ∃ args, n = cacheKey +:+ JSON_stringify args +:+ "-lock"))
  ∧ (∀ es,
     let s := (Mem.run timeMs Mem.init es).1 in
     (∀ p j, Mem.jobs s !! p = Some j →
        Mem.j_key j = JSON_stringify (Mem.j_args j))
     ∧ (∀ k c, Mem.caches s !! k = Some c → ∃ args, k = JSON_stringify args))
  ∧ (∀ args args',
     map stringify_element args = map stringify_element args' →
     JSON_stringify args = JSON_stringify args'
     ∧ cacheKey +:+ JSON_stringify args = cacheKey +:+ JSON_stringify args')
  ∧ (∀ args args',
     all_plain args = true → all_plain args' = true →
     (cacheKey +:+ JSON_stringify args = cacheKey +:+ JSON_stringify args'
      ↔ map normalize args = map normalize args')
     ∧ (JSON_stringify args = JSON_stringify args'
        ↔ map normalize args = map normalize args'))
  ∧ (∀ a b,
     plain a = true → plain b = true →
     cacheKey +:+ JSON_stringify [a; b] = cacheKey +:+ JSON_stringify [b; a]
     ↔ normalize a = normalize b)
  ∧ (∀ b w,
     cacheKey +:+ JSON_stringify [VOther b "null" w]
     = cacheKey +:+ JSON_stringify [VNull]).
Proof.
  assert (∀ args args',
     all_plain args = true → all_plain args' = true →
     cacheKey +:+ JSON_stringify args = cacheKey +:+ JSON_stringify args'
     ↔ map normalize args = map normalize args') as Hkey.
  { intros args args' Hp Hp'. rewrite <- JSONFacts.JSON_stringify_inj by done.
    split; [apply (inj (String.append cacheKey)) | by intros ->]. }
  split_and!.
  - intros s args key c r s1 s2.
    assert (Red.callers s1 !! c = Some (Red.Caller key args Red.Getting)) as Hc
      by apply RedFacts.call_caller.
    split_and!; [done | |].
    + intros cached Hst. subst s2.
      assert (Red.store s1 !! key = Some cached) as Hst1 by done.
      destruct (Z.le_gt_cases (Red.now s1 - Red.rec_at cached) timeMs)
        as [Hle | Hgt].
      * rewrite (RedFacts.get_reply_fresh timeMs s1 c key args cached Hc Hst1 Hle).
        unfold Red.settled. simpl.
        rewrite list_lookup_insert_eq; [done |]. by eapply lookup_lt_Some.
      * rewrite (RedFacts.get_reply_stale timeMs s1 c key args cached Hc Hst1
                   ltac:(lia)).
        unfold Red.settled. simpl.
        rewrite list_lookup_insert_eq; [done |]. by eapply lookup_lt_Some.
    + intros Hst. subst s2.
      rewrite (RedFacts.get_reply_cold timeMs s1 c key args Hc Hst). simpl.
      split; [by apply list_lookup_middle |].
      apply list_lookup_insert_eq. by eapply lookup_lt_Some.
  - intros s r key args Hr Hfree. unfold Red.lock_granted. rewrite Hr.
    change (key +:+ "-lock") with (Red.lock_name key) in *. rewrite Hfree.
    simpl. unfold Red.acquire. by rewrite lookup_insert_eq.
  - intros s r key args e a v Hr. unfold Red.set_reply. rewrite Hr. simpl.
    by rewrite lookup_insert_eq.
  - intros s args key p s1. split_and!.
    + intros Hc. subst s1. rewrite (MemFacts.call_cold timeMs s args Hc).
      simpl. split; [by rewrite lookup_insert_eq | by apply list_lookup_middle].
    + intros c a Hc Ha Hle. by eapply MemFacts.call_fresh.
    + intros k Hne. by apply MemFacts.call_other_key.
  - intros es s.
    destruct (RedFacts.reachable_keyed cacheKey timeMs s) as (Hc & Hr & Hs & Hl);
      [by exists es |].
    split_and!; try done.
    intros n l Hn. destruct (Hl n l Hn) as [args ->]. exists args.
    unfold Red.lock_name. apply JSONFacts.string_app_assoc.
  - intros es s. apply MemFacts.run_keyed, MemFacts.init_keyed.
  - intros args args' H. unfold JSON_stringify. by rewrite H.
  - intros args args' Hp Hp'. split; [by apply Hkey |].
    by apply JSONFacts.JSON_stringify_inj.
  - intros a b Ha Hb. rewrite Hkey by (simpl; by rewrite ?Ha, ?Hb).
    simpl. split.
    + by intros [= -> _].
    + by intros ->.
  - done.
Qed.

Lemma cache_key_derivation_witness :
  Red.callers (Red.redisCache "ns" [VNum 1; VNum 2] Red.init) !! 0%nat
  = Some (Red.Caller "ns[1,2]" [VNum 1; VNum 2] Red.Getting)
  ∧ Mem.caches (Mem.memoryCache 1000 [VNum 1; VNum 2] Mem.init).1 !! "[1,2]"
    = Some (Mem.Entry None (Some 0%nat) VUndefined)
  ∧ "ns" +:+ JSON_stringify [VNum 1; VUndefined]
    = "ns" +:+ JSON_stringify [VNum 1; VNull]
  ∧ "ns" +:+ JSON_stringify [VNum 1; VNum 12]
    ≠ "ns" +:+ JSON_stringify [VNum 12; VNum 1]
  ∧ "ns" +:+ JSON_stringify [VOther false "null" (Some VNull)]
    = "ns" +:+ JSON_stringify [VNull].
Proof.
  destruct (cache_key_derivation "ns" 1000)
    as (Hcall & _ & _ & Hmem & _ & _ & _ & Hkey & Hswap & Hnull).
  split_and!.
  - by destruct (Hcall Red.init [VNum 1; VNum 2]) as (Hc & _).
  - destruct (Hmem Mem.init [VNum 1; VNum 2]) as (Hcold & _).
    apply Hcold. reflexivity.
  - apply (Hkey [VNum 1; VUndefined] [VNum 1; VNull]); reflexivity.
  - intros H. apply Hswap in H; [discriminate H | reflexivity | reflexivity].
  - apply Hnull.
Defined.

(** ** Further facts about the in-process backend *)

Module MemMore.
Import Mem MemInv.

Section Facts.

Variable timeMs : Z.

Implicit Types (s : state) (c : entry) (p q : nat).

(** What a call does: nothing, or it runs the executor on a key that has
    no entry, or on an entry that has expired and has no [promise]. *)
Lemma call_cases s args :
  let key := JSON_stringify args in
  (∃ o, memoryCache timeMs args s = (s, o))
  ∨ (∃ c, memoryCache timeMs args s = renew key args c s ∧
       ((caches s !! key = None ∧ c = Entry None None VUndefined)
        ∨ (caches s !! key = Some c ∧ e_promise c = None ∧
           ∃ a, e_at c = Some a ∧ timeMs < now s - a))).
Proof.
  intros key. unfold memoryCache. fold key.
  destruct (caches s !! key) as [c |] eqn:Hc.
  - destruct (e_at c) as [a |] eqn:Ha; simpl.
    + destruct (timeMs <? now s - a) eqn:Hlt; simpl; [| left; by eexists].
      destruct (e_promise c) as [p |] eqn:Hp; [left; by eexists |].
      right. exists c. split; [done |]. right. split_and!; try done.
      exists a. split; [done |]. by apply Z.ltb_lt.
    + left. by eexists.
  - right. eexists. split; [done |]. by left.
Qed.

(** *** The pace of the computations for a key *)

Lemma lookup_snoc {A} (l : list A) (x y : A) (i : nat) :
  (l ++ [x]) !! i = Some y →
  (l !! i = Some y ∧ (i < length l)%nat) ∨ (i = length l ∧ y = x).
Proof.
  intros H. apply lookup_app_Some in H as [H | [Hge H]].
  - left. split; [done |]. by eapply lookup_lt_Some.
  - right. apply list_lookup_singleton_Some in H as [Hi <-]. split; [lia | done].
Qed.

(** Replacing an executor by one with the same key and start time. *)
Lemma lookup_settled (l : list job) (q p : nat) (jq j' : job) (st : fstate) (pr : pstate) :
  l !! q = Some jq →
  <[q := Job (j_key jq) (j_args jq) (j_at jq) (j_hasOldCache jq) st pr]> l !! p
    = Some j' →
  ∃ j, l !! p = Some j ∧ j_key j' = j_key j ∧ j_at j' = j_at j ∧
       (p ≠ q → j' = j) ∧
       (p = q → j = jq ∧ j_f j' = st ∧ j_promise j' = pr).
Proof.
  intros Hq Hp. destruct (decide (p = q)) as [-> | Hne].
  - rewrite list_lookup_insert_eq in Hp by (by eapply lookup_lt_Some).
    injection Hp as <-. exists jq. by split_and!.
  - rewrite list_lookup_insert_ne in Hp by done. exists j'. by split_and!.
Qed.

Lemma init_paced : paced timeMs init.
Proof.
  unfold paced, marker_kept, latest, sequential, spaced, clocked.
  split_and!; intros; simpl in *; by rewrite ?lookup_nil in *.
Qed.

Lemma renew_paced key args c s :
  paced timeMs s →
  (caches s !! key = None ∧ c = Entry None None VUndefined)
  ∨ (caches s !! key = Some c ∧ e_promise c = None ∧
     ∃ a, e_at c = Some a ∧ timeMs < now s - a) →
  paced timeMs (renew key args c s).1.
Proof.
  intros (Hmark & Hlast & Hseq & Hsp & Hclk & Hord) Hcase.
  assert (∀ p j, jobs s !! p = Some j → j_key j = key →
            fulfilled j = true ∧
            ∃ a, caches s !! key = Some c ∧ e_at c = Some a ∧
                 j_at j ≤ a ∧ timeMs < now s - a) as Hold.
  { intros p j Hj Hk. destruct (fulfilled j) eqn:Hf.
    - split; [done |]. destruct (Hlast p j Hj Hf) as (c' & a' & Hc' & Ha' & Hle).
      rewrite Hk in Hc'.
      destruct Hcase as [[Hnone _] | (Hc & _ & a & Ha & Hlt)]; [congruence |].
      exists a. assert (c' = c) as -> by congruence.
      assert (a' = a) as -> by congruence. done.
    - exfalso. destruct (Hmark p j Hj Hf) as (c' & Hc' & Hp').
      rewrite Hk in Hc'.
      destruct Hcase as [[Hnone _] | (Hc & Hp & _)]; congruence. }
  unfold paced, marker_kept, latest, sequential, spaced, clocked. simpl.
  split_and!.
  - intros p j Hj Hf. apply lookup_snoc in Hj as [[Hj _] | [-> ->]].
    + destruct (Hmark p j Hj Hf) as (c' & Hc' & Hp').
      destruct (decide (key = j_key j)) as [Heq | Hne].
      * destruct (Hold p j Hj (eq_sym Heq)) as [Hful _]. congruence.
      * exists c'. by rewrite lookup_insert_ne.
    + simpl. rewrite lookup_insert_eq. by eexists.
  - intros p j Hj Hf. apply lookup_snoc in Hj as [[Hj _] | [-> ->]]; [| done].
    destruct (decide (key = j_key j)) as [Heq | Hne].
    + destruct (Hold p j Hj (eq_sym Heq)) as (_ & a & Hc & Ha & Hle & _).
      rewrite <- Heq, lookup_insert_eq. eexists _, a. by split_and!.
    + destruct (Hlast p j Hj Hf) as (c' & a' & Hc' & Ha' & Hle).
      exists c', a'. by rewrite lookup_insert_ne.
  - intros p q jp jq Hp Hq Hlt Hk.
    apply lookup_snoc in Hp as [[Hp Hlp] | [-> ->]];
      apply lookup_snoc in Hq as [[Hq Hlq] | [-> ->]]; try lia.
    + by eapply Hseq.
    + by destruct (Hold p jp Hp Hk).
  - intros p q jp jq Hp Hq Hlt Hk.
    apply lookup_snoc in Hp as [[Hp Hlp] | [-> ->]];
      apply lookup_snoc in Hq as [[Hq Hlq] | [-> ->]]; try lia.
    + by eapply Hsp.
    + destruct (Hold p jp Hp Hk) as (_ & a & _ & _ & Hle & Hgap). simpl. lia.
  - intros p j Hj. apply lookup_snoc in Hj as [[Hj _] | [-> ->]].
    + by eapply Hclk.
    + simpl. lia.
  - intros p q jp jq Hp Hq Hle.
    apply lookup_snoc in Hp as [[Hp Hlp] | [-> ->]];
      apply lookup_snoc in Hq as [[Hq Hlq] | [-> ->]]; try lia.
    + by eapply Hord.
    + simpl. by eapply Hclk.
Qed.

Lemma call_paced args s : paced timeMs s → paced timeMs (memoryCache timeMs args s).1.
Proof.
  intros H. destruct (call_cases s args) as [[o ->] | (c & -> & Hcase)]; [done |].
  by apply renew_paced.
Qed.

Lemma f_resolved_paced q v s : paced timeMs s → paced timeMs (f_resolved q v s).
Proof.
  intros (Hmark & Hlast & Hseq & Hsp & Hclk & Hord). unfold f_resolved.
  destruct (jobs s !! q) as [jq |] eqn:Hjq; [| done].
  destruct (j_f jq) eqn:Hrun; try done.
  assert (fulfilled jq = false) as Hnf by (unfold fulfilled; by rewrite Hrun).
  unfold paced, marker_kept, latest, sequential, spaced, clocked. simpl.
  split_and!.
  - intros p j Hj Hf.
    apply (lookup_settled _ _ _ _ _ _ _ Hjq) in Hj
      as (j0 & Hj0 & Hk & Ha & Hne & Heq).
    destruct (decide (p = q)) as [-> | Hpq];
      [destruct (Heq eq_refl) as (_ & Hst & _); unfold fulfilled in Hf;
       by rewrite Hst in Hf |].
    rewrite (Hne Hpq) in *.
    destruct (Hmark p j0 Hj0 Hf) as (c' & Hc' & Hp').
    destruct (Hmark q jq Hjq Hnf) as (c'' & Hc'' & Hp'').
    assert (j_key jq ≠ j_key j0) by (intros E; rewrite E in Hc''; congruence).
    exists c'. by rewrite lookup_insert_ne.
  - intros p j Hj Hf.
    apply (lookup_settled _ _ _ _ _ _ _ Hjq) in Hj
      as (j0 & Hj0 & Hk & Ha & Hne & Heq).
    destruct (decide (j_key jq = j_key j)) as [E | E].
    + rewrite <- E, lookup_insert_eq. eexists _, _. split_and!; [done | done |].
      simpl. rewrite Ha.
      destruct (Nat.lt_trichotomy p q) as [Hlt | [-> | Hgt]].
      * eapply (Hord p q); eauto. lia.
      * destruct (Heq eq_refl) as [-> _]. lia.
      * exfalso. rewrite (Hne ltac:(lia)) in *.
        assert (fulfilled jq = true); [| congruence].
        eapply (Hseq q p); eauto.
    + destruct (decide (p = q)) as [-> | Hpq];
        [destruct (Heq eq_refl) as [-> _]; congruence |].
      rewrite (Hne Hpq) in *.
      destruct (Hlast p j0 Hj0 Hf) as (c' & a' & Hc' & Ha' & Hle).
      exists c', a'. by rewrite lookup_insert_ne.
  - intros p q' jp jq' Hp Hq' Hlt Hk.
    apply (lookup_settled _ _ _ _ _ _ _ Hjq) in Hp
      as (jp0 & Hp0 & Hkp & Hap & Hnep & Heqp).
    apply (lookup_settled _ _ _ _ _ _ _ Hjq) in Hq'
      as (jq0 & Hq0 & Hkq & Haq & _ & _).
    destruct (decide (p = q)) as [-> | Hpq].
    + destruct (Heqp eq_refl) as (_ & Hst & _). unfold fulfilled. by rewrite Hst.
    + rewrite (Hnep Hpq). eapply (Hseq p q'); eauto. congruence.
  - intros p q' jp jq' Hp Hq' Hlt Hk.
    apply (lookup_settled _ _ _ _ _ _ _ Hjq) in Hp
      as (jp0 & Hp0 & Hkp & Hap & _ & _).
    apply (lookup_settled _ _ _ _ _ _ _ Hjq) in Hq'
      as (jq0 & Hq0 & Hkq & Haq & _ & _).
    rewrite Hap, Haq. eapply (Hsp p q'); eauto. congruence.
  - intros p j Hj.
    apply (lookup_settled _ _ _ _ _ _ _ Hjq) in Hj
      as (j0 & Hj0 & _ & Ha & _ & _).
    rewrite Ha. by eapply Hclk.
  - intros p q' jp jq' Hp Hq' Hle.
    apply (lookup_settled _ _ _ _ _ _ _ Hjq) in Hp
      as (jp0 & Hp0 & _ & Hap & _ & _).
    apply (lookup_settled _ _ _ _ _ _ _ Hjq) in Hq'
      as (jq0 & Hq0 & _ & Haq & _ & _).
    rewrite Hap, Haq. by eapply (Hord p q').
Qed.

Lemma f_rejected_paced q s : paced timeMs s → paced timeMs (f_rejected q s).
Proof.
  intros (Hmark & Hlast & Hseq & Hsp & Hclk & Hord). unfold f_rejected.
  destruct (jobs s !! q) as [jq |] eqn:Hjq; [| done].
  destruct (j_f jq) eqn:Hrun; try done.
  assert (fulfilled jq = false) as Hnf by (unfold fulfilled; by rewrite Hrun).
  unfold paced, marker_kept, latest, sequential, spaced, clocked. simpl.
  split_and!.
  - intros p j Hj Hf.
    apply (lookup_settled _ _ _ _ _ _ _ Hjq) in Hj
      as (j0 & Hj0 & Hk & Ha & Hne & Heq).
    rewrite Hk. destruct (decide (p = q)) as [-> | Hpq].
    + destruct (Heq eq_refl) as [-> _]. by apply Hmark.
    + rewrite (Hne Hpq) in Hf. by apply Hmark.
  - intros p j Hj Hf.
    apply (lookup_settled _ _ _ _ _ _ _ Hjq) in Hj
      as (j0 & Hj0 & Hk & Ha & Hne & Heq).
    destruct (decide (p = q)) as [-> | Hpq];
      [destruct (Heq eq_refl) as (_ & Hst & _); unfold fulfilled in Hf;
       by rewrite Hst in Hf |].
    rewrite (Hne Hpq) in *. by eapply Hlast.
  - intros p q' jp jq' Hp Hq' Hlt Hk.
    apply (lookup_settled _ _ _ _ _ _ _ Hjq) in Hp
      as (jp0 & Hp0 & Hkp & Hap & Hnep & Heqp).
    apply (lookup_settled _ _ _ _ _ _ _ Hjq) in Hq'
      as (jq0 & Hq0 & Hkq & Haq & _ & _).
    assert (fulfilled jp0 = true) as Hful
      by (eapply (Hseq p q'); eauto; congruence).
    destruct (decide (p = q)) as [-> | Hpq].
    + destruct (Heqp eq_refl) as [-> _]. congruence.
    + by rewrite (Hnep Hpq).
  - intros p q' jp jq' Hp Hq' Hlt Hk.
    apply (lookup_settled _ _ _ _ _ _ _ Hjq) in Hp
      as (jp0 & Hp0 & Hkp & Hap & _ & _).
    apply (lookup_settled _ _ _ _ _ _ _ Hjq) in Hq'
      as (jq0 & Hq0 & Hkq & Haq & _ & _).
    rewrite Hap, Haq. eapply (Hsp p q'); eauto. congruence.
  - intros p j Hj.
    apply (lookup_settled _ _ _ _ _ _ _ Hjq) in Hj
      as (j0 & Hj0 & _ & Ha & _ & _).
    rewrite Ha. by eapply Hclk.
  - intros p q' jp jq' Hp Hq' Hle.
    apply (lookup_settled _ _ _ _ _ _ _ Hjq) in Hp
      as (jp0 & Hp0 & _ & Hap & _ & _).
    apply (lookup_settled _ _ _ _ _ _ _ Hjq) in Hq'
      as (jq0 & Hq0 & _ & Haq & _ & _).
    rewrite Hap, Haq. by eapply (Hord p q').
Qed.

Lemma step_paced s e : paced timeMs s → paced timeMs (step timeMs s e).1.
Proof.
  intros H. destruct e as [args | q v | q | d].
  - rewrite MemFacts.step_call. by apply call_paced.
  - by apply f_resolved_paced.
  - by apply f_rejected_paced.
  - destruct H as (Hmark & Hlast & Hseq & Hsp & Hclk & Hord).
    unfold paced, clocked. split_and!; try done. simpl.
    intros p j Hj. specialize (Hclk p j Hj). lia.
Qed.

Lemma run_paced s es : paced timeMs s → paced timeMs (run timeMs s es).1.
Proof.
  revert s. induction es as [| e es IH]; intros s H; [done |].
  rewrite MemFacts.run_cons_state. by apply IH, step_paced.
Qed.

(** *** Where the values come from *)

Lemma init_sourced : sourced init.
Proof.
  unfold sourced. split_and!; intros; simpl in *;
    by rewrite ?lookup_empty, ?lookup_nil in *.
Qed.

Lemma renew_sourced key args c s :
  sourced s →
  (caches s !! key = None ∧ c = Entry None None VUndefined)
  ∨ (caches s !! key = Some c ∧ e_promise c = None ∧
     ∃ a, e_at c = Some a ∧ timeMs < now s - a) →
  sourced (renew key args c s).1.
Proof.
  intros (Hent & Hpro & Hmk) Hcase.
  assert ((e_at c = None ∧ e_value c = VUndefined)
     ∨ ∃ p j, jobs s !! p = Some j ∧ j_key j = key ∧
              e_at c = Some (j_at j) ∧ j_f j = Fulfilled (e_value c)) as Hc.
  { destruct Hcase as [[_ ->] | (Hc & _)]; [by left | by apply Hent]. }
  unfold sourced. simpl. split_and!.
  - intros k c0 Hk. destruct (decide (key = k)) as [<- | Hne].
    + rewrite lookup_insert_eq in Hk. injection Hk as <-. simpl.
      destruct Hc as [? | (p & j & Hj & ?)]; [by left |].
      right. exists p, j. split; [by apply lookup_app_l_Some | done].
    + rewrite lookup_insert_ne in Hk by done.
      destruct (Hent k c0 Hk) as [? | (p & j & Hj & ?)]; [by left |].
      right. exists p, j. split; [by apply lookup_app_l_Some | done].
  - intros p j v Hj Hres. apply lookup_snoc in Hj as [[Hj _] | [-> ->]].
    + destruct (Hpro p j v Hj Hres) as (p' & j' & Hj' & ?).
      exists p', j'. split; [by apply lookup_app_l_Some | done].
    + simpl in *. destruct (truthy (e_value c)) eqn:Htr; [| done].
      injection Hres as <-.
      destruct Hc as [[_ Hv] | (p & j & Hj & Hkj & _ & Hf)];
        [by rewrite Hv in Htr |].
      exists p, j. split; [by apply lookup_app_l_Some | done].
  - intros k c0 p Hk Hp. destruct (decide (key = k)) as [<- | Hne].
    + rewrite lookup_insert_eq in Hk. injection Hk as <-. simpl in Hp.
      injection Hp as <-. eexists. split; [by apply list_lookup_middle | done].
    + rewrite lookup_insert_ne in Hk by done.
      destruct (Hmk k c0 p Hk Hp) as (j & Hj & ?).
      exists j. split; [by apply lookup_app_l_Some | done].
Qed.

Lemma f_resolved_sourced q v s : sourced s → sourced (f_resolved q v s).
Proof.
  intros (Hent & Hpro & Hmk). unfold f_resolved.
  destruct (jobs s !! q) as [jq |] eqn:Hjq; [| done].
  destruct (j_f jq) eqn:Hrun; try done.
  assert (∀ p j w, jobs s !! p = Some j → j_f j = Fulfilled w →
            <[q := Job (j_key jq) (j_args jq) (j_at jq) (j_hasOldCache jq)
                     (Fulfilled v)
                     (if j_hasOldCache jq then j_promise jq else Resolved v)]>
              (jobs s) !! p = Some j) as Hkeep.
  { intros p j w Hj Hf. rewrite list_lookup_insert_ne; [done |].
    intros ->. congruence. }
  unfold sourced. simpl. split_and!.
  - intros k c0 Hk. destruct (decide (j_key jq = k)) as [<- | Hne].
    + rewrite lookup_insert_eq in Hk. injection Hk as <-. simpl. right.
      eexists q, _.
      split; [apply list_lookup_insert_eq; by eapply lookup_lt_Some | done].
    + rewrite lookup_insert_ne in Hk by done.
      destruct (Hent k c0 Hk) as [? | (p & j & Hj & ? & ? & Hf)]; [by left |].
      right. exists p, j. split; [by eapply Hkeep | done].
  - intros p j w Hj Hres.
    apply (lookup_settled _ _ _ _ _ _ _ Hjq) in Hj
      as (j0 & Hj0 & Hk & _ & Hne & Heq).
    destruct (decide (p = q)) as [-> | Hpq].
    + destruct (Heq eq_refl) as (-> & _ & Hpr). rewrite Hpr in Hres.
      destruct (j_hasOldCache jq).
      * destruct (Hpro q jq w Hjq Hres) as (p' & j' & Hj' & ? & Hf).
        exists p', j'. split; [by eapply Hkeep | split; congruence].
      * injection Hres as <-. eexists q, _.
        split; [apply list_lookup_insert_eq; by eapply lookup_lt_Some | done].
    + rewrite (Hne Hpq) in *.
      destruct (Hpro p j0 w Hj0 Hres) as (p' & j' & Hj' & ? & Hf).
      exists p', j'. split; [by eapply Hkeep | done].
  - intros k c0 p Hk Hp. destruct (decide (j_key jq = k)) as [<- | Hne].
    + rewrite lookup_insert_eq in Hk. by injection Hk as <-.
    + rewrite lookup_insert_ne in Hk by done.
      destruct (Hmk k c0 p Hk Hp) as (j & Hj & Hkj).
      exists j. split; [| done]. rewrite list_lookup_insert_ne; [done |].
      intros ->. congruence.
Qed.

Lemma f_rejected_sourced q s : sourced s → sourced (f_rejected q s).
Proof.
  intros (Hent & Hpro & Hmk). unfold f_rejected.
  destruct (jobs s !! q) as [jq |] eqn:Hjq; [| done].
  destruct (j_f jq) eqn:Hrun; try done.
  assert (∀ p j w, jobs s !! p = Some j → j_f j = Fulfilled w →
            <[q := Job (j_key jq) (j_args jq) (j_at jq) (j_hasOldCache jq)
                     Failed (j_promise jq)]> (jobs s) !! p = Some j) as Hkeep.
  { intros p j w Hj Hf. rewrite list_lookup_insert_ne; [done |].
    intros ->. congruence. }
  unfold sourced. simpl. split_and!.
  - intros k c0 Hk.
    destruct (Hent k c0 Hk) as [? | (p & j & Hj & ? & ? & Hf)]; [by left |].
    right. exists p, j. split; [by eapply Hkeep | done].
  - intros p j w Hj Hres.
    apply (lookup_settled _ _ _ _ _ _ _ Hjq) in Hj
      as (j0 & Hj0 & Hk & _ & Hne & Heq).
    assert (j_promise j0 = Resolved w) as Hres0.
    { destruct (decide (p = q)) as [-> | Hpq].
      - destruct (Heq eq_refl) as (-> & _ & Hpr). congruence.
      - by rewrite <- (Hne Hpq). }
    destruct (Hpro p j0 w Hj0 Hres0) as (p' & j' & Hj' & ? & Hf).
    exists p', j'. split; [by eapply Hkeep | split; congruence].
  - intros k c0 p Hk Hp. destruct (Hmk k c0 p Hk Hp) as (j & Hj & Hkj).
    destruct (decide (p = q)) as [-> | Hpq].
    + eexists. split; [apply list_lookup_insert_eq; by eapply lookup_lt_Some |].
      simpl. congruence.
    + exists j. by rewrite list_lookup_insert_ne.
Qed.

Lemma step_sourced s e : sourced s → sourced (step timeMs s e).1.
Proof.
  intros H. destruct e as [args | q v | q | d].
  - rewrite MemFacts.step_call.
    destruct (call_cases s args) as [[o ->] | (c & -> & Hcase)]; [done |].
    by apply renew_sourced.
  - by apply f_resolved_sourced.
  - by apply f_rejected_sourced.
  - done.
Qed.

Lemma run_sourced s es : sourced s → sourced (run timeMs s es).1.
Proof.
  revert s. induction es as [| e es IH]; intros s H; [done |].
  rewrite MemFacts.run_cons_state. by apply IH, step_sourced.
Qed.

(** *** Keys do not interfere, and nothing is removed *)

Lemma step_other_key s e k :
  key_of_event s e ≠ Some k →
  caches (step timeMs s e).1 !! k = caches s !! k
  ∧ ∀ p j, j_key j = k →
      (jobs (step timeMs s e).1 !! p = Some j ↔ jobs s !! p = Some j).
Proof.
  intros Hk. destruct e as [args | q v | q | d].
  - rewrite MemFacts.step_call. simpl in Hk.
    assert (JSON_stringify args ≠ k) as Hne by congruence.
    split; [by apply MemFacts.call_other_key |].
    intros p j Hj.
    destruct (MemFacts.call_jobs timeMs s args) as [-> | (j' & -> & Hk' & _)];
      [done |].
    split.
    + intros H. apply lookup_snoc in H as [[H _] | [_ ->]]; [done | congruence].
    + apply lookup_app_l_Some.
  - simpl in *. unfold f_resolved.
    destruct (jobs s !! q) as [jq |] eqn:Hjq; [| done].
    destruct (j_f jq); try done. simpl in *.
    assert (j_key jq ≠ k) as Hne by congruence.
    split; [by rewrite lookup_insert_ne |].
    intros p j Hj. destruct (decide (p = q)) as [-> | Hpq].
    + rewrite list_lookup_insert_eq by (by eapply lookup_lt_Some).
      rewrite Hjq. split; intros [= <-]; simpl in *; congruence.
    + by rewrite list_lookup_insert_ne.
  - simpl in *. unfold f_rejected.
    destruct (jobs s !! q) as [jq |] eqn:Hjq; [| done].
    destruct (j_f jq); try done. simpl in *.
    assert (j_key jq ≠ k) as Hne by congruence.
    split; [done |].
    intros p j Hj. destruct (decide (p = q)) as [-> | Hpq].
    + rewrite list_lookup_insert_eq by (by eapply lookup_lt_Some).
      rewrite Hjq. split; intros [= <-]; simpl in *; congruence.
    + by rewrite list_lookup_insert_ne.
  - done.
Qed.

Lemma step_keeps_entry s e k c :
  caches s !! k = Some c →
  ∃ c', caches (step timeMs s e).1 !! k = Some c' ∧
        (is_Some (e_at c) → is_Some (e_at c')).
Proof.
  intros Hc.
  assert (∀ k' c', ∃ c'', <[k' := c']> (caches s) !! k = Some c'' ∧
            ((k' = k → is_Some (e_at c) → is_Some (e_at c')) →
             is_Some (e_at c) → is_Some (e_at c''))) as Hins.
  { intros k' c'. destruct (decide (k' = k)) as [-> | Hne].
    - rewrite lookup_insert_eq. eexists. split; [done |]. auto.
    - rewrite lookup_insert_ne by done. exists c. split; [done |]. auto. }
  destruct e as [args | q v | q | d].
  - rewrite MemFacts.step_call.
    destruct (call_cases s args) as [[o ->] | (c0 & -> & Hcase)]; [by exists c |].
    simpl.
    destruct (Hins (JSON_stringify args)
                (Entry (e_at c0) (Some (length (jobs s))) (e_value c0)))
      as (c'' & Hc'' & Hat).
    exists c''. split; [done |]. apply Hat. intros Heq Hsome. subst k. simpl.
    destruct Hcase as [[Hnone _] | (Hc0 & _)]; [congruence |].
    by assert (c0 = c) as -> by congruence.
  - simpl. unfold f_resolved.
    destruct (jobs s !! q) as [jq |]; [| by exists c].
    destruct (j_f jq); try by exists c. simpl.
    destruct (Hins (j_key jq) (Entry (Some (j_at jq)) None v))
      as (c'' & Hc'' & Hat).
    exists c''. split; [done |]. apply Hat. intros _ _. by eexists.
  - simpl. unfold f_rejected.
    destruct (jobs s !! q) as [jq |]; [| by exists c].
    destruct (j_f jq); by exists c.
  - by exists c.
Qed.

(** The key of an executor does not change. *)
Lemma job_key_run s es p j :
  jobs s !! p = Some j →
  ∃ j', jobs (run timeMs s es).1 !! p = Some j' ∧ j_key j' = j_key j
        ∧ j_args j' = j_args j.
Proof.
  revert s j. induction es as [| e es IH]; intros s j Hj; [by exists j |].
  rewrite MemFacts.run_cons_state.
  assert (∃ j1, jobs (step timeMs s e).1 !! p = Some j1 ∧ j_key j1 = j_key j
                ∧ j_args j1 = j_args j) as (j1 & Hj1 & Hk1 & Ha1).
  { destruct e as [args | q v | q | d].
    - rewrite MemFacts.step_call. exists j.
      split; [by apply MemFacts.call_lookup_job | done].
    - simpl. unfold f_resolved.
      destruct (jobs s !! q) as [jq |] eqn:Hjq; [| by exists j].
      destruct (j_f jq); try by exists j. simpl.
      destruct (decide (p = q)) as [-> | Hpq].
      + rewrite list_lookup_insert_eq by (by eapply lookup_lt_Some).
        eexists. split; [done |]. simpl. split; congruence.
      + rewrite list_lookup_insert_ne by done. by exists j.
    - simpl. unfold f_rejected.
      destruct (jobs s !! q) as [jq |] eqn:Hjq; [| by exists j].
      destruct (j_f jq); try by exists j. simpl.
      destruct (decide (p = q)) as [-> | Hpq].
      + rewrite list_lookup_insert_eq by (by eapply lookup_lt_Some).
        eexists. split; [done |]. simpl. split; congruence.
      + rewrite list_lookup_insert_ne by done. by exists j.
    - by exists j. }
  destruct (IH _ j1 Hj1) as (j' & Hj' & Hk' & Ha').
  exists j'. split; [done |]. split; congruence.
Qed.

(** What a call hands back is filed under the key of its arguments. *)
Lemma outcome_sourced s args :
  sourced s →
  let key := JSON_stringify args in
  let s1 := (memoryCache timeMs args s).1 in
  match (memoryCache timeMs args s).2 with
  | Value v =>
      v = VUndefined
      ∨ ∃ p j, jobs s1 !! p = Some j ∧ j_key j = key ∧ j_f j = Fulfilled v
  | Promise p => ∃ j, jobs s1 !! p = Some j ∧ j_key j = key
  end.
Proof.
  intros (Hent & Hpro & Hmk) key s1. subst s1. unfold memoryCache. fold key.
  destruct (caches s !! key) as [c |] eqn:Hc.
  - assert (∀ v, v = e_value c → v = VUndefined
       ∨ ∃ p j, jobs s !! p = Some j ∧ j_key j = key ∧ j_f j = Fulfilled v)
      as Hval.
    { intros v ->. destruct (Hent key c Hc) as [[_ ->] | (p & j & ? & ? & _ & ?)];
        [by left | right; by exists p, j]. }
    destruct (negb (isExpired (now s) (e_at c) timeMs)); simpl; [by apply Hval |].
    destruct (e_promise c) as [p |] eqn:Hp; simpl.
    + destruct (truthy (e_value c)); [by apply Hval | by eapply Hmk].
    + eexists. split; [by apply list_lookup_middle | done].
  - simpl. eexists. split; [by apply list_lookup_middle | done].
Qed.

End Facts.

End MemMore.

(** ** Further properties of the in-process backend *)

(** X1.  [f] is called again for a key only after its previous call for
    the key has resolved, and more than [timeMs] after that previous call
    was made. *)
Theorem computations_are_spaced timeMs es p q jp jq :
  let s := (Mem.run timeMs Mem.init es).1 in
  Mem.jobs s !! p = Some jp → Mem.jobs s !! q = Some jq →
  (p < q)%nat → Mem.j_key jp = Mem.j_key jq →
  (∃ v, Mem.j_f jp = Mem.Fulfilled v)
  ∧ timeMs < Mem.j_at jq - Mem.j_at jp.
Proof.
  intros s Hp Hq Hlt Hk.
  destruct (MemMore.run_paced timeMs Mem.init es (MemMore.init_paced timeMs))
    as (_ & _ & Hseq & Hsp & _).
  split; [| by eapply (Hsp p q)].
  pose proof (Hseq p q jp jq Hp Hq Hlt Hk) as Hf. unfold MemInv.fulfilled in Hf.
  destruct (Mem.j_f jp); by eauto.
Qed.

Lemma computations_are_spaced_witness :
  (∃ v, Mem.Fulfilled (VStr "a") = Mem.Fulfilled v) ∧ 1000 < 1001 - 0.
Proof.
  apply (computations_are_spaced 1000
           [Mem.Call [VNum 7]; Mem.FResolve 0 (VStr "a"); Mem.Tick 1001;
            Mem.Call [VNum 7]]
           0%nat 1%nat
           (Mem.Job "[7]" [VNum 7] 0 false (Mem.Fulfilled (VStr "a"))
              (Mem.Resolved (VStr "a")))
           (Mem.Job "[7]" [VNum 7] 1001 true Mem.Running
              (Mem.Resolved (VStr "a")))).
  - reflexivity.
  - reflexivity.
  - lia.
  - reflexivity.
Defined.

(** X2.  Whatever a call resolves its caller with is [undefined] or a
    value that [f] resolved with in an executor filed under the key of the
    call: an executor started by a call whose arguments are written as the
    call's are.  Arguments that are written alike are served each other's
    results. *)
Theorem served_values_come_from_f timeMs es args es' v :
  let s := (Mem.run timeMs Mem.init es).1 in
  let o := (Mem.memoryCache timeMs args s).2 in
  let s' := (Mem.run timeMs (Mem.memoryCache timeMs args s).1 es').1 in
  Mem.settled s' o = Some v →
  v = VUndefined
  ∨ ∃ p j, Mem.jobs s' !! p = Some j ∧ Mem.j_f j = Mem.Fulfilled v
           ∧ Mem.j_key j = JSON_stringify args
           ∧ JSON_stringify (Mem.j_args j) = JSON_stringify args.
Proof.
  intros s o s' Hset.
  assert (Mem.keyed s') as [Hkeyed _].
  { subst s'. apply MemFacts.run_keyed.
    rewrite <- (MemFacts.step_call timeMs s args).
    apply MemFacts.step_keyed. apply MemFacts.run_keyed, MemFacts.init_keyed. }
  assert (MemInv.sourced s) as Hsrc
    by apply MemMore.run_sourced, MemMore.init_sourced.
  assert (MemInv.sourced s') as (_ & Hpro & _).
  { subst s'. apply MemMore.run_sourced.
    rewrite <- (MemFacts.step_call timeMs s args). by apply MemMore.step_sourced. }
  assert (∀ p j, Mem.jobs s' !! p = Some j →
            Mem.j_key j = JSON_stringify args → Mem.j_f j = Mem.Fulfilled v →
            ∃ p j, Mem.jobs s' !! p = Some j ∧ Mem.j_f j = Mem.Fulfilled v
              ∧ Mem.j_key j = JSON_stringify args
              ∧ JSON_stringify (Mem.j_args j) = JSON_stringify args) as Hfin.
  { intros p j Hj Hk Hf. exists p, j. split_and!; try done.
    rewrite <- Hk. symmetry. by eapply Hkeyed. }
  pose proof (MemMore.outcome_sourced timeMs s args Hsrc) as Ho.
  cbv zeta in Ho. fold o in Ho. destruct o as [v0 | p0]; simpl in Hset.
  - injection Hset as ->. destruct Ho as [-> | (p & j & Hj & Hk & Hf)];
      [by left | right].
    eapply (Hfin p j); try done.
    subst s'. apply MemFacts.settled_job_run; [done | congruence].
  - right. destruct Ho as (j0 & Hj0 & Hk0).
    destruct (MemMore.job_key_run timeMs _ es' p0 j0 Hj0) as (j1 & Hj1 & Hk1 & _).
    fold s' in Hj1. rewrite Hj1 in Hset.
    destruct (Mem.j_promise j1) as [| w] eqn:Hpr; [done |]. injection Hset as ->.
    destruct (Hpro p0 j1 v Hj1 Hpr) as (p' & j' & Hj' & Hk' & Hf').
    eapply (Hfin p' j'); try done. congruence.
Qed.

Lemma served_values_come_from_f_witness :
  VStr "a" = VUndefined
  ∨ ∃ p j,
      Mem.jobs
        (Mem.run 1000
           (Mem.memoryCache 1000 [VNull]
              (Mem.run 1000 Mem.init
                 [Mem.Call [VOther false "null" (Some VNull)];
                  Mem.FResolve 0 (VStr "a")]).1).1
           [Mem.Tick 1]).1 !! p = Some j
      ∧ Mem.j_f j = Mem.Fulfilled (VStr "a")
      ∧ Mem.j_key j = JSON_stringify [VNull]
      ∧ JSON_stringify (Mem.j_args j) = JSON_stringify [VNull].
Proof.
  apply (served_values_come_from_f 1000
           [Mem.Call [VOther false "null" (Some VNull)];
            Mem.FResolve 0 (VStr "a")]
           [VNull] [Mem.Tick 1] (VStr "a")).
  reflexivity.
Defined.

(** The state in which a computation started by a call resolves. *)
Lemma started_computation timeMs es0 args es1 :
  let key := JSON_stringify args in
  let s0 := (Mem.run timeMs Mem.init es0).1 in
  let p := length (Mem.jobs s0) in
  let s1 := (Mem.run timeMs (Mem.memoryCache timeMs args s0).1 es1).1 in
  Mem.starts_computation timeMs args s0 →
  (∃ j, Mem.jobs s1 !! p = Some j ∧ Mem.j_f j = Mem.Running) →
  ∃ c j,
    (Mem.caches s0 !! key = None ∧ c = Mem.Entry None None VUndefined
     ∨ Mem.caches s0 !! key = Some c)
    ∧ Mem.held_by s1 key
        (Mem.Entry (Mem.e_at c) (Some p) (Mem.e_value c)) p j
    ∧ Mem.j_key j = key ∧ Mem.j_at j = Mem.now s0
    ∧ Mem.j_f j = Mem.Running
    ∧ Mem.j_hasOldCache j = truthy (Mem.e_value c)
    ∧ Mem.j_promise j =
        (if truthy (Mem.e_value c) then Mem.Resolved (Mem.e_value c)
         else Mem.Pending).
Proof.
  intros key s0 p s1 Hstart Hrun.
  assert (Mem.marked s0) as Hm
    by apply MemFacts.run_marked, MemFacts.init_marked.
  unfold Mem.starts_computation in Hstart. subst s1.
  destruct (MemMore.call_cases timeMs s0 args) as [[o Ho] | (c & Hc & Hcase)].
  { rewrite Ho in Hstart. simpl in Hstart. lia. }
  rewrite Hc in *. fold key in Hcase.
  destruct (MemFacts.renew_held key args c s0) as (Hh & Hn & _).
  assert (∀ c', Mem.caches s0 !! key = Some c' → Mem.e_promise c' = None)
    as Hfree.
  { intros c' Hc'. destruct Hcase as [[Hnone _] | (Hc0 & Hp0 & _)]; congruence. }
  destruct (MemFacts.held_run_running timeMs _ _ _ _ _ es1 _
              (MemFacts.renew_marked key args c s0 Hm Hfree) Hh Hn Hrun)
    as [Hh1 _].
  eexists c, _. split; [| split; [exact Hh1 | by split_and!]].
  destruct Hcase as [[? ?] | (? & _)]; [by left | by right].
Qed.

(** X3.  The [at] of a record is the time of the call that started the
    computation, not the time [f] resolved.  A call made no later than
    [timeMs] after that start is served the value; but when [f] took longer
    than [timeMs], the record is stale from the moment it is written, and
    the next call starts a computation again. *)
Theorem record_time_is_start_time timeMs es0 args es1 v :
  let key := JSON_stringify args in
  let s0 := (Mem.run timeMs Mem.init es0).1 in
  let p := length (Mem.jobs s0) in
  let s1 := (Mem.run timeMs (Mem.memoryCache timeMs args s0).1 es1).1 in
  let s2 := Mem.f_resolved p v s1 in
  Mem.starts_computation timeMs args s0 →
  (∃ j, Mem.jobs s1 !! p = Some j ∧ Mem.j_f j = Mem.Running) →
  Mem.caches s2 !! key = Some (Mem.Entry (Some (Mem.now s0)) None v)
  ∧ (Mem.now s1 - Mem.now s0 ≤ timeMs →
     Mem.memoryCache timeMs args s2 = (s2, Mem.Value v))
  ∧ (timeMs < Mem.now s1 - Mem.now s0 →
     Mem.starts_computation timeMs args s2).
Proof.
  intros key s0 p s1 s2 Hstart Hrun.
  destruct (started_computation timeMs es0 args es1 Hstart Hrun)
    as (c & j & _ & (_ & _ & Hj & _) & Hk & Hat & Hf & _).
  fold s0 p s1 in Hj.
  assert (Mem.caches s2 !! key = Some (Mem.Entry (Some (Mem.now s0)) None v)
          ∧ Mem.now s2 = Mem.now s1) as [Hc2 Hnow].
  { subst s2. unfold Mem.f_resolved. rewrite Hj, Hf. simpl.
    by rewrite Hk, Hat, lookup_insert_eq. }
  clearbody s2. split_and!; [done | |].
  - intros Hle.
    apply (MemFacts.call_fresh timeMs s2 args _ (Mem.now s0) Hc2 eq_refl).
    by rewrite Hnow.
  - intros Hlt. unfold Mem.starts_computation.
    rewrite (MemFacts.call_stale timeMs s2 args _ (Mem.now s0) Hc2 eq_refl eq_refl)
      by (by rewrite Hnow).
    simpl. rewrite length_app. simpl. lia.
Qed.

Lemma record_time_is_start_time_witness :
  let s2 :=
    (Mem.run 1000 Mem.init
       [Mem.Tick 50; Mem.Call [VNum 7]; Mem.Tick 3000;
        Mem.FResolve 0 (VStr "late")]).1 in
  Mem.caches s2 !! "[7]" = Some (Mem.Entry (Some 50) None (VStr "late"))
  ∧ (3050 - 50 ≤ 1000 →
     Mem.memoryCache 1000 [VNum 7] s2 = (s2, Mem.Value (VStr "late")))
  ∧ (1000 < 3050 - 50 → Mem.starts_computation 1000 [VNum 7] s2).
Proof.
  apply (record_time_is_start_time 1000 [Mem.Tick 50] [VNum 7]
           [Mem.Tick 3000] (VStr "late")).
  - reflexivity.
  - eexists. split; reflexivity.
Defined.

(** X4.  A renewal serves the old value throughout.  When a call finds a
    stale record with a truthy value and starts a renewal, every call for
    the key made while [f] is running returns the old value and changes
    nothing; when [f] resolves the record holds the new value; and the
    promise handed to the caller that started the renewal keeps the old
    value. *)
Theorem renewal_serves_old_value timeMs es0 args a v es1 v' :
  let key := JSON_stringify args in
  let s0 := (Mem.run timeMs Mem.init es0).1 in
  let p := length (Mem.jobs s0) in
  let s1 := (Mem.run timeMs (Mem.memoryCache timeMs args s0).1 es1).1 in
  let s2 := Mem.f_resolved p v' s1 in
  Mem.caches s0 !! key = Some (Mem.Entry (Some a) None v) →
  timeMs < Mem.now s0 - a →
  truthy v = true →
  (∃ j, Mem.jobs s1 !! p = Some j ∧ Mem.j_f j = Mem.Running) →
  Mem.memoryCache timeMs args s1 = (s1, Mem.Value v)
  ∧ Mem.caches s2 !! key = Some (Mem.Entry (Some (Mem.now s0)) None v')
  ∧ Mem.settled s2 (Mem.Promise p) = Some v.
Proof.
  intros key s0 p s1 s2 Hc Hlt Hv Hrun.
  assert (Mem.starts_computation timeMs args s0) as Hstart.
  { unfold Mem.starts_computation.
    rewrite (MemFacts.call_stale timeMs s0 args _ a Hc eq_refl eq_refl Hlt).
    simpl. rewrite length_app. simpl. lia. }
  destruct (started_computation timeMs es0 args es1 Hstart Hrun)
    as (c & j & Hc0 & Hh & Hk & Hat & Hf & Hold & Hpr).
  fold key s0 p s1 in Hh, Hc0.
  assert (c = Mem.Entry (Some a) None v) as ->.
  { destruct Hc0 as [[? _] | ?]; congruence. }
  simpl in *. rewrite Hv in *. split_and!.
  - rewrite (MemFacts.held_call timeMs s1 key _ p j args Hh eq_refl). simpl.
    rewrite Hv. by destruct (negb _).
  - destruct Hh as (_ & _ & Hj & _). subst s2. unfold Mem.f_resolved.
    rewrite Hj, Hf. simpl. by rewrite Hk, Hat, lookup_insert_eq.
  - destruct Hh as (_ & _ & Hj & _). subst s2.
    unfold Mem.settled, Mem.f_resolved. rewrite Hj, Hf. simpl.
    rewrite list_lookup_insert_eq by (by eapply lookup_lt_Some). simpl.
    by rewrite Hold, Hpr.
Qed.

Lemma renewal_serves_old_value_witness :
  let s0 :=
    (Mem.run 1000 Mem.init
       [Mem.Call [VNum 7]; Mem.FResolve 0 (VStr "old"); Mem.Tick 1001]).1 in
  let s1 :=
    (Mem.run 1000 (Mem.memoryCache 1000 [VNum 7] s0).1
       [Mem.Tick 10; Mem.Call [VNum 7]]).1 in
  let s2 := Mem.f_resolved 1 (VStr "new") s1 in
  Mem.memoryCache 1000 [VNum 7] s1 = (s1, Mem.Value (VStr "old"))
  ∧ Mem.caches s2 !! "[7]" = Some (Mem.Entry (Some 1001) None (VStr "new"))
  ∧ Mem.settled s2 (Mem.Promise 1) = Some (VStr "old").
Proof.
  apply (renewal_serves_old_value 1000
           [Mem.Call [VNum 7]; Mem.FResolve 0 (VStr "old"); Mem.Tick 1001]
           [VNum 7] 0 (VStr "old") [Mem.Tick 10; Mem.Call [VNum 7]]
           (VStr "new")).
  - reflexivity.
  - reflexivity.
  - reflexivity.
  - eexists. split; reflexivity.
Defined.

(** X5.  Calls with other arguments do not interfere: a run none of
    whose events is about a key leaves the entry of that key and the
    executors for that key as they were. *)
Theorem other_keys_do_not_interfere timeMs (s : Mem.state) es key :
  MemInv.avoids timeMs key s es →
  Mem.caches (Mem.run timeMs s es).1 !! key = Mem.caches s !! key
  ∧ ∀ p j, Mem.j_key j = key →
      (Mem.jobs (Mem.run timeMs s es).1 !! p = Some j
       ↔ Mem.jobs s !! p = Some j).
Proof.
  revert s. induction es as [| e es IH]; intros s Hav; [done |].
  destruct Hav as [Hk Hav]. rewrite MemFacts.run_cons_state.
  destruct (IH _ Hav) as [Hc Hj].
  destruct (MemMore.step_other_key timeMs s e key Hk) as [Hc1 Hj1].
  split; [congruence |]. intros p j Hkey. by rewrite Hj, Hj1.
Qed.

Lemma other_keys_do_not_interfere_witness :
  let s :=
    (Mem.run 1000 Mem.init [Mem.Call [VNum 7]; Mem.FResolve 0 (VStr "a")]).1 in
  let es :=
    [Mem.Call [VNum 8]; Mem.Tick 2000; Mem.FResolve 1 (VStr "b");
     Mem.Call [VNum 9]; Mem.FReject 2] in
  Mem.caches (Mem.run 1000 s es).1 !! "[7]" = Mem.caches s !! "[7]".
Proof.
  apply (other_keys_do_not_interfere 1000
           (Mem.run 1000 Mem.init
              [Mem.Call [VNum 7]; Mem.FResolve 0 (VStr "a")]).1
           [Mem.Call [VNum 8]; Mem.Tick 2000; Mem.FResolve 1 (VStr "b");
            Mem.Call [VNum 9]; Mem.FReject 2] "[7]").
  simpl. split_and!; try done; vm_compute; discriminate.
Defined.

(** ** Further facts about the shared backend *)

Module RedMore.
Import Red RedInv.

Section Facts.

Variable cacheKey : string.
Variable timeMs : Z.

Implicit Types (s : state) (x : renewal) (y : caller).

(** *** What a step changes *)

(** A step leaves the state as it is, lets time pass, files a caller,
    answers a caller's [redis.get], grants a lock, moves a renewal to its
    next await or kills it, or completes a renewal's write. *)
Lemma step_cases s e :
  step cacheKey timeMs s e = s
  ∨ (∃ d : N, step cacheKey timeMs s e =
       State (store s) (locks s) (callers s) (renewals s)
             (now s + Z.of_N d) (log s))
  ∨ (∃ args, step cacheKey timeMs s e =
       State (store s) (locks s)
             (callers s ++
                [Caller (cacheKey +:+ JSON_stringify args) args Getting])
             (renewals s) (now s) (log s))
  ∨ (∃ c key args ph,
       callers s !! c = Some (Caller key args Getting)
       ∧ (ph = Rejected
          ∨ ∃ cached, store s !! key = Some cached
                      ∧ ph = Returned (rec_value cached))
       ∧ step cacheKey timeMs s e =
           State (store s) (locks s)
                 (<[c := Caller key args ph]> (callers s))
                 (renewals s) (now s) (log s))
  ∨ (∃ c key args ph,
       callers s !! c = Some (Caller key args Getting)
       ∧ ((∃ cached, store s !! key = Some cached
                     ∧ timeMs < now s - rec_at cached
                     ∧ ph = Returned (rec_value cached))
          ∨ (store s !! key = None ∧ ph = Awaiting (length (renewals s))))
       ∧ step cacheKey timeMs s e =
           State (store s) (locks s)
                 (<[c := Caller key args ph]> (callers s))
                 (renewals s ++ [Renewal key args Locking]) (now s) (log s))
  ∨ (∃ r key args,
       renewals s !! r = Some (Renewal key args Locking)
       ∧ lock_free (now s) (locks s) (lock_name key) = true
       ∧ step cacheKey timeMs s e =
           State (store s)
                 (<[lock_name key := Lock r (now s + lease)]> (locks s))
                 (callers s)
                 (<[r := Renewal key args (Computing (now s + lease))]>
                    (renewals s))
                 (now s) (log s ++ [Acquired r; Invoked r]))
  ∨ (∃ r key args ph ph',
       renewals s !! r = Some (Renewal key args ph)
       ∧ moves ph ph' ∧ (ph' = Died ∨ ∃ e' v, ph' = Writing e' (now s) v)
       ∧ step cacheKey timeMs s e =
           State (store s) (locks s) (callers s)
                 (<[r := Renewal key args ph']> (renewals s))
                 (now s) (log s))
  ∨ (∃ r key args e' a v,
       renewals s !! r = Some (Renewal key args (Writing e' a v))
       ∧ step cacheKey timeMs s e =
           State (<[key := Record_ a (parsed v)]> (store s))
                 (release (lock_name key) r (locks s))
                 (callers s)
                 (<[r := Renewal key args (Finished v)]> (renewals s))
                 (now s) (log s ++ [Wrote r; Released r])).
Proof.
  destruct e as [args | c | c | r | r | r v | r | r | r | d]; simpl.
  - right; right; left. by exists args.
  - unfold get_reply.
    destruct (callers s !! c) as [[key args ph] |] eqn:Hc; [| by left].
    destruct ph; try by left.
    destruct (store s !! key) as [cached |] eqn:Hs.
    + unfold isExpired.
      destruct (Z.ltb_spec timeMs (now s - rec_at cached)) as [Hlt | Hle].
      * do 4 right; left. eexists c, key, args, _.
        split; [done |]. split; [left; by exists cached |].
        unfold set_caller. simpl. by rewrite Hc.
      * do 3 right; left. eexists c, key, args, _.
        split; [done |]. split; [right; by exists cached |].
        unfold set_caller. by rewrite Hc.
    + do 4 right; left. eexists c, key, args, _.
      split; [done |]. split; [by right |].
      unfold set_caller. simpl. by rewrite Hc.
  - unfold get_error.
    destruct (callers s !! c) as [[key args ph] |] eqn:Hc; [| by left].
    destruct ph; try by left.
    do 3 right; left. eexists c, key, args, _.
    split; [done |]. split; [by left |].
    unfold set_caller. by rewrite Hc.
  - unfold lock_granted.
    destruct (renewals s !! r) as [[key args ph] |] eqn:Hr; [| by left].
    destruct ph; try by left.
    destruct (lock_free _ _ _) eqn:Hfree; [| by left].
    do 5 right; left. by exists r, key, args.
  - unfold lock_error.
    destruct (renewals s !! r) as [[key args ph] |] eqn:Hr; [| by left].
    destruct ph; try by left.
    do 6 right; left. eexists r, key, args, _, Died.
    split; [done |]. split; [done |]. split; [by left |].
    unfold set_renewal. by rewrite Hr.
  - unfold f_resolved.
    destruct (renewals s !! r) as [[key args ph] |] eqn:Hr; [| by left].
    destruct ph; try by left.
    do 6 right; left. eexists r, key, args, _, (Writing expires (now s) v).
    split; [done |]. split; [done |]. split; [right; by eexists _, _ |].
    unfold set_renewal. by rewrite Hr.
  - unfold f_rejected.
    destruct (renewals s !! r) as [[key args ph] |] eqn:Hr; [| by left].
    destruct ph; try by left.
    do 6 right; left. eexists r, key, args, _, Died.
    split; [done |]. split; [done |]. split; [by left |].
    unfold set_renewal. by rewrite Hr.
  - unfold set_reply.
    destruct (renewals s !! r) as [[key args ph] |] eqn:Hr; [| by left].
    destruct ph; try by left.
    do 7 right. by eexists r, key, args, _, _, _.
  - unfold set_error.
    destruct (renewals s !! r) as [[key args ph] |] eqn:Hr; [| by left].
    destruct ph; try by left.
    do 6 right; left. eexists r, key, args, _, Died.
    split; [done |]. split; [done |]. split; [by left |].
    unfold set_renewal. by rewrite Hr.
  - right; left. by exists d.
Qed.

Ltac step_cases s e Hs :=
  let c0 := fresh "c0" in
  let r0 := fresh "r0" in
  let key := fresh "key" in
  let args := fresh "args" in
  let ph := fresh "ph" in
  let ph' := fresh "ph'" in
  let Hc0 := fresh "Hc0" in
  let Hr0 := fresh "Hr0" in
  let Hph := fresh "Hph" in
  let Hmv := fresh "Hmv" in
  let Hfree := fresh "Hfree" in
  let d := fresh "d" in
  let e' := fresh "e'" in
  let a := fresh "a" in
  let v := fresh "v" in
  destruct (step_cases s e) as
    [Hs | [(d & Hs) | [(args & Hs)
    | [(c0 & key & args & ph & Hc0 & Hph & Hs)
    | [(c0 & key & args & ph & Hc0 & Hph & Hs)
    | [(r0 & key & args & Hr0 & Hfree & Hs)
    | [(r0 & key & args & ph & ph' & Hr0 & Hmv & Hph & Hs)
    | (r0 & key & args & e' & a & v & Hr0 & Hs)]]]]]]].

(** The clock never goes back. *)
Lemma clock_step s e : now s ≤ now (step cacheKey timeMs s e).
Proof. step_cases s e Hs; rewrite Hs; simpl; lia. Qed.

Lemma clock_run s es : now s ≤ now (run cacheKey timeMs s es).
Proof.
  revert s. induction es as [| e es IH]; intros s; [done |].
  rewrite RedFacts.red_run_cons.
  etrans; [apply (clock_step s e) | apply IH].
Qed.

(** A renewal keeps its key and its arguments, and its phase stays or
    moves on. *)
Lemma renewal_step s e r x :
  renewals s !! r = Some x →
  ∃ x', renewals (step cacheKey timeMs s e) !! r = Some x'
        ∧ r_key x' = r_key x ∧ r_args x' = r_args x
        ∧ (x' = x ∨ moves (r_phase x) (r_phase x')).
Proof.
  intros Hr.
  assert (∀ r' k a ph ph',
     renewals s !! r' = Some (Renewal k a ph) → moves ph ph' →
     ∃ x', <[r' := Renewal k a ph']> (renewals s) !! r = Some x'
           ∧ r_key x' = r_key x ∧ r_args x' = r_args x
           ∧ (x' = x ∨ moves (r_phase x) (r_phase x'))) as Hset.
  { intros r' k a ph ph' Hr' Hmv. destruct (decide (r' = r)) as [-> | Hne].
    - rewrite list_lookup_insert_eq by (by eapply lookup_lt_Some).
      eexists. split; [done |]. simplify_eq. simpl. split_and!; try done.
      by right.
    - rewrite list_lookup_insert_ne by done. exists x.
      split_and!; try done. by left. }
  step_cases s e Hs; rewrite Hs; simpl;
    try (exists x; split_and!; try done; by left).
  - exists x. split_and!; try done; [by apply lookup_app_l_Some | by left].
  - by eapply Hset.
  - by eapply Hset.
  - by eapply Hset.
Qed.

Lemma renewal_run s es r x :
  renewals s !! r = Some x →
  ∃ x', renewals (run cacheKey timeMs s es) !! r = Some x'
        ∧ r_key x' = r_key x ∧ r_args x' = r_args x.
Proof.
  revert s x. induction es as [| e es IH]; intros s x Hr; [by exists x |].
  rewrite RedFacts.red_run_cons.
  destruct (renewal_step s e r x Hr) as (x1 & Hx1 & Hk1 & Ha1 & _).
  destruct (IH _ x1 Hx1) as (x' & Hx' & Hk' & Ha').
  exists x'. split_and!; congruence.
Qed.

(** What a step does to a caller: nothing, or the caller is new, or it
    was at [await redis.get] and is rejected, returns the value of the
    record found, or awaits the renewal it starts; at most one caller is
    changed. *)
Lemma caller_step s e c y' :
  callers (step cacheKey timeMs s e) !! c = Some y' →
  callers s !! c = Some y'
  ∨ c_phase y' = Getting
  ∨ c_phase y' = Rejected
  ∨ (∃ y cached,
       callers s !! c = Some y ∧ c_phase y = Getting ∧ c_key y' = c_key y
       ∧ store s !! c_key y = Some cached
       ∧ c_phase y' = Returned (rec_value cached))
  ∨ (∃ y,
       callers s !! c = Some y ∧ c_phase y = Getting
       ∧ c_key y' = c_key y ∧ c_args y' = c_args y
       ∧ store s !! c_key y = None
       ∧ c_phase y' = Awaiting (length (renewals s))
       ∧ renewals (step cacheKey timeMs s e) =
           renewals s ++ [Renewal (c_key y) (c_args y) Locking]
       ∧ ∀ c', c' ≠ c →
           callers (step cacheKey timeMs s e) !! c' = callers s !! c').
Proof.
  step_cases s e Hs; rewrite Hs; simpl; intros Hc; try by left.
  - apply lookup_app_Some in Hc as [Hc | [_ Hc]]; [by left |].
    apply list_lookup_singleton_Some in Hc as [_ <-]. right; by left.
  - apply list_lookup_insert_Some in Hc as [(-> & <- & _) | [_ Hc]];
      [| by left].
    destruct Hph as [-> | (cached & Hst & ->)]; [right; right; by left |].
    do 3 right; left. by eexists _, cached.
  - apply list_lookup_insert_Some in Hc as [(-> & <- & _) | [_ Hc]];
      [| by left].
    destruct Hph as [(cached & Hst & _ & ->) | [Hst ->]].
    + do 3 right; left. by eexists _, cached.
    + do 4 right. eexists. split_and!; try done.
      intros c' Hne. by rewrite list_lookup_insert_ne.
Qed.

(** *** Callers and the renewals they await *)

Lemma wired_step s e : wired s → wired (step cacheKey timeMs s e).
Proof.
  intros [Ha Hb].
  assert (∀ c y r, callers s !! c = Some y → c_phase y = Awaiting r →
     ∃ x, renewals (step cacheKey timeMs s e) !! r = Some x
          ∧ r_key x = c_key y ∧ r_args x = c_args y) as Ha'.
  { intros c y r Hc Hp. destruct (Ha c y r Hc Hp) as (x & Hx & Hk & Hg).
    destruct (renewal_step s e r x Hx) as (x' & Hx' & Hk' & Hg' & _).
    exists x'. split_and!; congruence. }
  assert (∀ c y r, callers s !! c = Some y → c_phase y = Awaiting r →
     r ≠ length (renewals s)) as Hlt.
  { intros c y r Hc Hp. destruct (Ha c y r Hc Hp) as (x & Hx & _).
    apply lookup_lt_Some in Hx. lia. }
  split.
  - intros c y r Hc Hp.
    destruct (caller_step s e c y Hc)
      as [Hold | [Hg | [Hg | [(y0 & cached & _ & _ & _ & _ & Hg)
          | (y0 & _ & _ & Hk & Hg & _ & Hw & Hrs & _)]]]];
      try congruence; [by eapply Ha' |].
    rewrite Hrs. assert (r = length (renewals s)) as -> by congruence.
    eexists. split; [by apply list_lookup_middle |]. by rewrite Hk, Hg.
  - intros c c' y y' r Hc Hc' Hp Hp'.
    destruct (caller_step s e c y Hc)
      as [Hold | [Hg | [Hg | [(y0 & cached & _ & _ & _ & _ & Hg)
          | (y0 & Hy0 & Hg0 & _ & _ & _ & Hw & _ & Hoth)]]]];
      try congruence;
    destruct (caller_step s e c' y' Hc')
      as [Hold' | [Hg' | [Hg' | [(y1 & cached' & _ & _ & _ & _ & Hg')
          | (y1 & Hy1 & Hg1 & _ & _ & _ & Hw' & _ & Hoth')]]]];
      try congruence.
    + by eapply Hb.
    + exfalso. eapply (Hlt c y r); [done | done | congruence].
    + exfalso. eapply (Hlt c' y' r); [done | done | congruence].
    + destruct (decide (c' = c)) as [-> | Hne]; [done |].
      rewrite (Hoth c' Hne) in Hc'. congruence.
Qed.

Lemma init_wired : wired init.
Proof.
  split.
  - intros c y r Hc. simpl in Hc. by rewrite lookup_nil in Hc.
  - intros c c' y y' r Hc. simpl in Hc. by rewrite lookup_nil in Hc.
Qed.

Lemma reachable_wired s : reachable_from cacheKey timeMs init s → wired s.
Proof.
  intros [es ->].
  apply RedFacts.run_invariant; [apply wired_step | apply init_wired].
Qed.

(** *** Where the values come from *)

Lemma sourced_step s e : sourced s → sourced (step cacheKey timeMs s e).
Proof.
  intros [Ha Hb].
  assert (∀ r x, renewals s !! r = Some x → terminal (r_phase x) →
            renewals (step cacheKey timeMs s e) !! r = Some x) as Hterm.
  { intros r x. apply RedFacts.terminal_renewal_step. }
  assert (∀ k cached, store s !! k = Some cached →
     ∃ r x w, renewals (step cacheKey timeMs s e) !! r = Some x ∧ r_key x = k
              ∧ r_phase x = Finished w ∧ rec_value cached = parsed w) as Ha'.
  { intros k cached Hk.
    destruct (Ha k cached Hk) as (r & x & w & Hx & Hkx & Hp & Hw).
    exists r, x, w. split_and!; try done. apply Hterm; [done |]. by rewrite Hp. }
  split.
  - intros k cached. step_cases s e Hs; rewrite Hs in *; simpl; try apply Ha'.
    intros Hk. apply lookup_insert_Some in Hk as [[<- <-] | [_ Hk]].
    + exists r0, (Renewal key args (Finished v)), v. split; [| done].
      apply list_lookup_insert_eq. by eapply lookup_lt_Some.
    + by apply Ha'.
  - intros c y v Hc Hp.
    destruct (caller_step s e c y Hc)
      as [Hold | [Hg | [Hg | [(y0 & cached & _ & _ & Hk & Hst & Hg)
          | (y0 & _ & _ & _ & _ & _ & Hg & _)]]]];
      try congruence.
    + destruct (Hb c y v Hold Hp) as (r & x & w & Hx & Hkx & Hpx & Hw).
      exists r, x, w. split_and!; try done.
      apply Hterm; [done |]. by rewrite Hpx.
    + rewrite Hk. assert (v = rec_value cached) as -> by congruence.
      by apply Ha'.
Qed.

Lemma red_init_sourced : sourced init.
Proof.
  split.
  - intros k cached Hk. simpl in Hk. by rewrite lookup_empty in Hk.
  - intros c y v Hc. simpl in Hc. by rewrite lookup_nil in Hc.
Qed.

Lemma reachable_sourced s : reachable_from cacheKey timeMs init s → sourced s.
Proof.
  intros [es ->].
  apply RedFacts.run_invariant; [apply sourced_step | apply red_init_sourced].
Qed.

(** A caller keeps its key and its arguments. *)
Lemma caller_kept s e c y :
  callers s !! c = Some y →
  ∃ y', callers (step cacheKey timeMs s e) !! c = Some y'
        ∧ c_key y' = c_key y ∧ c_args y' = c_args y.
Proof.
  intros Hy.
  assert (∀ c' k a ph ph',
     callers s !! c' = Some (Caller k a ph) →
     ∃ y', <[c' := Caller k a ph']> (callers s) !! c = Some y'
           ∧ c_key y' = c_key y ∧ c_args y' = c_args y) as Hset.
  { intros c' k a ph ph' Hc'. destruct (decide (c' = c)) as [-> | Hne].
    - rewrite list_lookup_insert_eq by (by eapply lookup_lt_Some).
      eexists. split; [done |]. by simplify_eq.
    - rewrite list_lookup_insert_ne by done. by exists y. }
  step_cases s e Hs; rewrite Hs; simpl; try by exists y.
  - exists y. split; [by apply lookup_app_l_Some | done].
  - by eapply Hset.
  - by eapply Hset.
Qed.

(** The value a caller's promise is resolved with is the value a renewal
    of the caller's key has finished with: that value as it is for a
    caller that awaited the renewal, what is read back of it for a caller
    that found the record. *)
Lemma settled_sourced s c v :
  wired s → sourced s →
  settled s c = Some (Resolves v) →
  ∃ y r x w,
    callers s !! c = Some y ∧ renewals s !! r = Some x
    ∧ r_phase x = Finished w ∧ r_key x = c_key y
    ∧ ((c_phase y = Awaiting r ∧ v = w)
       ∨ (c_phase y = Returned v ∧ v = parsed w)).
Proof.
  intros [Hw _] [_ Hsrc] Hset. unfold settled in Hset.
  destruct (callers s !! c) as [[key args ph] |] eqn:Hc; [| done].
  destruct ph as [| r | v' |]; try done.
  - destruct (Hw c _ r Hc eq_refl) as (x & Hx & Hk & _).
    rewrite Hx in Hset. destruct x as [k a ph]. destruct ph; try done.
    injection Hset as ->. eexists _, r, _, v. split_and!; try done. by left.
  - injection Hset as ->.
    destruct (Hsrc c _ v Hc eq_refl) as (r & x & w & Hx & Hk & Hph & Hv).
    eexists _, r, x, w. split_and!; try done. by right.
Qed.

(** *** A lock left behind *)

Lemma abandoned_step k r e s ev :
  abandoned k r e s → now s < e →
  abandoned k r e (step cacheKey timeMs s ev).
Proof.
  intros [Hl (x & Hx & Hd)] Hlt. split.
  - step_cases s ev Hs; rewrite Hs; simpl; try done.
    + destruct (decide (lock_name key = lock_name k)) as [Heq | Hne].
      * exfalso. unfold lock_free in Hfree. rewrite Heq, Hl in Hfree.
        simpl in Hfree. lia.
      * by rewrite lookup_insert_ne.
    + unfold release.
      destruct (decide (lock_name key = lock_name k)) as [Heq | Hne].
      * rewrite Heq, Hl. simpl. rewrite decide_False; [done |].
        intros ->. rewrite Hx in Hr0. by simplify_eq.
      * destruct (locks s !! lock_name key) as [l |]; [| done].
        destruct (decide (l_holder l = r0)); [| done].
        by rewrite lookup_delete_ne.
  - exists x. split; [| done].
    apply RedFacts.terminal_renewal_step; [done |]. by rewrite Hd.
Qed.

Lemma no_new_invocation_step k r e s0 s ev :
  abandoned k r e s → now s < e →
  no_new_invocation k s0 s →
  no_new_invocation k s0 (step cacheKey timeMs s ev).
Proof.
  intros [Hl _] Hlt Hn.
  assert (∀ r', In (Invoked r') (log s) →
     In (Invoked r') (log s0)
     ∨ ∃ x, renewals (step cacheKey timeMs s ev) !! r' = Some x
            ∧ r_key x ≠ k) as Hn'.
  { intros r' Hin. destruct (Hn r' Hin) as [? | (x & Hx & Hk)]; [by left |].
    destruct (renewal_step s ev r' x Hx) as (x' & Hx' & Hk' & _).
    right. exists x'. split; [done | congruence]. }
  intros r'. step_cases s ev Hs; rewrite Hs in *; simpl; try apply Hn'.
  - intros Hin. apply in_app_or in Hin as [Hin | Hin]; [by apply Hn' |].
    destruct Hin as [? | [Heq | []]]; [done |]. injection Heq as <-.
    right. eexists. split.
    { apply list_lookup_insert_eq. by eapply lookup_lt_Some. }
    simpl. intros ->. unfold lock_free in Hfree. rewrite Hl in Hfree.
    simpl in Hfree. lia.
  - intros Hin. apply in_app_or in Hin as [Hin | Hin]; [by apply Hn' |].
    by destruct Hin as [? | [? | []]].
Qed.

Lemma abandoned_run k r e s0 es s :
  abandoned k r e s → no_new_invocation k s0 s →
  now (run cacheKey timeMs s es) < e →
  abandoned k r e (run cacheKey timeMs s es)
  ∧ no_new_invocation k s0 (run cacheKey timeMs s es).
Proof.
  revert s. induction es as [| ev es IH]; intros s Ha Hn Hlt; [done |].
  rewrite RedFacts.red_run_cons in *.
  assert (now s < e) as Hs.
  { pose proof (clock_step s ev).
    pose proof (clock_run (step cacheKey timeMs s ev) es). lia. }
  apply IH; [by apply abandoned_step | by eapply no_new_invocation_step | done].
Qed.

(** *** A renewal at [await redis.set] *)

Lemma writing_run s es r x :
  renewals s !! r = Some x → (∃ e a v, r_phase x = Writing e a v) →
  (∃ x', renewals (run cacheKey timeMs s es) !! r = Some x'
         ∧ ¬ terminal (r_phase x')) →
  renewals (run cacheKey timeMs s es) !! r = Some x.
Proof.
  revert s. induction es as [| ev es IH]; intros s Hx Hw Hrun; [done |].
  rewrite RedFacts.red_run_cons in *.
  destruct (renewal_step s ev r x Hx) as (x1 & Hx1 & _ & _ & [-> | Hmv]).
  - by apply IH.
  - exfalso. destruct Hw as (e & a & v & Hph). rewrite Hph in Hmv.
    assert (terminal (r_phase x1)) as Ht.
    { destruct (r_phase x1); simpl in *; done. }
    destruct Hrun as (x' & Hx' & Hnt).
    rewrite (RedFacts.terminal_renewal_run cacheKey timeMs _ es r x1 Hx1 Ht)
      in Hx'.
    by simplify_eq.
Qed.

(** *** Nothing is removed from the store *)

Lemma store_step s e k cached :
  store s !! k = Some cached →
  is_Some (store (step cacheKey timeMs s e) !! k).
Proof.
  intros Hk. step_cases s e Hs; rewrite Hs; simpl; try done.
  rewrite lookup_insert_is_Some. destruct (decide (key = k)); [by left |].
  right. by split.
Qed.

End Facts.

(** *** Appending strings *)

Lemma list_of_append (a b : string) :
  list_ascii_of_string (a +:+ b) =
  list_ascii_of_string a ++ list_ascii_of_string b.
Proof. induction a as [| x a IH]; [done |]. exact (f_equal (cons x) IH). Qed.

Lemma string_app_inv_tail (a b c : string) : a +:+ c = b +:+ c → a = b.
Proof.
  intros H. apply (f_equal list_ascii_of_string) in H.
  rewrite !list_of_append in H. apply app_inv_tail in H.
  rewrite <- (string_of_list_ascii_of_string a),
          <- (string_of_list_ascii_of_string b).
  by rewrite H.
Qed.

Lemma string_last_ne (a b : string) (c d : ascii) :
  c ≠ d → a +:+ String c EmptyString ≠ b +:+ String d EmptyString.
Proof.
  intros Hne H. apply (f_equal list_ascii_of_string) in H.
  rewrite !list_of_append in H. simpl in H.
  by apply app_inj_tail in H as [_ ?].
Qed.

End RedMore.

(** ** Further properties of the two backends *)

(** X6.  Nothing is ever evicted.  In the in-process backend a key that
    has an entry keeps one in every later state, and an entry that has an
    [at] keeps having one; in the shared backend a key that has a record
    in the store keeps one: no step deletes. *)
Theorem nothing_is_evicted cacheKey timeMs :
  (∀ es (s : Mem.state) k c,
     Mem.caches s !! k = Some c →
     ∃ c', Mem.caches (Mem.run timeMs s es).1 !! k = Some c'
           ∧ (is_Some (Mem.e_at c) → is_Some (Mem.e_at c')))
  ∧ (∀ es (s : Red.state) k cached,
     Red.store s !! k = Some cached →
     is_Some (Red.store (Red.run cacheKey timeMs s es) !! k)).
Proof.
  split.
  - induction es as [| e es IH]; intros s k c Hc; [by exists c |].
    rewrite MemFacts.run_cons_state.
    destruct (MemMore.step_keeps_entry timeMs s e k c Hc) as (c1 & Hc1 & Hat1).
    destruct (IH _ k c1 Hc1) as (c' & Hc' & Hat').
    exists c'. split; [done |]. intros Hat. by apply Hat', Hat1.
  - induction es as [| e es IH]; intros s k cached Hk; [by eexists |].
    rewrite RedFacts.red_run_cons.
    destruct (RedMore.store_step cacheKey timeMs s e k cached Hk) as [c1 Hc1].
    by eapply IH.
Qed.

Lemma nothing_is_evicted_witness :
  (∃ c', Mem.caches
           (Mem.run 1000
              (Mem.run 1000 Mem.init
                 [Mem.Call [VNum 7]; Mem.FResolve 0 (VStr "a")]).1
              [Mem.Tick 5000; Mem.Call [VNum 7]; Mem.FReject 1]).1 !! "[7]"
         = Some c'
         ∧ (is_Some (Some 0) → is_Some (Mem.e_at c')))
  ∧ is_Some (Red.store
               (Red.run "ns" 1000
                  (Red.run "ns" 1000 Red.init
                     [Red.Call [VNum 7]; Red.GetReply 0; Red.LockGranted 0;
                      Red.FResolve 0 (VStr "a"); Red.SetReply 0])
                  [Red.Tick 5000; Red.Call [VNum 7]; Red.GetReply 1;
                   Red.LockGranted 1; Red.FReject 1]) !! "ns[7]").
Proof.
  destruct (nothing_is_evicted "ns" 1000) as [Hm Hr]. split.
  - apply (Hm [Mem.Tick 5000; Mem.Call [VNum 7]; Mem.FReject 1]
              (Mem.run 1000 Mem.init
                 [Mem.Call [VNum 7]; Mem.FResolve 0 (VStr "a")]).1
              "[7]" (Mem.Entry (Some 0) None (VStr "a"))).
    reflexivity.
  - apply (Hr [Red.Tick 5000; Red.Call [VNum 7]; Red.GetReply 1;
               Red.LockGranted 1; Red.FReject 1]
              (Red.run "ns" 1000 Red.init
                 [Red.Call [VNum 7]; Red.GetReply 0; Red.LockGranted 0;
                  Red.FResolve 0 (VStr "a"); Red.SetReply 0])
              "ns[7]" (Red.Record_ 0 (VStr "a"))).
    reflexivity.
Defined.

(** X7.  The shared backend serves only what [f] returned.  When the
    promise of a caller is resolved with [v], some renewal filed under the
    caller's key, started by a call whose arguments are written as the
    caller's are, has finished with a value [w] of [await f(...args)]:
    [v] is [w] itself for a caller that awaited the renewal, and what
    [JSON.parse] reads back of the written [w] for a caller that found the
    record.  That renewal acquired the lock, called [f], wrote the record
    and released the lock, in this order and once each. *)
Theorem shared_values_come_from_f cacheKey timeMs es c v :
  let s := Red.run cacheKey timeMs Red.init es in
  Red.settled s c = Some (Red.Resolves v) →
  ∃ y r x w,
    Red.callers s !! c = Some y ∧ Red.renewals s !! r = Some x
    ∧ Red.r_phase x = Red.Finished w
    ∧ ((Red.c_phase y = Red.Awaiting r ∧ v = w)
       ∨ (Red.c_phase y = Red.Returned v ∧ v = parsed w))
    ∧ Red.r_key x = Red.c_key y
    ∧ JSON_stringify (Red.r_args x) = JSON_stringify (Red.c_args y)
    ∧ Red.actions_of r (Red.log s) =
        [Red.Acquired r; Red.Invoked r; Red.Wrote r; Red.Released r].
Proof.
  intros s Hset.
  assert (Red.reachable_from cacheKey timeMs Red.init s) as Hreach
    by (by exists es).
  destruct (RedFacts.reachable_keyed cacheKey timeMs s Hreach)
    as (Hkc & Hkr & _).
  pose proof (RedFacts.reachable_ordered cacheKey timeMs s Hreach) as Hord.
  destruct (RedMore.settled_sourced s c v)
    as (y & r & x & w & Hy & Hx & Hph & Hk & Hv);
    [by apply (RedMore.reachable_wired cacheKey timeMs)
    | by apply (RedMore.reachable_sourced cacheKey timeMs) | done |].
  exists y, r, x, w. split_and!; try done.
  - apply (inj (String.append cacheKey)).
    by rewrite <- (Hkc c y Hy), <- (Hkr r x Hx).
  - pose proof (Hord r) as Hd. rewrite Hx in Hd. simpl in Hd.
    by rewrite Hph in Hd.
Qed.

Lemma shared_values_come_from_f_witness :
  let s :=
    Red.run "ns" 1000 Red.init
      [Red.Call [VUndefined]; Red.GetReply 0; Red.LockGranted 0;
       Red.FResolve 0 (VOther false "null" (Some VNull)); Red.SetReply 0;
       Red.Call [VNull]; Red.GetReply 1] in
  ∃ y r x w,
    Red.callers s !! 1%nat = Some y ∧ Red.renewals s !! r = Some x
    ∧ Red.r_phase x = Red.Finished w
    ∧ ((Red.c_phase y = Red.Awaiting r ∧ VNull = w)
       ∨ (Red.c_phase y = Red.Returned VNull ∧ VNull = parsed w))
    ∧ Red.r_key x = Red.c_key y
    ∧ JSON_stringify (Red.r_args x) = JSON_stringify (Red.c_args y)
    ∧ Red.actions_of r (Red.log s) =
        [Red.Acquired r; Red.Invoked r; Red.Wrote r; Red.Released r].
Proof.
  apply (shared_values_come_from_f "ns" 1000
           [Red.Call [VUndefined]; Red.GetReply 0; Red.LockGranted 0;
            Red.FResolve 0 (VOther false "null" (Some VNull)); Red.SetReply 0;
            Red.Call [VNull]; Red.GetReply 1] 1%nat VNull).
  reflexivity.
Defined.

(** X8.  Cold callers are not coalesced in the shared backend.  Two
    callers that found no record await two different renewals, and when
    both have their value, [f] has been called by each of the two
    renewals. *)
Theorem cold_callers_compute_separately cacheKey timeMs es c c' y y' r r' :
  let s := Red.run cacheKey timeMs Red.init es in
  Red.callers s !! c = Some y → Red.callers s !! c' = Some y' →
  Red.c_phase y = Red.Awaiting r → Red.c_phase y' = Red.Awaiting r' →
  c ≠ c' →
  r ≠ r'
  ∧ ∀ v v',
      Red.settled s c = Some (Red.Resolves v) →
      Red.settled s c' = Some (Red.Resolves v') →
      In (Red.Invoked r) (Red.log s) ∧ In (Red.Invoked r') (Red.log s).
Proof.
  intros s Hy Hy' Hp Hp' Hne.
  assert (Red.reachable_from cacheKey timeMs Red.init s) as Hreach
    by (by exists es).
  pose proof (RedFacts.reachable_ordered cacheKey timeMs s Hreach) as Hord.
  destruct (RedMore.reachable_wired cacheKey timeMs s Hreach) as [_ Hinj].
  assert (∀ c0 y0 r0 v0,
    Red.callers s !! c0 = Some y0 → Red.c_phase y0 = Red.Awaiting r0 →
    Red.settled s c0 = Some (Red.Resolves v0) →
    In (Red.Invoked r0) (Red.log s)) as Hinv.
  { intros c0 [k0 a0 ph0] r0 v0 Hc0 Hph0 Hset. simpl in Hph0. subst ph0.
    unfold Red.settled in Hset. rewrite Hc0 in Hset.
    pose proof (Hord r0) as Hd.
    destruct (Red.renewals s !! r0) as [[k a ph] |]; [| done].
    destruct ph; try done. simpl in Hd.
    assert (In (Red.Invoked r0) (Red.actions_of r0 (Red.log s))) as Hin.
    { rewrite Hd. simpl. tauto. }
    unfold Red.actions_of in Hin. by apply List.filter_In in Hin as [? _]. }
  split.
  - intros ->. apply Hne. by eapply (Hinj c c' y y' r').
  - intros v v' Hv Hv'. split.
    + by apply (Hinv c y r v).
    + by apply (Hinv c' y' r' v').
Qed.

Lemma cold_callers_compute_separately_witness :
  let s :=
    Red.run "ns" 1000 Red.init
      [Red.Call [VNum 7]; Red.Call [VNum 7]; Red.GetReply 0; Red.GetReply 1;
       Red.LockGranted 0; Red.FResolve 0 (VStr "a"); Red.SetReply 0;
       Red.LockGranted 1; Red.FResolve 1 (VStr "b"); Red.SetReply 1] in
  0%nat ≠ 1%nat
  ∧ ∀ v v',
      Red.settled s 0 = Some (Red.Resolves v) →
      Red.settled s 1 = Some (Red.Resolves v') →
      In (Red.Invoked 0) (Red.log s) ∧ In (Red.Invoked 1) (Red.log s).
Proof.
  apply (cold_callers_compute_separately "ns" 1000
           [Red.Call [VNum 7]; Red.Call [VNum 7]; Red.GetReply 0;
            Red.GetReply 1; Red.LockGranted 0; Red.FResolve 0 (VStr "a");
            Red.SetReply 0; Red.LockGranted 1; Red.FResolve 1 (VStr "b");
            Red.SetReply 1]
           0%nat 1%nat
           (Red.Caller "ns[7]" [VNum 7] (Red.Awaiting 0))
           (Red.Caller "ns[7]" [VNum 7] (Red.Awaiting 1)) 0%nat 1%nat).
  - reflexivity.
  - reflexivity.
  - reflexivity.
  - reflexivity.
  - lia.
Defined.

(** X9.  A renewal that fails keeps its lock.  When [f] or the store
    write of a renewal fails while the renewal holds the lock of its key,
    the lock is not released: in every later state before the lease runs
    out it is still held in the name of the dead renewal, and no renewal
    of the key has called [f] since the failure. *)
Theorem failed_renewal_blocks_key cacheKey timeMs es0 r x e ev es :
  let s0 := Red.run cacheKey timeMs Red.init es0 in
  let s1 := Red.step cacheKey timeMs s0 ev in
  let s2 := Red.run cacheKey timeMs s1 es in
  Red.renewals s0 !! r = Some x →
  Red.critical x = Some e →
  Red.failure_of r (Red.r_phase x) ev →
  Red.now s2 < e →
  Red.locks s2 !! Red.lock_name (Red.r_key x) = Some (Red.Lock r e)
  ∧ ∀ r', RedInv.invoked (Red.r_key x) r' s2 → In (Red.Invoked r') (Red.log s1).
Proof.
  intros s0 s1 s2 Hx Hcrit Hfail Hlt.
  assert (Red.now s0 < e) as Hlt0.
  { pose proof (RedMore.clock_step cacheKey timeMs s0 ev).
    pose proof (RedMore.clock_run cacheKey timeMs s1 es).
    fold s1 in H. fold s2 in H0. lia. }
  assert (Red.leased s0) as Hleased
    by (apply (RedFacts.reachable_leased cacheKey timeMs); by exists es0).
  pose proof (Hleased r x e Hx Hcrit Hlt0) as Hlock.
  assert (Red.locks s1 = Red.locks s0) as Hlocks.
  { subst s1. destruct x as [k a ph].
    destruct ev, ph; simpl in Hfail; try done; subst; simpl;
      [unfold Red.f_rejected | unfold Red.set_error]; rewrite Hx;
      by destruct (RedFacts.set_renewal_fields r Red.Died s0) as (_ & -> & _). }
  assert (RedInv.abandoned (Red.r_key x) r e s1) as Hab.
  { split; [by rewrite Hlocks |].
    exists (Red.Renewal (Red.r_key x) (Red.r_args x) Red.Died).
    split; [by apply RedFacts.failure_step | done]. }
  destruct (RedMore.abandoned_run cacheKey timeMs (Red.r_key x) r e s1 es s1 Hab)
    as [[Hl2 _] Hnew]; [by left | done |].
  split; [done |].
  intros r' [Hin (x' & Hx' & Hk')].
  destruct (Hnew r' Hin) as [? | (x'' & Hx'' & Hk'')]; [done |].
  fold s2 in Hx''. congruence.
Qed.

Lemma failed_renewal_blocks_key_witness :
  let s1 :=
    Red.run "ns" 1000 Red.init
      [Red.Call [VNum 7]; Red.GetReply 0; Red.Call [VNum 7]; Red.GetReply 1;
       Red.LockGranted 0; Red.FReject 0] in
  let s2 :=
    Red.run "ns" 1000 s1
      [Red.Tick 179999; Red.LockGranted 1; Red.Call [VNum 7];
       Red.GetReply 2; Red.LockGranted 2] in
  Red.locks s2 !! "ns[7]-lock" = Some (Red.Lock 0 180000)
  ∧ ∀ r', RedInv.invoked "ns[7]" r' s2 → In (Red.Invoked r') (Red.log s1).
Proof.
  apply (failed_renewal_blocks_key "ns" 1000
           [Red.Call [VNum 7]; Red.GetReply 0; Red.Call [VNum 7];
            Red.GetReply 1; Red.LockGranted 0]
           0%nat (Red.Renewal "ns[7]" [VNum 7] (Red.Computing 180000)) 180000
           (Red.FReject 0)
           [Red.Tick 179999; Red.LockGranted 1; Red.Call [VNum 7];
            Red.GetReply 2; Red.LockGranted 2]).
  - reflexivity.
  - reflexivity.
  - reflexivity.
  - reflexivity.
Defined.

(** X10.  In the shared backend the [at] of a record is the time [f]
    resolved, not the time of the call or of the write.  When [f]
    resolves with [v] in a renewal and the write is answered while the
    renewal is still waiting for it, the record holds [v], as it is read
    back from its text, with the time of the resolution, the renewal
    finishes with [v], and a caller whose [redis.get] is answered no later
    than [timeMs] after the resolution gets the record's value without a
    renewal being started. *)
Theorem shared_record_time_is_completion_time cacheKey timeMs
    (s : Red.state) r key args e v es :
  let s1 := Red.f_resolved r v s in
  let s2 := Red.run cacheKey timeMs s1 es in
  let s3 := Red.set_reply r s2 in
  Red.renewals s !! r = Some (Red.Renewal key args (Red.Computing e)) →
  (∃ x, Red.renewals s2 !! r = Some x ∧ ¬ Red.terminal (Red.r_phase x)) →
  Red.store s3 !! key = Some (Red.Record_ (Red.now s) (parsed v))
  ∧ Red.renewals s3 !! r = Some (Red.Renewal key args (Red.Finished v))
  ∧ ∀ c args',
      Red.callers s3 !! c = Some (Red.Caller key args' Red.Getting) →
      Red.now s3 - Red.now s ≤ timeMs →
      Red.settled (Red.get_reply timeMs c s3) c
      = Some (Red.Resolves (parsed v))
      ∧ Red.renewals (Red.get_reply timeMs c s3) = Red.renewals s3.
Proof.
  intros s1 s2 s3 Hr Hrun.
  assert (Red.renewals s1 !! r =
            Some (Red.Renewal key args (Red.Writing e (Red.now s) v))) as Hr1.
  { subst s1. unfold Red.f_resolved, Red.set_renewal. rewrite Hr. simpl.
    apply list_lookup_insert_eq. by eapply lookup_lt_Some. }
  pose proof (RedMore.writing_run cacheKey timeMs s1 es r _ Hr1
                ltac:(by eexists _, _, _) Hrun) as Hr2.
  fold s2 in Hr2.
  assert (Red.store s3 !! key = Some (Red.Record_ (Red.now s) (parsed v))
          ∧ Red.renewals s3 !! r = Some (Red.Renewal key args (Red.Finished v)))
    as [Hst Hr3].
  { subst s3. unfold Red.set_reply. rewrite Hr2. simpl. split.
    - by rewrite lookup_insert_eq.
    - apply list_lookup_insert_eq. by eapply lookup_lt_Some. }
  split_and!; try done.
  intros c args' Hc Hle.
  rewrite (RedFacts.get_reply_fresh timeMs s3 c key args' _ Hc Hst Hle).
  split; [| done]. unfold Red.settled. simpl.
  rewrite list_lookup_insert_eq; [done |]. by eapply lookup_lt_Some.
Qed.

Lemma shared_record_time_is_completion_time_witness :
  let s :=
    Red.run "ns" 1000 Red.init
      [Red.Call [VNum 7]; Red.GetReply 0; Red.LockGranted 0; Red.Tick 5000] in
  let s3 :=
    Red.set_reply 0
      (Red.run "ns" 1000 (Red.f_resolved 0 (VStr "a") s)
         [Red.Tick 20; Red.Call [VNum 7]]) in
  Red.store s3 !! "ns[7]" = Some (Red.Record_ 5000 (VStr "a"))
  ∧ Red.renewals s3 !! 0%nat =
      Some (Red.Renewal "ns[7]" [VNum 7] (Red.Finished (VStr "a")))
  ∧ ∀ c args',
      Red.callers s3 !! c = Some (Red.Caller "ns[7]" args' Red.Getting) →
      Red.now s3 - 5000 ≤ 1000 →
      Red.settled (Red.get_reply 1000 c s3) c = Some (Red.Resolves (VStr "a"))
      ∧ Red.renewals (Red.get_reply 1000 c s3) = Red.renewals s3.
Proof.
  apply (shared_record_time_is_completion_time "ns" 1000
           (Red.run "ns" 1000 Red.init
              [Red.Call [VNum 7]; Red.GetReply 0; Red.LockGranted 0;
               Red.Tick 5000])
           0%nat "ns[7]" [VNum 7] 180000 (VStr "a")
           [Red.Tick 20; Red.Call [VNum 7]]).
  - reflexivity.
  - eexists. split; [reflexivity |]. simpl. tauto.
Defined.

(** X11.  A renewal that waited for the lock computes again.  When a
    renewal completes its write within its lease, the lock is released,
    and a renewal of the same key that was waiting for the lock is granted
    it and calls [f], although the store now holds the record just
    written: the record is not read again once the lock is held. *)
Theorem queued_renewal_recomputes cacheKey timeMs es r r' key args args'
    e a v :
  let s := Red.run cacheKey timeMs Red.init es in
  let s1 := Red.set_reply r s in
  let s2 := Red.lock_granted r' s1 in
  Red.renewals s !! r = Some (Red.Renewal key args (Red.Writing e a v)) →
  Red.renewals s !! r' = Some (Red.Renewal key args' Red.Locking) →
  Red.now s < e →
  Red.locks s1 !! Red.lock_name key = None
  ∧ Red.store s2 !! key = Some (Red.Record_ a (parsed v))
  ∧ Red.renewals s2 !! r' =
      Some (Red.Renewal key args' (Red.Computing (Red.now s + Red.lease)))
  ∧ Red.log s2 =
      Red.log s ++ [Red.Wrote r; Red.Released r;
                    Red.Acquired r'; Red.Invoked r'].
Proof.
  intros s s1 s2 Hr Hr' Hlt.
  assert (Red.leased s) as Hleased
    by (apply (RedFacts.reachable_leased cacheKey timeMs); by exists es).
  pose proof (Hleased r _ e Hr eq_refl Hlt) as Hlock. simpl in Hlock.
  assert (r' ≠ r) as Hne by (intros ->; congruence).
  assert (s1 = Red.State (<[key := Red.Record_ a (parsed v)]> (Red.store s))
                 (delete (Red.lock_name key) (Red.locks s))
                 (Red.callers s)
                 (<[r := Red.Renewal key args (Red.Finished v)]>
                    (Red.renewals s))
                 (Red.now s) (Red.log s ++ [Red.Wrote r; Red.Released r]))
    as Hs1.
  { subst s1. unfold Red.set_reply, Red.release. rewrite Hr, Hlock. simpl.
    by rewrite decide_True. }
  assert (Red.renewals s1 !! r' = Some (Red.Renewal key args' Red.Locking))
    as Hr1.
  { rewrite Hs1. simpl. by rewrite list_lookup_insert_ne. }
  assert (Red.locks s1 !! Red.lock_name key = None) as Hfree.
  { rewrite Hs1. simpl. by rewrite lookup_delete_eq. }
  split; [done |].
  subst s2. unfold Red.lock_granted, Red.lock_free. rewrite Hr1, Hfree.
  simpl. rewrite Hs1. simpl. split_and!.
  - by rewrite lookup_insert_eq.
  - apply list_lookup_insert_eq. rewrite length_insert.
    by eapply lookup_lt_Some.
  - by rewrite <- app_assoc.
Qed.

Lemma queued_renewal_recomputes_witness :
  let s :=
    Red.run "ns" 1000 Red.init
      [Red.Call [VNum 7]; Red.Call [VNum 7]; Red.GetReply 0; Red.GetReply 1;
       Red.LockGranted 0; Red.LockGranted 1; Red.FResolve 0 (VStr "a")] in
  let s1 := Red.set_reply 0 s in
  let s2 := Red.lock_granted 1 s1 in
  Red.locks s1 !! "ns[7]-lock" = None
  ∧ Red.store s2 !! "ns[7]" = Some (Red.Record_ 0 (VStr "a"))
  ∧ Red.renewals s2 !! 1%nat =
      Some (Red.Renewal "ns[7]" [VNum 7] (Red.Computing 180000))
  ∧ Red.log s2 =
      [Red.Acquired 0; Red.Invoked 0; Red.Wrote 0; Red.Released 0;
       Red.Acquired 1; Red.Invoked 1].
Proof.
  apply (queued_renewal_recomputes "ns" 1000
           [Red.Call [VNum 7]; Red.Call [VNum 7]; Red.GetReply 0;
            Red.GetReply 1; Red.LockGranted 0; Red.LockGranted 1;
            Red.FResolve 0 (VStr "a")]
           0%nat 1%nat "ns[7]" [VNum 7] [VNum 7] 180000 0 (VStr "a")).
  - reflexivity.
  - reflexivity.
  - reflexivity.
Defined.

(** X12.  Lock names.  Two keys have one lock exactly when they are one
    key, so two calls contend for one lock exactly when their arguments
    are written alike by [JSON.stringify]; and the name of a lock is never
    the key of a record, whatever the namespaces and the arguments. *)
Theorem lock_names_are_separate cacheKey :
  (∀ key key', Red.lock_name key = Red.lock_name key' ↔ key = key')
  ∧ (∀ args args',
     Red.lock_name (cacheKey +:+ JSON_stringify args)
     = Red.lock_name (cacheKey +:+ JSON_stringify args')
     ↔ JSON_stringify args = JSON_stringify args')
  ∧ (∀ cacheKey' args args',
     cacheKey +:+ JSON_stringify args
     ≠ Red.lock_name (cacheKey' +:+ JSON_stringify args')).
Proof.
  assert (∀ key key', Red.lock_name key = Red.lock_name key' ↔ key = key')
    as Hinj.
  { intros key key'. split; [| by intros ->].
    apply RedMore.string_app_inv_tail. }
  split_and!.
  - done.
  - intros args args'. rewrite Hinj. split; [| by intros ->].
    apply (inj (String.append cacheKey)).
  - intros cacheKey' args args'. unfold Red.lock_name, JSON_stringify.
    rewrite <- !JSONFacts.string_app_assoc.
    change "-lock" with ("-loc" +:+ "k").
    rewrite <- (JSONFacts.string_app_assoc _ "-loc" "k").
    by apply RedMore.string_last_ne.
Qed.

Lemma lock_names_are_separate_witness :
  Red.lock_name ("ns" +:+ JSON_stringify [VOther false "null" (Some VNull)])
  = Red.lock_name ("ns" +:+ JSON_stringify [VNull])
  ∧ "ns" +:+ JSON_stringify [VStr "-lock"]
    ≠ Red.lock_name ("ns" +:+ JSON_stringify []).
Proof.
  destruct (lock_names_are_separate "ns") as (_ & Hsame & Hsep). split.
  - apply Hsame. reflexivity.
  - apply Hsep.
Defined.

(** ** Facts about the exported function *)

Module LazyFacts.
Import Lazy.

Section Facts.

Variable cacheKey : string.
Variable timeMs : Z.

Implicit Types (s : state) (a : call).

Lemma lazy_run_cons s e es :
  run cacheKey timeMs s (e :: es) =
  run cacheKey timeMs (step cacheKey timeMs s e) es.
Proof. done. Qed.

(** A step of the facade is a step of one backend, of both when time
    passes, or of none. *)
Lemma step_backends s e :
  (mem (step cacheKey timeMs s e) = mem s
   ∨ ∃ me, mem (step cacheKey timeMs s e) = (Mem.step timeMs (mem s) me).1)
  ∧ (red (step cacheKey timeMs s e) = red s
     ∨ ∃ re, red (step cacheKey timeMs s e) =
               Red.step cacheKey timeMs (red s) re).
Proof.
  destruct e as [args | i [u |] | p v | p | e' | d]; simpl.
  - split; by left.
  - unfold resume.
    destruct (calls s !! i) as [[args ph] |]; [| split; by left].
    destruct ph; try (split; by left).
    destruct (truthy u).
    + split; [by left | right]. by exists (Red.Call args).
    + split; [right | ].
      * exists (Mem.Call args). rewrite MemFacts.step_call.
        by destruct (Mem.memoryCache timeMs args (mem s)).
      * left. by destruct (Mem.memoryCache timeMs args (mem s)).
  - unfold resume.
    destruct (calls s !! i) as [[args ph] |]; [| split; by left].
    destruct ph; split; by left.
  - split; [right; by exists (Mem.FResolve p v) | by left].
  - split; [right; by exists (Mem.FReject p) | by left].
  - destruct e'; (split; [by left |]); try (by left); right; by eexists.
  - split; right; [by exists (Mem.Tick d) | by exists (Red.Tick d)].
Qed.

Lemma step_backed s e :
  backed cacheKey s → backed cacheKey (step cacheKey timeMs s e).
Proof.
  intros (Hmk & Hms & Hrk & Hro & Hrw & Hrs). unfold backed.
  destruct (step_backends s e) as [[Hm | [me Hm]] [Hr | [re Hr]]];
    rewrite Hm, Hr; split_and!; try done;
    first [ by apply MemFacts.step_keyed
          | by apply MemMore.step_sourced
          | by apply RedFacts.red_step_keyed
          | by apply RedFacts.step_ordered
          | by apply RedMore.wired_step
          | by apply RedMore.sourced_step ].
Qed.

Lemma init_backed : backed cacheKey init.
Proof.
  split_and!.
  - apply MemFacts.init_keyed.
  - apply MemMore.init_sourced.
  - apply RedFacts.red_init_keyed.
  - apply RedFacts.init_ordered.
  - apply RedMore.init_wired.
  - apply RedMore.red_init_sourced.
Qed.

(** What a call was handed back stays filed under its key. *)
Lemma answers_mem_step m r a me :
  answers cacheKey m r a → answers cacheKey (Mem.step timeMs m me).1 r a.
Proof.
  unfold answers. destruct (a_phase a) as [| [v | p] | c |]; try done.
  - intros [-> | (p & j & Hj & Hk & Hf)]; [by left | right].
    exists p, j. split_and!; try done.
    apply MemFacts.settled_job_step; [done | congruence].
  - intros (j & Hj & Hk).
    destruct (MemMore.job_key_run timeMs m [me] p j Hj) as (j' & Hj' & Hk' & _).
    rewrite MemFacts.run_cons_state in Hj'.
    exists j'. split; [done | congruence].
Qed.

Lemma answers_red_step m r a re :
  answers cacheKey m r a → answers cacheKey m (Red.step cacheKey timeMs r re) a.
Proof.
  unfold answers. destruct (a_phase a) as [| [v | p] | c |]; try done.
  intros (y & Hy & Hk).
  destruct (RedMore.caller_kept cacheKey timeMs r re c y Hy) as (y' & Hy' & Hk' & _).
  exists y'. split; [done | congruence].
Qed.

Lemma routed_step s e :
  MemInv.sourced (mem s) →
  routed cacheKey s → routed cacheKey (step cacheKey timeMs s e).
Proof.
  intros Hsrc Hrt.
  assert (∀ me i a, calls s !! i = Some a →
            answers cacheKey (Mem.step timeMs (mem s) me).1 (red s) a) as Hmem.
  { intros me i a Ha. by apply answers_mem_step, (Hrt i). }
  assert (∀ re i a, calls s !! i = Some a →
            answers cacheKey (mem s) (Red.step cacheKey timeMs (red s) re) a)
    as Hred.
  { intros re i a Ha. by apply answers_red_step, (Hrt i). }
  destruct e as [args | i [u |] | p v | p | e' | d]; simpl.
  - intros i a Ha. simpl in *.
    apply lookup_app_Some in Ha as [Ha | [_ Ha]]; [by apply (Hrt i) |].
    by apply list_lookup_singleton_Some in Ha as [_ <-].
  - unfold resume.
    destruct (calls s !! i) as [[args ph] |] eqn:Hi; [| done].
    destruct ph; try done.
    destruct (truthy u).
    + intros i' a Ha. simpl in *.
      apply list_lookup_insert_Some in Ha as [(-> & <- & _) | [_ Ha]].
      * unfold answers. simpl. eexists. split; [by apply list_lookup_middle |].
        done.
      * by apply (Hred (Red.Call args) i').
    + pose proof (MemMore.outcome_sourced timeMs (mem s) args Hsrc) as Ho.
      pose proof (Hmem (Mem.Call args)) as Hmem'.
      rewrite MemFacts.step_call in Hmem'. cbv zeta in Ho.
      destruct (Mem.memoryCache timeMs args (mem s)) as [m o].
      intros i' a Ha. simpl in *.
      apply list_lookup_insert_Some in Ha as [(-> & <- & _) | [_ Ha]].
      * unfold answers. simpl. by destruct o.
      * by apply (Hmem' i').
  - unfold resume.
    destruct (calls s !! i) as [[args ph] |] eqn:Hi; [| done].
    destruct ph; try done.
    intros i' a Ha. simpl in *.
    apply list_lookup_insert_Some in Ha as [(-> & <- & _) | [_ Ha]]; [done |].
    by apply (Hrt i').
  - intros i a Ha. by apply (Hmem (Mem.FResolve p v) i).
  - intros i a Ha. by apply (Hmem (Mem.FReject p) i).
  - destruct e'; try done; intros i a Ha;
      by apply (Hred _ i a Ha).
  - intros i a Ha. simpl in *.
    apply (answers_red_step _ _ _ (Red.Tick d)).
    by apply (Hmem (Mem.Tick d) i).
Qed.

Lemma run_backed_routed s es :
  backed cacheKey s → routed cacheKey s →
  backed cacheKey (run cacheKey timeMs s es)
  ∧ routed cacheKey (run cacheKey timeMs s es).
Proof.
  revert s. induction es as [| e es IH]; intros s Hb Hr; [done |].
  rewrite lazy_run_cons. apply IH; [by apply step_backed |].
  apply routed_step; [| done]. by destruct Hb as (_ & ? & _).
Qed.

(** A backend that is not picked is not called. *)
Lemma red_idle_step s e :
  selects e ≠ Some true →
  red_idle (red s) → red_idle (red (step cacheKey timeMs s e)).
Proof.
  intros Hsel (Hc & Hr & Hst & Hl & Hlog).
  destruct e as [args | i [u |] | p v | p | e' | d]; simpl; try done.
  - unfold resume.
    destruct (calls s !! i) as [[args ph] |]; [| done].
    destruct ph; try done.
    destruct (truthy u) eqn:Hu; [by simpl in Hsel; rewrite Hu in Hsel |].
    by destruct (Mem.memoryCache timeMs args (mem s)).
  - unfold resume.
    destruct (calls s !! i) as [[args ph] |]; [| done].
    by destruct ph.
  - destruct e' as [args | c | c | r | r | r v | r | r | r | d]; simpl;
      try done;
      unfold Red.get_reply, Red.get_error, Red.lock_granted, Red.lock_error,
        Red.f_resolved, Red.f_rejected, Red.set_reply, Red.set_error;
      rewrite ?Hc, ?Hr, lookup_nil; done.
Qed.

Lemma mem_idle_step s e :
  selects e ≠ Some false →
  mem_idle (mem s) → mem_idle (mem (step cacheKey timeMs s e)).
Proof.
  intros Hsel (Hj & Hc).
  destruct e as [args | i [u |] | p v | p | e' | d]; simpl; try done.
  - unfold resume.
    destruct (calls s !! i) as [[args ph] |]; [| done].
    destruct ph; try done.
    destruct (truthy u) eqn:Hu; [done |].
    simpl in Hsel. by rewrite Hu in Hsel.
  - unfold resume.
    destruct (calls s !! i) as [[args ph] |]; [| done].
    by destruct ph.
  - unfold Mem.f_resolved. by rewrite Hj, lookup_nil.
  - unfold Mem.f_rejected. by rewrite Hj, lookup_nil.
  - by destruct e'.
Qed.

End Facts.

End LazyFacts.

(** ** Properties of the exported function *)

(** X13.  The function returned by [lazyCache] serves only what [f]
    returned.  When the promise of a call is resolved with [v], the call
    was passed to one of the backends.  If to the in-process cache, [v] is
    [undefined] or a value [f] resolved with in an executor of that cache
    filed under the key of the call.  If to the shared cache, a renewal
    filed under the namespace and the key of the call has finished with a
    value [w], and [v] is [w] or what [JSON.parse] reads back of the
    written [w].  In both cases [f] had been called with arguments that
    are written as the arguments of the call are. *)
Theorem lazyCache_serves_f cacheKey timeMs es i v :
  let s := Lazy.run cacheKey timeMs Lazy.init es in
  Lazy.settled s i = Some (Red.Resolves v) →
  ∃ a, Lazy.calls s !! i = Some a
    ∧ ((∃ o, Lazy.a_phase a = Lazy.InMemory o
          ∧ (v = VUndefined
             ∨ ∃ p j, Mem.jobs (Lazy.mem s) !! p = Some j
                 ∧ Mem.j_f j = Mem.Fulfilled v
                 ∧ Mem.j_key j = JSON_stringify (Lazy.a_args a)
                 ∧ JSON_stringify (Mem.j_args j)
                   = JSON_stringify (Lazy.a_args a)))
       ∨ (∃ c r x w, Lazy.a_phase a = Lazy.InRedis c
            ∧ Red.renewals (Lazy.red s) !! r = Some x
            ∧ Red.r_phase x = Red.Finished w
            ∧ (v = w ∨ v = parsed w)
            ∧ Red.r_key x = cacheKey +:+ JSON_stringify (Lazy.a_args a)
            ∧ JSON_stringify (Red.r_args x)
              = JSON_stringify (Lazy.a_args a))).
Proof.
  intros s Hset.
  destruct (LazyFacts.run_backed_routed cacheKey timeMs Lazy.init es)
    as [(Hmk & Hms & Hrk & _ & Hrw & Hrs) Hrt].
  { apply LazyFacts.init_backed. }
  { intros i' a Ha. simpl in Ha. by rewrite lookup_nil in Ha. }
  fold s in Hmk, Hms, Hrk, Hrw, Hrs, Hrt.
  destruct Hmk as [Hmk _]. destruct Hms as (_ & Hpro & _).
  destruct Hrk as (_ & Hrk & _).
  unfold Lazy.settled in Hset.
  destruct (Lazy.calls s !! i) as [[args ph] |] eqn:Hi; [| done].
  pose proof (Hrt i _ Hi) as Hans. unfold Lazy.answers in Hans. simpl in Hans.
  exists (Lazy.Call_ args ph). split; [done |]. simpl.
  assert (∀ p j, Mem.jobs (Lazy.mem s) !! p = Some j →
            Mem.j_key j = JSON_stringify args → Mem.j_f j = Mem.Fulfilled v →
            ∃ p j, Mem.jobs (Lazy.mem s) !! p = Some j
              ∧ Mem.j_f j = Mem.Fulfilled v
              ∧ Mem.j_key j = JSON_stringify args
              ∧ JSON_stringify (Mem.j_args j) = JSON_stringify args) as Hfin.
  { intros p j Hj Hk Hf. exists p, j. split_and!; try done.
    rewrite <- Hk. symmetry. by eapply Hmk. }
  destruct ph as [| [v0 | p] | c |]; try done.
  - left. eexists. split; [done |]. simpl in Hset. injection Hset as ->.
    destruct Hans as [-> | (p & j & Hj & Hk & Hf)]; [by left | right].
    by eapply Hfin.
  - left. eexists. split; [done |]. right.
    destruct Hans as (j & Hj & Hk). simpl in Hset. rewrite Hj in Hset.
    destruct (Mem.j_promise j) as [| w] eqn:Hpr; [done |].
    injection Hset as ->.
    destruct (Hpro p j v Hj Hpr) as (p' & j' & Hj' & Hk' & Hf').
    eapply (Hfin p' j'); try done. congruence.
  - right.
    destruct (RedMore.settled_sourced (Lazy.red s) c v Hrw Hrs Hset)
      as (y & r & x & w & Hy & Hx & Hph & Hkx & Hv).
    destruct Hans as (y' & Hy' & Hk').
    assert (y' = y) as -> by congruence.
    exists c, r, x, w. split_and!; try done.
    + destruct Hv as [[_ ->] | [_ ->]]; [by left | by right].
    + by rewrite Hkx.
    + apply (inj (String.append cacheKey)).
      by rewrite <- (Hrk r x Hx), Hkx.
Qed.

Lemma lazyCache_serves_f_witness :
  let s :=
    Lazy.run "ns" 1000 Lazy.init
      [Lazy.Call [VNum 7]; Lazy.Call [VNum 7];
       Lazy.Resume 0 (Some (VBool false)); Lazy.Resume 1 (Some (VBool true));
       Lazy.MemResolve 0 (VStr "m");
       Lazy.Redis (Red.GetReply 0); Lazy.Redis (Red.LockGranted 0);
       Lazy.Redis (Red.FResolve 0 (VStr "r")); Lazy.Redis (Red.SetReply 0)] in
  ∃ a, Lazy.calls s !! 1%nat = Some a
    ∧ ((∃ o, Lazy.a_phase a = Lazy.InMemory o
          ∧ (VStr "r" = VUndefined
             ∨ ∃ p j, Mem.jobs (Lazy.mem s) !! p = Some j
                 ∧ Mem.j_f j = Mem.Fulfilled (VStr "r")
                 ∧ Mem.j_key j = JSON_stringify (Lazy.a_args a)
                 ∧ JSON_stringify (Mem.j_args j)
                   = JSON_stringify (Lazy.a_args a)))
       ∨ (∃ c r x w, Lazy.a_phase a = Lazy.InRedis c
            ∧ Red.renewals (Lazy.red s) !! r = Some x
            ∧ Red.r_phase x = Red.Finished w
            ∧ (VStr "r" = w ∨ VStr "r" = parsed w)
            ∧ Red.r_key x = "ns" +:+ JSON_stringify (Lazy.a_args a)
            ∧ JSON_stringify (Red.r_args x)
              = JSON_stringify (Lazy.a_args a))).
Proof.
  apply (lazyCache_serves_f "ns" 1000
           [Lazy.Call [VNum 7]; Lazy.Call [VNum 7];
            Lazy.Resume 0 (Some (VBool false));
            Lazy.Resume 1 (Some (VBool true));
            Lazy.MemResolve 0 (VStr "m");
            Lazy.Redis (Red.GetReply 0); Lazy.Redis (Red.LockGranted 0);
            Lazy.Redis (Red.FResolve 0 (VStr "r"));
            Lazy.Redis (Red.SetReply 0)] 1%nat (VStr "r")).
  reflexivity.
Defined.

(** X14.  The backend that is not picked is never called.  In a run in
    which no [await useRedis] gives a truthy value, the shared cache has
    no caller and no renewal, the store is not read or written, no lock
    is asked for and [f] is not called on its behalf; in a run in which
    none gives a falsy value, the in-process cache has no entry and no
    executor. *)
Theorem unselected_backend_is_idle cacheKey timeMs es :
  let s := Lazy.run cacheKey timeMs Lazy.init es in
  (Forall (λ e, Lazy.selects e ≠ Some true) es → Lazy.red_idle (Lazy.red s))
  ∧ (Forall (λ e, Lazy.selects e ≠ Some false) es →
     Lazy.mem_idle (Lazy.mem s)).
Proof.
  intros s. subst s. split.
  - assert (Lazy.red_idle (Lazy.red Lazy.init)) as H0 by done.
    revert H0. generalize Lazy.init.
    induction es as [| e es IH]; intros s0 H0 Hall; [done |].
    apply Forall_cons in Hall as [He Hall].
    rewrite LazyFacts.lazy_run_cons. apply IH; [| done].
    by apply LazyFacts.red_idle_step.
  - assert (Lazy.mem_idle (Lazy.mem Lazy.init)) as H0 by done.
    revert H0. generalize Lazy.init.
    induction es as [| e es IH]; intros s0 H0 Hall; [done |].
    apply Forall_cons in Hall as [He Hall].
    rewrite LazyFacts.lazy_run_cons. apply IH; [| done].
    by apply LazyFacts.mem_idle_step.
Qed.

Lemma unselected_backend_is_idle_witness :
  Lazy.red_idle
    (Lazy.red
       (Lazy.run "ns" 1000 Lazy.init
          [Lazy.Call [VNum 7]; Lazy.Resume 0 (Some (VNum 0));
           Lazy.Redis (Red.GetReply 0); Lazy.MemResolve 0 (VStr "m");
           Lazy.Tick 10])).
Proof.
  destruct (unselected_backend_is_idle "ns" 1000
              [Lazy.Call [VNum 7]; Lazy.Resume 0 (Some (VNum 0));
               Lazy.Redis (Red.GetReply 0); Lazy.MemResolve 0 (VStr "m");
               Lazy.Tick 10]) as [Hred _].
  apply Hred. repeat constructor; discriminate.
Defined.

(** ** When a call of the in-process backend has to wait *)

Module MemWait.
Import Mem MemInv.

Section Facts.

Variable timeMs : Z.

Lemma renew_awaited key args c s :
  awaited s → awaited (renew key args c s).1.
Proof.
  intros H k c' p' Hc' Hp'. simpl in *.
  destruct (decide (key = k)) as [<- | Hne].
  - rewrite lookup_insert_eq in Hc'. injection Hc' as <-. simpl in *.
    injection Hp' as <-. eexists. split; [by apply list_lookup_middle |].
    done.
  - rewrite lookup_insert_ne in Hc' by done.
    destruct (H k c' p' Hc' Hp') as (j & Hj & Hk & Hpr).
    exists j. split; [by apply lookup_app_l_Some | done].
Qed.

Lemma f_resolved_awaited q v s : awaited s → awaited (f_resolved q v s).
Proof.
  intros H. unfold f_resolved.
  destruct (jobs s !! q) as [jq |] eqn:Hjq; [| done].
  destruct (j_f jq); try done.
  intros k c p Hc Hp. simpl in *.
  destruct (decide (j_key jq = k)) as [<- | Hne].
  - rewrite lookup_insert_eq in Hc. by injection Hc as <-.
  - rewrite lookup_insert_ne in Hc by done.
    destruct (H k c p Hc Hp) as (j & Hj & Hk & Hpr).
    exists j. split; [| done].
    rewrite list_lookup_insert_ne; [done |]. intros ->. congruence.
Qed.

Lemma f_rejected_awaited q s : awaited s → awaited (f_rejected q s).
Proof.
  intros H. unfold f_rejected.
  destruct (jobs s !! q) as [jq |] eqn:Hjq; [| done].
  destruct (j_f jq); try done.
  intros k c p Hc Hp. simpl in *.
  destruct (H k c p Hc Hp) as (j & Hj & Hk & Hpr).
  destruct (decide (q = p)) as [-> | Hne].
  - rewrite list_lookup_insert_eq by (by eapply lookup_lt_Some).
    eexists. split; [done |]. simpl. split; congruence.
  - exists j. by rewrite list_lookup_insert_ne.
Qed.

Lemma step_awaited s e : awaited s → awaited (step timeMs s e).1.
Proof.
  intros H. destruct e as [args | q v | q | d].
  - rewrite MemFacts.step_call.
    destruct (MemMore.call_cases timeMs s args) as [[o ->] | (c & -> & _)];
      [done | by apply renew_awaited].
  - by apply f_resolved_awaited.
  - by apply f_rejected_awaited.
  - done.
Qed.

Lemma run_awaited s es : awaited s → awaited (run timeMs s es).1.
Proof.
  revert s. induction es as [| e es IH]; intros s H; [done |].
  rewrite MemFacts.run_cons_state. by apply IH, step_awaited.
Qed.

Lemma init_awaited : awaited init.
Proof. intros k c p Hc. simpl in Hc. by rewrite lookup_empty in Hc. Qed.

End Facts.

End MemWait.

(** X15.  When a call of the in-process backend has to wait.  The promise
    a call returns is still pending when the call returns exactly in two
    cases: the key has no entry; or the entry has an [at], it has expired,
    and its value is falsy.  In every other case the caller has its value
    at once. *)
Theorem call_waits_exactly_when timeMs es args :
  let key := JSON_stringify args in
  let s := (Mem.run timeMs Mem.init es).1 in
  let s' := (Mem.memoryCache timeMs args s).1 in
  let o := (Mem.memoryCache timeMs args s).2 in
  Mem.settled s' o = None
  ↔ Mem.caches s !! key = None
    ∨ ∃ c a, Mem.caches s !! key = Some c ∧ Mem.e_at c = Some a
             ∧ timeMs < Mem.now s - a ∧ truthy (Mem.e_value c) = false.
Proof.
  intros key s s' o.
  assert (MemInv.awaited s) as Haw
    by apply MemWait.run_awaited, MemWait.init_awaited.
  subst s' o. unfold Mem.memoryCache. fold key.
  destruct (Mem.caches s !! key) as [c |] eqn:Hc.
  - destruct (Mem.e_at c) as [a |] eqn:Ha; simpl.
    + destruct (Z.ltb_spec timeMs (Mem.now s - a)) as [Hlt | Hle]; simpl.
      * destruct (Mem.e_promise c) as [p |] eqn:Hp.
        -- destruct (truthy (Mem.e_value c)) eqn:Ht; simpl.
           ++ split; [done |].
              intros [? | (c' & a' & Hc' & _ & _ & Ht')]; [done | congruence].
           ++ destruct (Haw key c p Hc Hp) as (j & Hj & _ & Hpr).
              rewrite Ht in Hpr. rewrite Hj, Hpr.
              split; [| done]. intros _. right. by exists c, a.
        -- simpl. rewrite list_lookup_middle by done. simpl.
           destruct (truthy (Mem.e_value c)) eqn:Ht.
           ++ split; [done |].
              intros [? | (c' & a' & Hc' & _ & _ & Ht')]; [done | congruence].
           ++ split; [| done]. intros _. right. by exists c, a.
      * split; [done |].
        intros [? | (c' & a' & Hc' & Ha' & Hlt & _)]; [done |].
        assert (a' = a) by congruence. lia.
    + split; [done |].
      intros [? | (c' & a' & Hc' & Ha' & _)]; [done | congruence].
  - simpl. rewrite list_lookup_middle by done. simpl.
    split; [by left | done].
Qed.

Lemma call_waits_exactly_when_witness :
  let s :=
    (Mem.run 1000 Mem.init
       [Mem.Call [VNum 7]; Mem.FResolve 0 (VNum 0); Mem.Tick 1001]).1 in
  Mem.settled (Mem.memoryCache 1000 [VNum 7] s).1
              (Mem.memoryCache 1000 [VNum 7] s).2 = None.
Proof.
  apply (call_waits_exactly_when 1000
           [Mem.Call [VNum 7]; Mem.FResolve 0 (VNum 0); Mem.Tick 1001]
           [VNum 7]).
  right. exists (Mem.Entry (Some 0) None (VNum 0)), 0.
  split_and!; [reflexivity | reflexivity | vm_compute; reflexivity | reflexivity].
Defined.

(** ** How long a lock can be held *)

Module RedLease.
Import Red RedInv.

Section Facts.

Variable cacheKey : string.
Variable timeMs : Z.




End Facts.

End RedLease.


